(** * EatWise (StormHack): the client's request/result logic and the
    relational schema, embedded in Rocq.

    The development follows the repository layout:
    - [JS]        : the few JavaScript primitives the screens rely on
                    (UTF-16 strings, [trim], [split] on a separator class,
                    truthiness, a stable [sort]);
    - [Client]    : [apiFilter], [parseDiseases], [rowsFromResult] and the
                    error path of [onSearch] from app/(tabs)/pair.tsx and
                    app/(tabs)/wellness.tsx;
    - [Schema]    : the tables of db/migration/V2__create_tables.sql with the
                    row-level statements PostgreSQL accepts on them;
    - [Engine]    : the resolvers of the backend, which the repository's
                    sources do not contain and which are taken from the
                    design document. *)

From Stdlib Require Import ZArith NArith Ascii String DecimalString Lia.
From stdpp Require Import base decidable option list gmap sorting.

Local Open Scope Z_scope.

(** ** JavaScript primitives *)
Module JS.

(** A JavaScript string is a sequence of UTF-16 code units. *)
Abbreviation jsstring := (list N).

(** String literals of the sources, all of them ASCII. *)
Fixpoint js (s : string) : jsstring :=
  match s with
  | EmptyString => []
  | String c rest => N_of_ascii c :: js rest
  end.

(** [Boolean(s)] for a string: the empty string is the only falsy one. *)
Definition truthy (s : jsstring) : bool :=
  match s with [] => false | _ => true end.

(** [a || b] on an optional string property ([undefined] is falsy). *)
Definition or_else (a : option jsstring) (b : jsstring) : jsstring :=
  match a with
  | Some s => if truthy s then s else b
  | None => b
  end.

(** The character class [\s] of a regular expression, which is also the
    set [String.prototype.trim] strips: WhiteSpace and LineTerminator. *)
Definition isWhiteSpace (c : N) : bool :=
  ((9 <=? c) && (c <=? 13) || (c =? 32) || (c =? 160) || (c =? 5760)
   || (8192 <=? c) && (c <=? 8202) || (c =? 8232) || (c =? 8233)
   || (c =? 8239) || (c =? 8287) || (c =? 12288) || (c =? 65279))%N.

Fixpoint trimStart (s : jsstring) : jsstring :=
  match s with
  | c :: rest => if isWhiteSpace c then trimStart rest else s
  | [] => []
  end.

Definition trimEnd (s : jsstring) : jsstring :=
  reverse (trimStart (reverse s)).

Definition trim (s : jsstring) : jsstring := trimEnd (trimStart s).

(** [s.split(re)] for a regular expression [re] of the shape [[...]+]
    (one or more characters of a class [sep]).  The matcher is greedy, so a
    whole run of separators is consumed at once; the piece before the run is
    emitted even when it is empty, and so is the piece after the last run.
    [cur] holds the current piece reversed, [in_run] tells whether the
    previous code unit belonged to a separator run. *)
Fixpoint split_go (sep : N -> bool) (in_run : bool) (cur : jsstring)
    (s : jsstring) : list jsstring :=
  match s with
  | [] => [reverse cur]
  | c :: rest =>
      if sep c then
        if in_run then split_go sep true [] rest
        else reverse cur :: split_go sep true [] rest
      else split_go sep false (c :: cur) rest
  end.

Definition split (sep : N -> bool) (s : jsstring) : list jsstring :=
  split_go sep false [] s.

(** [Array.prototype.sort(cmp)]: a stable sort; [a] stays in front of [b]
    when [cmp a b <= 0].  Written as the insertion of each element, from the
    right, in front of the first element it does not exceed. *)
Section Sort.
Context {A : Type} (cmp : A -> A -> Z).

Fixpoint insert_sorted (x : A) (l : list A) : list A :=
  match l with
  | [] => [x]
  | y :: l' => if cmp x y <=? 0 then x :: l else y :: insert_sorted x l'
  end.

Fixpoint sort (l : list A) : list A :=
  match l with
  | [] => []
  | x :: l' => insert_sorted x (sort l')
  end.

End Sort.

(** [encodeURIComponent(s)] throws a [URIError] exactly when [s] holds a
    lone surrogate: a code unit of D800..DBFF that no code unit of
    DC00..DFFF follows, or one of DC00..DFFF that no code unit of D800..DBFF
    precedes.  [isWellFormed s] tells that it has none. *)
Definition isHighSurrogate (c : N) : bool := ((55296 <=? c) && (c <=? 56319))%N.
Definition isLowSurrogate (c : N) : bool := ((56320 <=? c) && (c <=? 57343))%N.

Fixpoint isWellFormed (s : jsstring) : bool :=
  match s with
  | [] => true
  | c :: rest =>
      if isHighSurrogate c then
        match rest with
        | d :: rest' => isLowSurrogate d && isWellFormed rest'
        | [] => false
        end
      else if isLowSurrogate c then false
      else isWellFormed rest
  end.

(** Decimal rendering of a non-negative integer inside a template string
    (an HTTP status here). *)
Definition digits (n : N) : jsstring :=
  js (NilEmpty.string_of_uint (N.to_uint n)).

(** A lower-casing and a collation to run the screens with: they agree with
    [toLowerCase] and with [localeCompare] under [sensitivity: 'base'] on
    strings of ASCII letters. *)
Definition foldCase (c : N) : N :=
  if ((65 <=? c) && (c <=? 90))%N then (c + 32)%N else c.

Definition asciiLowerCase (s : jsstring) : jsstring := foldCase <$> s.

Fixpoint asciiCompare (a b : jsstring) : Z :=
  match a, b with
  | [], [] => 0
  | [], _ :: _ => -1
  | _ :: _, [] => 1
  | x :: a', y :: b' =>
      if (foldCase x <? foldCase y)%N then -1
      else if (foldCase y <? foldCase x)%N then 1
      else asciiCompare a' b'
  end.

End JS.
Import JS.


(** ** The mobile client *)
Module Client.

(** [type Filter = 'all' | 'avoid' | 'benefit'], the state of the filter
    chips; the state itself is [Filter | null]. *)
Inductive Filter := FAll | FAvoid | FBenefit.

Definition filterValue (f : Filter) : jsstring :=
  match f with
  | FAll => js "all"
  | FAvoid => js "avoid"
  | FBenefit => js "benefit"
  end.

(** [apiFilter = (f) => f === 'benefit' ? 'beneficial' : (f ?? 'all')]:
    the string put in the query string or in the JSON body. *)
Definition apiFilter (f : option Filter) : jsstring :=
  match f with
  | Some FBenefit => js "beneficial"
  | Some f' => filterValue f'
  | None => js "all"
  end.

(** The memoised variant of the step-by-step pairing screens,
    [filter === 'benefit' ? 'beneficial' : filter || 'all']. *)
Definition apiFilter_memo (f : option Filter) : jsstring :=
  match f with
  | Some FBenefit => js "beneficial"
  | _ => or_else (filterValue <$> f) (js "all")
  end.

(** [type ApiFilter = 'all' | 'avoid' | 'beneficial']. *)
Definition ApiFilter_values : list jsstring :=
  [js "all"; js "avoid"; js "beneficial"].

Record SourceRef := { label : jsstring; url : option jsstring }.

(** Which bucket a row came from: ['good' | 'bad']. *)
Inductive Kind := good | bad.

Global Instance Filter_eq_dec : EqDecision Filter.
Proof. solve_decision. Defined.
Global Instance Kind_eq_dec : EqDecision Kind.
Proof. solve_decision. Defined.

(** *** The try / catch / finally of [onSearch]

    The three screens that call the backend share it word for word. *)

(** What the handler reads of a thrown value: [err?.name], [err?.message]. *)
Record JsError := { name : jsstring; message : option jsstring }.

(** [new Error(msg)]. *)
Definition Error (msg : jsstring) : JsError :=
  {| name := js "Error"; message := Some msg |}.

(** What [await res.json()] gives: a rejection (no body, or not JSON), or the
    parsed value, read either as an error envelope ([?.message]: a string or
    [undefined]) or, by the unchecked cast, as the payload.  The cast lets
    the body [null] through: [payload] is [None] for it, and [msg] is then
    [None] as well ([null?.message]). *)
Inductive Body (D : Type) :=
| Unreadable (e : JsError)
| Parsed (msg : option jsstring) (payload : option D).
Arguments Unreadable {D} e.
Arguments Parsed {D} msg payload.

Record Response (D : Type) := { status : N; body : Body D }.
Arguments status {D} r.
Arguments body {D} r.

(** [res.ok]: the status is in the range 200-299. *)
Definition ok {D} (res : Response D) : bool :=
  ((200 <=? status res) && (status res <=? 299))%N.

(** How the [try] block goes up to the response: a value is thrown before
    there is one ([fetch] rejects on a network failure or on the abort of the
    timeout; in the pairing screen [encodeURIComponent] throws a [URIError]
    on a query with a lone surrogate, before [fetch] is called), or [fetch]
    resolves to a response. *)
Inductive FetchOutcome (D : Type) :=
| Rejects (e : JsError)
| Resolves (res : Response D).
Arguments Rejects {D} e.
Arguments Resolves {D} res.

(** The body of the [try] block: [inl] is the value thrown, [inr] the data
    handed to [setResult], [null] ([None]) when the body of a 2xx response is
    [null]. *)
Definition fetchData {D} (o : FetchOutcome D) : JsError + option D :=
  match o with
  | Rejects e => inl e
  | Resolves res =>
      if negb (ok res) then
        let msg := match body res with
                   | Unreadable _ => None          (* try { ... } catch {} *)
                   | Parsed m _ => m
                   end in
        inl (Error (or_else msg
               (js "Request failed (" ++ digits (status res) ++ js ")")))
      else
        match body res with
        | Unreadable e => inl e
        | Parsed _ d => inr d
        end
  end.

(** The message of the [catch] clause. *)
Definition caughtMessage (err : JsError) : jsstring :=
  if decide (name err = js "AbortError") then js "Request timed out"
  else or_else (message err) (js "Something went wrong").

(** The state [onSearch] reads and writes, as far as the request and its
    outcome go; the recent searches, the active tab and the recipe panel of
    the wellness screen take no part in them and are left out. *)
Record SearchState (D : Type) := {
  query : jsstring;
  filter : option Filter;
  loading : bool;
  result : option D;
  errorMsg : option jsstring;
}.
Arguments query {D} s.
Arguments filter {D} s.
Arguments loading {D} s.
Arguments result {D} s.
Arguments errorMsg {D} s.

(** From [setLoading(true)] to the end of [finally], given how the request
    ended. *)
Definition runSearch {D} (st : SearchState D) (o : FetchOutcome D)
  : SearchState D :=
  match fetchData o with
  | inr data =>
      {| query := query st; filter := filter st; loading := false;
         result := data; errorMsg := None |}
  | inl err =>
      {| query := query st; filter := filter st; loading := false;
         result := None; errorMsg := Some (caughtMessage err) |}
  end.

(** *** The pairing screen (app/(tabs)/pair.tsx, the copy calling the API) *)
Module Pairing.

(** The code guards [food] and [severity] ([a.food || ''],
    [a.severity ?? 0]), so both are optional here.  The severity is the
    evidence score of the edge, a [SMALLINT] of the schema: an integer. *)
Record CompatibilityItem := {
  food : option jsstring;
  reason : jsstring;
  severity : option Z;
  sources : option (list SourceRef);
}.

Record CompatibilityResponse := {
  ingredient : jsstring;
  category : jsstring;
  avoid : option (list CompatibilityItem);
  beneficial : option (list CompatibilityItem);
}.

(** [type Row = CompatibilityItem & { _kind: 'good' | 'bad' }]. *)
Record Row := { item : CompatibilityItem; _kind : Kind }.

Section Collation.
(** [a.localeCompare(b, undefined, { sensitivity: 'base' })]. *)
Variable localeCompare : jsstring -> jsstring -> Z.

Definition bySeverity (a b : CompatibilityItem) : Z :=
  let d := default 0 (severity b) - default 0 (severity a) in
  if d =? 0 then localeCompare (or_else (food a) []) (or_else (food b) [])
  else d.

Definition rowsFromResult (res : CompatibilityResponse)
    (filter : option Filter) : list Row :=
  let goods := (fun x => {| item := x; _kind := good |})
                 <$> default [] (beneficial res) in
  let bads := (fun x => {| item := x; _kind := bad |})
                 <$> default [] (avoid res) in
  let goods := sort (fun a b => bySeverity (item a) (item b)) goods in
  let bads := sort (fun a b => bySeverity (item a) (item b)) bads in
  match filter with
  | Some FBenefit => goods
  | Some FAvoid => bads
  | _ => goods ++ bads
  end.

End Collation.

(** The query string parameter of the request [onSearch] issues; [None]
    when no request is issued: [onSearch] returns first ([if (!q) return]),
    or [encodeURIComponent(q)] throws while the URL is built. *)
Definition requestFilter (st : SearchState CompatibilityResponse)
  : option jsstring :=
  let q := trim (query st) in
  if truthy q && isWellFormed q then Some (apiFilter (filter st)) else None.

(** [onSearch], given how the [try] block goes. *)
Definition onSearch (st : SearchState CompatibilityResponse)
    (o : FetchOutcome CompatibilityResponse)
  : SearchState CompatibilityResponse :=
  if truthy (trim (query st)) then runSearch st o else st.

End Pairing.

(** *** The wellness screen (the two copies of app/(tabs)/wellness.tsx) *)
Module Wellness.

(** One copy declares [severity: number] and the other leaves the field out
    of the type; the object spread into a row carries whatever the response
    held, so the field is optional here. *)
Record DiseaseItem := {
  food : option jsstring;
  ingredient : option jsstring;
  reason : jsstring;
  severity : option Z;
  affectedDiseases : option (list jsstring);
  sources : option (list SourceRef);
}.

Record DiseaseGuide := {
  diseases : list jsstring;
  avoid : option (list DiseaseItem);
  beneficial : option (list DiseaseItem);
}.

(** [type Row = DiseaseItem & { _kind: 'good' | 'bad', _name: string }]. *)
Record Row := { item : DiseaseItem; _kind : Kind; _name : jsstring }.

(** [nameOf = x => (x.food || x.ingredient || '').trim()]. *)
Definition nameOf (x : DiseaseItem) : jsstring :=
  trim (or_else (food x) (or_else (ingredient x) [])).

Definition toRow (k : Kind) (x : DiseaseItem) : Row :=
  {| item := x; _kind := k; _name := nameOf x |}.

Section Collation.
Variable localeCompare : jsstring -> jsstring -> Z.

(** The copy with the recipe panel compares names only. *)
Definition byName (a b : DiseaseItem) : Z :=
  localeCompare (nameOf a) (nameOf b).

Definition rowsFromResult_byName (res : DiseaseGuide)
    (filter : option Filter) : list Row :=
  let goods := toRow good <$> default [] (beneficial res) in
  let bads := toRow bad <$> default [] (avoid res) in
  let goods := sort (fun a b => byName (item a) (item b)) goods in
  let bads := sort (fun a b => byName (item a) (item b)) bads in
  match filter with
  | Some FBenefit => goods
  | Some FAvoid => bads
  | _ => goods ++ bads
  end.

(** The copy with the severity badges. *)
Definition bySeverity (a b : DiseaseItem) : Z :=
  let d := default 0 (severity b) - default 0 (severity a) in
  if d =? 0 then localeCompare (nameOf a) (nameOf b) else d.

Definition rowsFromResult (res : DiseaseGuide)
    (filter : option Filter) : list Row :=
  let goods := toRow good <$> default [] (beneficial res) in
  let bads := toRow bad <$> default [] (avoid res) in
  let goods := sort (fun a b => bySeverity (item a) (item b)) goods in
  let bads := sort (fun a b => bySeverity (item a) (item b)) bads in
  match filter with
  | Some FBenefit => goods
  | Some FAvoid => bads
  | _ => goods ++ bads
  end.

End Collation.

Section Tokens.
(** [String.prototype.toLowerCase]. *)
Variable toLowerCase : jsstring -> jsstring.

(** The separator class of [/[,\s]+/]. *)
Definition isSeparator (c : N) : bool := (c =? 44)%N || isWhiteSpace c.

(** [input.split(/[,\s]+/).map(s => s.trim()).filter(Boolean)]. *)
Definition parts (input : jsstring) : list jsstring :=
  List.filter truthy (trim <$> split isSeparator input).

(** The [for] loop: [seen] is the [Set] of lower-cased keys, [out] the
    array the tokens are pushed to. *)
Fixpoint dedupe (ps : list jsstring) (seen : gset jsstring)
    (out : list jsstring) : list jsstring :=
  match ps with
  | [] => out
  | p :: rest =>
      let k := toLowerCase p in
      if decide (k ∈ seen) then dedupe rest seen out
      else dedupe rest ({[ k ]} ∪ seen) (out ++ [p])
  end.

Definition parseDiseases (input : jsstring) : list jsstring :=
  dedupe (parts input) ∅ [].

(** The JSON body [{ diseases, filter: apiFilter(filter) }] of the request
    [onSearch] issues; [None] when it returns before any request. *)
Definition requestBody (st : SearchState DiseaseGuide)
  : option (list jsstring * jsstring) :=
  let q := trim (query st) in
  if truthy q then
    match parseDiseases q with
    | [] => None
    | ds => Some (ds, apiFilter (filter st))
    end
  else None.

Definition onSearch (st : SearchState DiseaseGuide)
    (o : FetchOutcome DiseaseGuide) : SearchState DiseaseGuide :=
  match requestBody st with
  | Some _ => runSearch st o
  | None => st
  end.

End Tokens.
End Wellness.

End Client.


(** ** The mobile client, continued: recent searches, the header badge, the
    buttons around [onSearch] *)

(** *** Recent searches ([addRecent], [clearRecents]; every screen) *)
Module Recents.

Section Recents.
Variable toLowerCase : jsstring -> jsstring.
(** [MAX_RECENTS]: 4 in the screens that call the backend, 8 in the
    others. *)
Variable MAX_RECENTS : nat.

(** [r => r.toLowerCase() !== t.toLowerCase()]. *)
Definition differs (t r : jsstring) : bool :=
  negb (bool_decide (toLowerCase r = toLowerCase t)).

(** [addRecent]: the list [persistRecents] is given, or the list as it was
    when the text is blank ([if (!t) return]). *)
Definition addRecent (recents : list jsstring) (text : jsstring)
  : list jsstring :=
  let t := trim text in
  if truthy t then take MAX_RECENTS (t :: List.filter (differs t) recents)
  else recents.

Definition clearRecents (recents : list jsstring) : list jsstring := [].

(** What happens to the list of recent searches. *)
Inductive event := Add (text : jsstring) | Clear.

Definition after (recents : list jsstring) (e : event) : list jsstring :=
  match e with
  | Add text => addRecent recents text
  | Clear => clearRecents recents
  end.

End Recents.
End Recents.

(** [Array.prototype.join(sep)] on an array of strings. *)
Fixpoint join (sep : jsstring) (l : list jsstring) : jsstring :=
  match l with
  | [] => []
  | x :: rest =>
      match rest with
      | [] => x
      | _ :: _ => x ++ sep ++ join sep rest
      end
  end.

(** *** The badge and the title over a result ([getHeaderTone],
    [ResultView]) *)
Module Header.
Import Client.

(** The underlined title of the wellness result:
    [(result.diseases && result.diseases.length > 0)
       ? result.diseases.join(', ') : query]. *)
Definition titleOf (res : Wellness.DiseaseGuide) (query : jsstring)
  : jsstring :=
  match Wellness.diseases res with
  | [] => query
  | ds => join (js ", ") ds
  end.

(** ['good' | 'bad' | 'neutral']. *)
Inductive Tone := tone (k : Kind) | neutral.

(** [getHeaderTone(res, filter)] of the pairing screen. *)
Definition pairingTone (res : Pairing.CompatibilityResponse)
    (filter : option Filter) : Tone :=
  if bool_decide (filter = Some FAvoid)
     && (0 <? length (default [] (Pairing.avoid res)))%nat then tone bad
  else if (0 <? length (default [] (Pairing.beneficial res)))%nat
  then tone good
  else if (0 <? length (default [] (Pairing.avoid res)))%nat then tone bad
  else neutral.

(** [getHeaderTone(res, filter)] of the wellness screen, both copies. *)
Definition wellnessTone (res : Wellness.DiseaseGuide)
    (filter : option Filter) : Tone :=
  if bool_decide (filter = Some FAvoid)
     && (0 <? length (default [] (Wellness.avoid res)))%nat then tone bad
  else if (0 <? length (default [] (Wellness.beneficial res)))%nat
  then tone good
  else if (0 <? length (default [] (Wellness.avoid res)))%nat then tone bad
  else neutral.

End Header.

(** *** The buttons around [onSearch] *)
Module Buttons.
Import Client.

(** [canSearch = query.trim().length > 0]. *)
Definition canSearch {D} (st : SearchState D) : bool :=
  (0 <? length (trim (query st)))%nat.



(** A recent search is tapped: [() => { setQuery(item); onSearch(); }].
    [onSearch] is the closure of the current render, so it reads the query
    as it was before the tap; the new query is in the state afterwards. *)
Definition pairingPressRecent (item : jsstring)
    (st : SearchState Pairing.CompatibilityResponse)
    (o : FetchOutcome Pairing.CompatibilityResponse)
  : SearchState Pairing.CompatibilityResponse :=
  let st' := Pairing.onSearch st o in
  {| query := item; filter := filter st'; loading := loading st';
     result := result st'; errorMsg := errorMsg st' |}.

Definition wellnessPressRecent (toLowerCase : jsstring -> jsstring)
    (item : jsstring) (st : SearchState Wellness.DiseaseGuide)
    (o : FetchOutcome Wellness.DiseaseGuide)
  : SearchState Wellness.DiseaseGuide :=
  let st' := Wellness.onSearch toLowerCase st o in
  {| query := item; filter := filter st'; loading := loading st';
     result := result st'; errorMsg := errorMsg st' |}.

End Buttons.


(** *** The recipe panel of the wellness screen ([onGenerateRecipe]) *)
Module Recipe.
Import Client.

Section Json.
(** The numbers of JSON are doubles; the handler only asks whether one is
    truthy (neither 0 nor -0). *)
Variable number : Type.
Variable nonzero : number -> bool.

(** A value [JSON.parse] returns; an object holds each key once. *)
#[local] Unset Elimination Schemes.
Inductive json :=
| JNull
| JBool (b : bool)
| JNumber (n : number)
| JString (s : jsstring)
| JArray (items : list json)
| JObject (fields : list (jsstring * json)).
#[local] Set Elimination Schemes.

(** [JSON.parse(x)], the argument converted to a string first; [None] when
    it throws. *)
Variable JSON_parse : json -> option json.

(** [v?.k] for the keys the handler reads (choices, message, content,
    title, servings, ingredients, steps), none of which a string, a number,
    a boolean or an array has: [None] is [undefined]. *)
Definition prop (k : string) (v : option json) : option json :=
  match v with
  | Some (JObject fields) =>
      snd <$> List.find (fun p => bool_decide (fst p = js k)) fields
  | _ => None
  end.

(** Truthiness of a value. *)
Definition truthy_json (v : json) : bool :=
  match v with
  | JNull => false
  | JBool b => b
  | JNumber n => nonzero n
  | JString s => truthy s
  | JArray _ | JObject _ => true
  end.

(** [type Recipe], as [setRecipe] is given it (an unchecked cast). *)
Record Recipe := {
  title : json;
  servings : option json;
  ingredients : list json;
  steps : list json;
}.

(** [try { x = JSON.parse(c); } catch { x = c; }]. *)
Definition parsedOrSelf (c : json) : json := default c (JSON_parse c).

(** [parsed.choices[0]?.message?.content] when [parsed?.choices] is an
    array. *)
Definition choiceContent (parsed : json) : option json :=
  match prop "choices" (Some parsed) with
  | Some (JArray items) => prop "content" (prop "message" (head items))
  | _ => None
  end.

(** "Parse possible shapes": the answer of a chat completion, an object
    with a [content] string, or the recipe itself. *)
Definition recipeObj (parsed : json) : json :=
  match choiceContent parsed with
  | Some c =>
      if truthy_json c then parsedOrSelf c
      else match prop "content" (Some parsed) with
           | Some (JString s) => parsedOrSelf (JString s)
           | _ => parsed
           end
  | None =>
      match prop "content" (Some parsed) with
      | Some (JString s) => parsedOrSelf (JString s)
      | _ => parsed
      end
  end.

(** From the text of the answer to the recipe, or to the message of the
    error thrown. *)
Definition recipeOfText (raw : jsstring) : jsstring + Recipe :=
  match JSON_parse (JString raw) with
  | None => inl (js "Could not parse AI JSON. See Debug Output below.")
  | Some parsed =>
      let obj := match recipeObj parsed with
                 | JString s => JSON_parse (JString s)
                 | o => Some o
                 end in
      match obj with
      | None => inl (js "AI returned non-JSON text. See Debug Output below.")
      | Some o =>
          match prop "title" (Some o), prop "ingredients" (Some o),
                prop "steps" (Some o) with
          | Some t, Some (JArray i), Some (JArray s) =>
              if truthy_json t
              then inr {| title := t; servings := prop "servings" (Some o);
                          ingredients := i; steps := s |}
              else inl (js "AI returned unexpected format. See Debug Output below.")
          | _, _, _ =>
              inl (js "AI returned unexpected format. See Debug Output below.")
          end
      end
  end.

(** The state of the panel; the preview of the payload (a slice of
    [JSON.stringify]) is left out. *)
Record Panel := {
  recipe : option Recipe;
  recipeLoading : bool;
  recipeErr : option jsstring;
  debugStatus : option N;
  debugRaw : option jsstring;
}.

(** How the request to the AI service ends: [fetch] rejects, or resolves to
    a status and a body that [res.text()] reads or fails to read. *)
Inductive AiOutcome :=
| AiRejects (e : JsError)
| AiResolves (status : N) (text : JsError + jsstring).

(** The names sent: of the beneficial bucket, trimmed, the empty ones
    dropped. *)
Definition beneficialNames (res : Wellness.DiseaseGuide) : list jsstring :=
  List.filter truthy (Wellness.nameOf <$> default [] (Wellness.beneficial res)).

(** [allow = filter === 'benefit' || filter === 'all' || filter === null]. *)
Definition allow (filter : option Filter) : bool :=
  match filter with Some FAvoid => false | _ => true end.

(** The message of the [catch] clause. *)
Definition recipeCaught (e : JsError) : jsstring :=
  or_else (message e) (js "Recipe generation failed.").

(** [onGenerateRecipe]. *)
Definition onGenerateRecipe (filter : option Filter)
    (res : Wellness.DiseaseGuide) (p : Panel) (o : AiOutcome) : Panel :=
  if negb (allow filter) then p
  else
    match beneficialNames res with
    | [] =>
        {| recipe := None; recipeLoading := recipeLoading p;
           recipeErr :=
             Some (js "No beneficial ingredients found to build a recipe.");
           debugStatus := debugStatus p; debugRaw := debugRaw p |}
    | _ :: _ =>
        match o with
        | AiRejects e =>
            {| recipe := None; recipeLoading := false;
               recipeErr := Some (recipeCaught e);
               debugStatus := None; debugRaw := None |}
        | AiResolves status (inl e) =>
            {| recipe := None; recipeLoading := false;
               recipeErr := Some (recipeCaught e);
               debugStatus := Some status; debugRaw := None |}
        | AiResolves status (inr raw) =>
            let thrown :=
              if negb ((200 <=? status) && (status <=? 299))%N
              then inl (js "AI error " ++ digits status ++ js ": " ++ raw)
              else recipeOfText raw in
            match thrown with
            | inl msg =>
                {| recipe := None; recipeLoading := false;
                   recipeErr := Some (recipeCaught (Error msg));
                   debugStatus := Some status; debugRaw := Some raw |}
            | inr r =>
                {| recipe := Some r; recipeLoading := false;
                   recipeErr := None;
                   debugStatus := Some status; debugRaw := Some raw |}
            end
        end
    end.

End Json.

Arguments JNull {number}.
Arguments JBool {number} b.
Arguments JNumber {number} n.
Arguments JString {number} s.
Arguments JArray {number} items.
Arguments JObject {number} fields.
Arguments prop {number} k v.
Arguments truthy_json {number} nonzero v.
Arguments title {number} r.
Arguments servings {number} r.
Arguments ingredients {number} r.
Arguments steps {number} r.
Arguments parsedOrSelf {number} JSON_parse c.
Arguments choiceContent {number} parsed.
Arguments recipeObj {number} nonzero JSON_parse parsed.
Arguments recipeOfText {number} nonzero JSON_parse raw.
Arguments recipe {number} p.
Arguments recipeLoading {number} p.
Arguments recipeErr {number} p.
Arguments debugStatus {number} p.
Arguments debugRaw {number} p.
Arguments onGenerateRecipe {number} nonzero JSON_parse filter res p o.

End Recipe.
(** ** The relational schema (db/migration)

    The tables the properties below are about, with their constraints; the
    columns [created_at] and [updated_at], which no constraint mentions, are
    left out, and so are the triggers that maintain them. *)
Module Schema.

(** SQL [TEXT]. *)
Abbreviation text := jsstring.

(** [CREATE TYPE interaction_entity_type AS ENUM ('INGREDIENT', 'CONDITION')]. *)
Inductive interaction_entity_type := INGREDIENT | CONDITION.

Global Instance interaction_entity_type_eq_dec :
  EqDecision interaction_entity_type.
Proof. solve_decision. Defined.

(** The errors a statement can end with. *)
Inductive sql_error :=
| not_null_violation
| check_violation
| unique_violation
| foreign_key_violation
| numeric_value_out_of_range.

Definition fits_smallint (z : Z) : bool := (-32768 <=? z) && (z <=? 32767).
Definition fits_integer (z : Z) : bool :=
  (-2147483648 <=? z) && (z <=? 2147483647).
Definition fits_bigint (z : Z) : bool :=
  (-9223372036854775808 <=? z) && (z <=? 9223372036854775807).

(** A table whose key is [BIGINT GENERATED ALWAYS AS IDENTITY]: its rows, in
    insertion order, and the next value of the identity sequence. *)
Record table (R : Type) := { rows : list R; next_id : Z }.
Arguments rows {R} t.
Arguments next_id {R} t.

Definition empty_table {R} : table R := {| rows := []; next_id := 1 |}.

(** The rows other than the one with key [target], and the rows with that
    one replaced (an [UPDATE ... WHERE id = target]). *)
Definition others {R} (key : R -> Z) (target : Z) (l : list R) : list R :=
  List.filter (fun r => negb (key r =? target)) l.

Definition replace {R} (key : R -> Z) (target : Z) (r' : R) (l : list R)
  : list R :=
  (fun r => if key r =? target then r' else r) <$> l.

Definition has_key {R} (key : R -> Z) (target : Z) (l : list R) : bool :=
  existsb (fun r => key r =? target) l.

(** *** [source] (the same in both copies of V2__create_tables.sql) *)
Module Source.

Record source := {
  id : Z;
  label : text;
  url : option text;
  publisher : option text;
  year : option Z;
}.

(** The values a statement supplies ([None] is SQL [NULL]). *)
Record source_values := {
  v_label : option text;
  v_url : option text;
  v_publisher : option text;
  v_year : option Z;
}.

(** [CONSTRAINT chk_source_year
     CHECK (year IS NULL OR (year BETWEEN 1000 AND 9999))]. *)
Definition chk_source_year (y : option Z) : bool :=
  match y with
  | None => true
  | Some y => (1000 <=? y) && (y <=? 9999)
  end.

(** [CONSTRAINT uq_source_url UNIQUE (url)]: a null never conflicts. *)
Definition uq_source_url (u : option text) (rest : list source) : bool :=
  match u with
  | None => true
  | Some s => forallb (fun r => negb (bool_decide (url r = Some s))) rest
  end.

(** The row a statement would store under key [k] next to the rows [rest],
    or the error that rejects it. *)
Definition checked (k : Z) (v : source_values) (rest : list source)
  : sql_error + source :=
  match v_label v with
  | None => inl not_null_violation
  | Some l =>
      if negb (from_option fits_integer true (v_year v))
      then inl numeric_value_out_of_range
      else if negb (chk_source_year (v_year v)) then inl check_violation
      else if negb (uq_source_url (v_url v) rest) then inl unique_violation
      else inr {| id := k; label := l; url := v_url v;
                  publisher := v_publisher v; year := v_year v |}
  end.

Inductive statement :=
| INSERT (v : source_values)
| UPDATE (target : Z) (v : source_values)
| DELETE (target : Z).

(** One statement: the table afterwards and the error, if any.  A rejected
    statement leaves the rows as they were; an [INSERT] draws from the
    sequence whether it succeeds or not. *)
Definition exec (s : statement) (t : table source)
  : table source * option sql_error :=
  match s with
  | INSERT v =>
      match checked (next_id t) v (rows t) with
      | inr r => ({| rows := rows t ++ [r]; next_id := next_id t + 1 |}, None)
      | inl e => ({| rows := rows t; next_id := next_id t + 1 |}, Some e)
      end
  | UPDATE target v =>
      if has_key id target (rows t) then
        match checked target v (others id target (rows t)) with
        | inr r => ({| rows := replace id target r (rows t);
                       next_id := next_id t |}, None)
        | inl e => (t, Some e)
        end
      else (t, None)
  | DELETE target =>
      ({| rows := others id target (rows t); next_id := next_id t |}, None)
  end.

Definition run (ss : list statement) (t : table source) : table source :=
  foldl (fun t s => fst (exec s t)) t ss.

(** The property the design document states for citation rows. *)
Definition urls_unique (l : list source) : Prop :=
  forall i j r r' u u',
    i <> j -> l !! i = Some r -> l !! j = Some r' ->
    url r = Some u -> url r' = Some u' -> u <> u'.

End Source.

(** The values a statement supplies for the columns both copies of
    [interaction] share. *)
Record edge_values := {
  v_a_type : option interaction_entity_type;
  v_a_id : option Z;
  v_b_type : option interaction_entity_type;
  v_b_id : option Z;
  v_itype : option text;
  v_rationale : option text;
}.

(** *** [interaction], first copy: [uq_interaction] and
    [chk_interaction_itype], no evidence column *)
Module V2a.

Record interaction := {
  id : Z;
  a_type : interaction_entity_type;
  a_id : Z;
  b_type : interaction_entity_type;
  b_id : Z;
  itype : option text;
  rationale : option text;
}.

(** [CONSTRAINT chk_interaction_itype CHECK (itype IN ('avoid','benefit'))]:
    a check is violated only when it evaluates to false, and on a null
    [itype] it evaluates to null. *)
Definition chk_interaction_itype (t : option text) : bool :=
  match t with
  | None => true
  | Some s => bool_decide (s = js "avoid") || bool_decide (s = js "benefit")
  end.

(** The columns of [uq_interaction]. *)
Definition uq_tuple (r : interaction)
  : interaction_entity_type * Z * interaction_entity_type * Z * option text :=
  (a_type r, a_id r, b_type r, b_id r, itype r).

(** [CONSTRAINT uq_interaction UNIQUE (a_type, a_id, b_type, b_id, itype)]:
    two rows conflict when all five columns are equal and none is null;
    [itype] is the only nullable one. *)
Definition conflicts (r r' : interaction) : bool :=
  match itype r with
  | None => false
  | Some _ => bool_decide (uq_tuple r = uq_tuple r')
  end.

Definition uq_interaction (r : interaction) (rest : list interaction) : bool :=
  forallb (fun r' => negb (conflicts r r')) rest.

Definition checked (k : Z) (v : edge_values) (rest : list interaction)
  : sql_error + interaction :=
  match v_a_type v, v_a_id v, v_b_type v, v_b_id v with
  | Some at_, Some ai, Some bt, Some bi =>
      let r := {| id := k; a_type := at_; a_id := ai; b_type := bt;
                  b_id := bi; itype := v_itype v;
                  rationale := v_rationale v |} in
      if negb (fits_bigint ai && fits_bigint bi)
      then inl numeric_value_out_of_range
      else if negb (chk_interaction_itype (v_itype v))
      then inl check_violation
      else if negb (uq_interaction r rest) then inl unique_violation
      else inr r
  | _, _, _, _ => inl not_null_violation
  end.

Inductive statement :=
| INSERT (v : edge_values)
| UPDATE (target : Z) (v : edge_values)
| DELETE (target : Z).

Definition exec (s : statement) (t : table interaction)
  : table interaction * option sql_error :=
  match s with
  | INSERT v =>
      match checked (next_id t) v (rows t) with
      | inr r => ({| rows := rows t ++ [r]; next_id := next_id t + 1 |}, None)
      | inl e => ({| rows := rows t; next_id := next_id t + 1 |}, Some e)
      end
  | UPDATE target v =>
      if has_key id target (rows t) then
        match checked target v (others id target (rows t)) with
        | inr r => ({| rows := replace id target r (rows t);
                       next_id := next_id t |}, None)
        | inl e => (t, Some e)
        end
      else (t, None)
  | DELETE target =>
      ({| rows := others id target (rows t); next_id := next_id t |}, None)
  end.

Definition run (ss : list statement) (t : table interaction)
  : table interaction :=
  foldl (fun t s => fst (exec s t)) t ss.

(** The invariant as the design document words it: any two rows differ on
    the five columns. *)
Definition tuples_unique (l : list interaction) : Prop :=
  forall i j r r',
    i <> j -> l !! i = Some r -> l !! j = Some r' -> uq_tuple r <> uq_tuple r'.

(** The same for rows that carry a label. *)
Definition labelled_tuples_unique (l : list interaction) : Prop :=
  forall i j r r',
    i <> j -> l !! i = Some r -> l !! j = Some r' ->
    is_Some (itype r) -> uq_tuple r <> uq_tuple r'.

End V2a.

(** *** [evidence_level] and [interaction], second copy: an evidence
    column with its check and foreign key, no uniqueness constraint *)
Module V2b.

Record evidence_level := { score : Z; level_label : text }.

(** The seed of the migration. *)
Definition seed : list evidence_level := [
  {| score := 5; level_label := js "Guideline" |};
  {| score := 4; level_label := js "Strong (Systematic Review / RCT)" |};
  {| score := 3; level_label := js "Moderate (Observational)" |};
  {| score := 2; level_label := js "Limited (Expert Opinion)" |};
  {| score := 1; level_label := js "Minimal / Unspecified" |};
  {| score := 0; level_label := js "No Source" |} ].

Record interaction := {
  id : Z;
  a_type : interaction_entity_type;
  a_id : Z;
  b_type : interaction_entity_type;
  b_id : Z;
  itype : option text;
  rationale : option text;
  evidence : Z;
}.

(** What a statement gives for a column that has a default. *)
Inductive column_value := DEFAULT | NULL | VALUE (z : Z).

Record database := {
  levels : list evidence_level;
  interactions : table interaction;
}.

Definition migrated : database :=
  {| levels := seed; interactions := empty_table |}.

(** [CONSTRAINT chk_interaction_evidence CHECK (evidence BETWEEN 0 AND 5)]. *)
Definition chk_interaction_evidence (e : Z) : bool := (0 <=? e) && (e <=? 5).

(** [REFERENCES evidence_level(score)]. *)
Definition references_level (e : Z) (ls : list evidence_level) : bool :=
  existsb (fun l => score l =? e) ls.

Definition is_referenced (s : Z) (l : list interaction) : bool :=
  existsb (fun r => evidence r =? s) l.

(** [evidence SMALLINT NOT NULL DEFAULT 0]. *)
Definition evidence_of (c : column_value) : sql_error + Z :=
  match c with
  | DEFAULT => inr 0
  | NULL => inl not_null_violation
  | VALUE z => if fits_smallint z then inr z
               else inl numeric_value_out_of_range
  end.

Definition checked (k : Z) (v : edge_values) (ev : column_value)
    (ls : list evidence_level) : sql_error + interaction :=
  match v_a_type v, v_a_id v, v_b_type v, v_b_id v with
  | Some at_, Some ai, Some bt, Some bi =>
      if negb (fits_bigint ai && fits_bigint bi)
      then inl numeric_value_out_of_range
      else
        match evidence_of ev with
        | inl e => inl e
        | inr e =>
            if negb (chk_interaction_evidence e) then inl check_violation
            else if negb (references_level e ls)
            then inl foreign_key_violation
            else inr {| id := k; a_type := at_; a_id := ai; b_type := bt;
                        b_id := bi; itype := v_itype v;
                        rationale := v_rationale v; evidence := e |}
        end
  | _, _, _, _ => inl not_null_violation
  end.

Inductive statement :=
| INSERT (v : edge_values) (ev : column_value)
| UPDATE (target : Z) (v : edge_values) (ev : column_value)
| DELETE (target : Z)
| INSERT_level (s : option Z) (l : option text)
| UPDATE_level (target : Z) (s : option Z) (l : option text)
| DELETE_level (target : Z).

(** A row of [evidence_level] under [score SMALLINT PRIMARY KEY] and
    [label TEXT NOT NULL], next to the rows [rest]. *)
Definition checked_level (s : option Z) (l : option text)
    (rest : list evidence_level) : sql_error + evidence_level :=
  match s, l with
  | Some s, Some l =>
      if negb (fits_smallint s) then inl numeric_value_out_of_range
      else if has_key score s rest then inl unique_violation
      else inr {| score := s; level_label := l |}
  | _, _ => inl not_null_violation
  end.

Definition with_rows (d : database) (l : list interaction) : database :=
  {| levels := levels d;
     interactions := {| rows := l; next_id := next_id (interactions d) |} |}.

Definition with_levels (d : database) (ls : list evidence_level) : database :=
  {| levels := ls; interactions := interactions d |}.

(** The foreign key has no [ON DELETE] or [ON UPDATE] clause: a level that
    an interaction references can be neither deleted nor renumbered. *)
Definition exec (s : statement) (d : database)
  : database * option sql_error :=
  let t := interactions d in
  match s with
  | INSERT v ev =>
      let t' l := {| rows := l; next_id := next_id t + 1 |} in
      match checked (next_id t) v ev (levels d) with
      | inr r => ({| levels := levels d; interactions := t' (rows t ++ [r]) |},
                  None)
      | inl e => ({| levels := levels d; interactions := t' (rows t) |},
                  Some e)
      end
  | UPDATE target v ev =>
      if has_key id target (rows t) then
        match checked target v ev (levels d) with
        | inr r => (with_rows d (replace id target r (rows t)), None)
        | inl e => (d, Some e)
        end
      else (d, None)
  | DELETE target => (with_rows d (others id target (rows t)), None)
  | INSERT_level s l =>
      match checked_level s l (levels d) with
      | inr lv => (with_levels d (levels d ++ [lv]), None)
      | inl e => (d, Some e)
      end
  | UPDATE_level target s l =>
      if has_key score target (levels d) then
        match checked_level s l (others score target (levels d)) with
        | inr lv =>
            if is_referenced target (rows t) && negb (score lv =? target)
            then (d, Some foreign_key_violation)
            else (with_levels d (replace score target lv (levels d)), None)
        | inl e => (d, Some e)
        end
      else (d, None)
  | DELETE_level target =>
      if is_referenced target (rows t) then (d, Some foreign_key_violation)
      else (with_levels d (others score target (levels d)), None)
  end.

Definition run (ss : list statement) (d : database) : database :=
  foldl (fun d s => fst (exec s d)) d ss.

(** The five columns the first copy declares unique, and the invariant of
    the design document read on this copy. *)
Definition edge_tuple (r : interaction)
  : interaction_entity_type * Z * interaction_entity_type * Z * option text :=
  (a_type r, a_id r, b_type r, b_id r, itype r).

Definition tuples_unique (l : list interaction) : Prop :=
  forall i j r r',
    i <> j -> l !! i = Some r -> l !! j = Some r' ->
    edge_tuple r <> edge_tuple r'.

(** The property the design document states for the evidence score. *)
Definition evidence_in_range (d : database) : Prop :=
  forall r, r ∈ rows (interactions d) ->
    0 <= evidence r <= 5 /\
    exists l, l ∈ levels d /\ score l = evidence r.

End V2b.
End Schema.


(** ** The relational schema, continued: the join table of citations, the
    ingredient catalogue, the seed of the evidence levels *)
Module SchemaMore.
Import Schema.

(** *** [interaction_source] (the same in both copies), over the second
    copy's [interaction] and over [source] *)
Module Links.

Record interaction_source := {
  id : Z;
  interaction_id : Z;
  source_id : Z;
}.

Record database := {
  core : V2b.database;
  sources : table Source.source;
  links : table interaction_source;
}.

Definition migrated : database :=
  {| core := V2b.migrated; sources := empty_table; links := empty_table |}.

(** [CONSTRAINT uq_interaction_source UNIQUE (interaction_id, source_id)]. *)
Definition uq_interaction_source (i s : Z) (rest : list interaction_source)
  : bool :=
  forallb (fun l => negb ((interaction_id l =? i) && (source_id l =? s))) rest.

(** The link a statement would store under key [k], or the error that
    rejects it: both columns are [BIGINT NOT NULL] and reference
    [interaction(id)] and [source(id)]. *)
Definition checked (k : Z) (i s : option Z) (d : database)
    (rest : list interaction_source) : sql_error + interaction_source :=
  match i, s with
  | Some i, Some s =>
      if negb (fits_bigint i && fits_bigint s)
      then inl numeric_value_out_of_range
      else if negb (has_key V2b.id i (rows (V2b.interactions (core d)))
                    && has_key Source.id s (rows (sources d)))
      then inl foreign_key_violation
      else if negb (uq_interaction_source i s rest) then inl unique_violation
      else inr {| id := k; interaction_id := i; source_id := s |}
  | _, _ => inl not_null_violation
  end.

Inductive statement :=
| ON_core (s : V2b.statement)
| ON_source (s : Source.statement)
| INSERT (i s : option Z)
| UPDATE (target : Z) (i s : option Z)
| DELETE (target : Z).

(** [ON DELETE CASCADE]: the links of a deleted interaction or source go
    with it. *)
Definition cascade (s : statement) (l : list interaction_source)
  : list interaction_source :=
  match s with
  | ON_core (V2b.DELETE k) => others interaction_id k l
  | ON_source (Source.DELETE k) => others source_id k l
  | _ => l
  end.

Definition exec (s : statement) (d : database)
  : database * option sql_error :=
  let t := links d in
  match s with
  | ON_core s' =>
      let (c, e) := V2b.exec s' (core d) in
      ({| core := c; sources := sources d;
          links := {| rows := cascade s (rows t); next_id := next_id t |} |},
       e)
  | ON_source s' =>
      let (src, e) := Source.exec s' (sources d) in
      ({| core := core d; sources := src;
          links := {| rows := cascade s (rows t); next_id := next_id t |} |},
       e)
  | INSERT i s' =>
      let t' l := {| rows := l; next_id := next_id t + 1 |} in
      match checked (next_id t) i s' d (rows t) with
      | inr r => ({| core := core d; sources := sources d;
                     links := t' (rows t ++ [r]) |}, None)
      | inl e => ({| core := core d; sources := sources d;
                     links := t' (rows t) |}, Some e)
      end
  | UPDATE target i s' =>
      if has_key id target (rows t) then
        match checked target i s' d (others id target (rows t)) with
        | inr r => ({| core := core d; sources := sources d;
                       links := {| rows := replace id target r (rows t);
                                   next_id := next_id t |} |}, None)
        | inl e => (d, Some e)
        end
      else (d, None)
  | DELETE target =>
      ({| core := core d; sources := sources d;
          links := {| rows := others id target (rows t);
                      next_id := next_id t |} |}, None)
  end.

Definition run (ss : list statement) (d : database) : database :=
  foldl (fun d s => fst (exec s d)) d ss.

End Links.

(** *** [ingredient] and [ingredient_alias] (the same in both copies) *)
Module Ingredients.

Record ingredient := {
  id : Z;
  slug : text;
  name : text;
  category : option text;
}.

Record ingredient_alias := {
  alias_id : Z;
  ingredient_id : Z;
  alias : text;
}.

Record database := {
  ingredients : table ingredient;
  aliases : table ingredient_alias;
}.

Definition empty : database :=
  {| ingredients := empty_table; aliases := empty_table |}.

(** [slug TEXT NOT NULL UNIQUE], [name TEXT NOT NULL]. *)
Definition checked (k : Z) (s n c : option text) (rest : list ingredient)
  : sql_error + ingredient :=
  match s, n with
  | Some s, Some n =>
      if existsb (fun r => bool_decide (slug r = s)) rest
      then inl unique_violation
      else inr {| id := k; slug := s; name := n; category := c |}
  | _, _ => inl not_null_violation
  end.

(** [ingredient_id BIGINT NOT NULL REFERENCES ingredient(id)],
    [alias TEXT NOT NULL],
    [CONSTRAINT uq_ingredient_alias UNIQUE (ingredient_id, alias)]. *)
Definition checked_alias (k : Z) (i : option Z) (a : option text)
    (ings : list ingredient) (rest : list ingredient_alias)
  : sql_error + ingredient_alias :=
  match i, a with
  | Some i, Some a =>
      if negb (fits_bigint i) then inl numeric_value_out_of_range
      else if negb (has_key id i ings) then inl foreign_key_violation
      else if existsb (fun r => (ingredient_id r =? i)
                                && bool_decide (alias r = a)) rest
      then inl unique_violation
      else inr {| alias_id := k; ingredient_id := i; alias := a |}
  | _, _ => inl not_null_violation
  end.

Inductive statement :=
| INSERT (s n c : option text)
| UPDATE (target : Z) (s n c : option text)
| DELETE (target : Z)
| INSERT_alias (i : option Z) (a : option text)
| UPDATE_alias (target : Z) (i : option Z) (a : option text)
| DELETE_alias (target : Z).

(** The foreign key of an alias is [ON DELETE CASCADE]. *)
Definition exec (st : statement) (d : database)
  : database * option sql_error :=
  let t := ingredients d in
  let u := aliases d in
  match st with
  | INSERT s n c =>
      let t' l := {| rows := l; next_id := next_id t + 1 |} in
      match checked (next_id t) s n c (rows t) with
      | inr r => ({| ingredients := t' (rows t ++ [r]); aliases := u |}, None)
      | inl e => ({| ingredients := t' (rows t); aliases := u |}, Some e)
      end
  | UPDATE target s n c =>
      if has_key id target (rows t) then
        match checked target s n c (others id target (rows t)) with
        | inr r => ({| ingredients := {| rows := replace id target r (rows t);
                                         next_id := next_id t |};
                       aliases := u |}, None)
        | inl e => (d, Some e)
        end
      else (d, None)
  | DELETE target =>
      ({| ingredients := {| rows := others id target (rows t);
                            next_id := next_id t |};
          aliases := {| rows := others ingredient_id target (rows u);
                        next_id := next_id u |} |}, None)
  | INSERT_alias i a =>
      let u' l := {| rows := l; next_id := next_id u + 1 |} in
      match checked_alias (next_id u) i a (rows t) (rows u) with
      | inr r => ({| ingredients := t; aliases := u' (rows u ++ [r]) |}, None)
      | inl e => ({| ingredients := t; aliases := u' (rows u) |}, Some e)
      end
  | UPDATE_alias target i a =>
      if has_key alias_id target (rows u) then
        match checked_alias target i a (rows t)
                (others alias_id target (rows u)) with
        | inr r => ({| ingredients := t;
                       aliases := {| rows := replace alias_id target r (rows u);
                                     next_id := next_id u |} |}, None)
        | inl e => (d, Some e)
        end
      else (d, None)
  | DELETE_alias target =>
      ({| ingredients := t;
          aliases := {| rows := others alias_id target (rows u);
                        next_id := next_id u |} |}, None)
  end.

Definition run (ss : list statement) (d : database) : database :=
  foldl (fun d s => fst (exec s d)) d ss.

End Ingredients.

(** *** The seed of [evidence_level]:
    [INSERT ... ON CONFLICT (score) DO NOTHING] *)
Module Seed.

(** One row of the [VALUES] list: skipped when its score is taken. *)
Definition insert_or_skip (ls : list V2b.evidence_level)
    (l : V2b.evidence_level) : list V2b.evidence_level :=
  if has_key V2b.score (V2b.score l) ls then ls else ls ++ [l].

(** The statement, on a table holding [ls]. *)
Definition seed_levels (ls : list V2b.evidence_level)
  : list V2b.evidence_level :=
  foldl insert_or_skip ls V2b.seed.

End Seed.

End SchemaMore.

(** ** The resolvers of the backend

    The backend that answers [POST /api/diseases/guide] and
    [GET /api/ingredients/{text}/compatibility] is not among the sources;
    what follows is taken from the design document, section by section. *)
Module Engine.
Import Schema.

(** Modelled from the spec: the Ingredient of the data model (id, slug,
    display name, optional category, aliases); the backend's entity classes
    are missing. *)
Record Ingredient := {
  ing_id : Z;
  ing_slug : text;
  ing_name : text;
  ing_category : option text;
  ing_aliases : list text;
}.

(** Modelled from the spec: the Condition of the data model (id, slug,
    display name, category, kind, optional duration, aliases); the backend's
    entity classes are missing. *)
Record Condition := {
  cond_id : Z;
  cond_slug : text;
  cond_name : text;
  cond_category : option text;
  cond_kind : option text;
  cond_duration : option text;
  cond_aliases : list text;
}.

(** Modelled from the spec: the Entity Catalog's content; the backend's
    repositories are missing. *)
Record Catalog := {
  ingredients : list Ingredient;
  conditions : list Condition;
}.

(** Modelled from the spec: [EntityRef = Ingredient(id) | Condition(id)] of
    the design notes; the backend's type is missing. *)
Inductive EntityRef := IngredientRef (i : Z) | ConditionRef (c : Z).

Global Instance EntityRef_eq_dec : EqDecision EntityRef.
Proof. solve_decision. Defined.

(** Modelled from the spec: the interaction type, a closed enumeration
    [avoid | benefit] stored as text; the backend's type is missing. *)
Inductive IType := avoid | benefit.

(** Modelled from the spec: the text an interaction type is stored as; the
    backend's type is missing. *)
Definition itype_text (t : IType) : text :=
  match t with avoid => js "avoid" | benefit => js "benefit" end.

(** Modelled from the spec: the filter of a request, one of
    [all | avoid | beneficial]; the backend's type is missing. *)
Inductive GuideFilter := all | only_avoid | only_beneficial.

(** Modelled from the spec: the error taxonomy of section 7; the backend's
    error type is missing. *)
Inductive EngineError :=
| EntityNotFound
| StoreUnavailable
| StoreTimeout
| InvalidFilter.

(** Modelled from the spec: [InvalidFilter] is raised for a filter value
    outside the closed enumeration; the backend's request validation is
    missing. *)
Definition parseFilter (s : jsstring) : EngineError + GuideFilter :=
  if decide (s = js "all") then inr all
  else if decide (s = js "avoid") then inr only_avoid
  else if decide (s = js "beneficial") then inr only_beneficial
  else inl InvalidFilter.

(** Modelled from the spec: a row of a guide answer
    ([Item = { food, reason, severity, affectedDiseases }]), with the
    ingredient it stands for; the backend's response type is missing. *)
Record Item := {
  item_ingredient : Z;
  food : text;
  reason : text;
  severity : Z;
  affectedDiseases : list text;
}.

(** Modelled from the spec: the answer [{ diseases, avoid, beneficial }];
    the backend's response type is missing. *)
Record Guide := {
  diseases : list text;
  avoid_bucket : list Item;
  beneficial_bucket : list Item;
}.

(** Modelled from the spec: side a of a stored edge, a typed reference
    (the rows are those of the second copy of the schema, the one with the
    evidence score the resolver ranks by); the backend's Interaction Store
    is missing. *)
Definition side_a (r : V2b.interaction) : EntityRef :=
  match V2b.a_type r with
  | INGREDIENT => IngredientRef (V2b.a_id r)
  | CONDITION => ConditionRef (V2b.a_id r)
  end.

(** Modelled from the spec: side b of a stored edge; the backend's
    Interaction Store is missing. *)
Definition side_b (r : V2b.interaction) : EntityRef :=
  match V2b.b_type r with
  | INGREDIENT => IngredientRef (V2b.b_id r)
  | CONDITION => ConditionRef (V2b.b_id r)
  end.

(** Modelled from the spec: [edgesFor(entityRef)] returns every row where
    the entity appears as either side a or side b; the backend's Interaction
    Store is missing. *)
Definition edgesFor (store : list V2b.interaction) (e : EntityRef)
  : list V2b.interaction :=
  List.filter (fun r => bool_decide (side_a r = e) || bool_decide (side_b r = e))
    store.

(** Modelled from the spec: the other entity of an edge returned for [e];
    the backend's Interaction Store is missing. *)
Definition other (e : EntityRef) (r : V2b.interaction) : EntityRef :=
  if decide (side_a r = e) then side_b r else side_a r.

Section Resolver.
(** [toLowerCase] for the case-insensitive matches, the collation of the
    client for the order of names. *)
Variable toLowerCase : jsstring -> jsstring.
Variable localeCompare : jsstring -> jsstring -> Z.
(** The design document does not say how the rationale and the score of a
    row are drawn from the edges behind it: a parameter. *)
Variable summarise : list V2b.interaction -> text * Z.

(** Modelled from the spec: the case-insensitive match of the Entity
    Catalog; the backend's catalog is missing. *)
Definition same_text (a b : text) : bool :=
  bool_decide (toLowerCase a = toLowerCase b).

(** Modelled from the spec: [resolve(text)] for conditions, an exact
    case-insensitive match on the canonical name, then on any alias, else
    not found; the backend's Entity Catalog is missing. *)
Definition resolve (cat : Catalog) (t : text) : option Condition :=
  match List.find (fun c => same_text (cond_name c) t) (conditions cat) with
  | Some c => Some c
  | None =>
      List.find (fun c => existsb (fun a => same_text a t) (cond_aliases c))
        (conditions cat)
  end.

(** Modelled from the spec: step 1 of the guide resolver, every token
    resolved independently and the unresolved ones dropped; a condition
    reached by two tokens is kept once.  The backend's resolver is
    missing. *)
Fixpoint resolveAll (cat : Catalog) (tokens : list text)
    (seen : list Z) : list Condition :=
  match tokens with
  | [] => []
  | t :: rest =>
      match resolve cat t with
      | Some c =>
          if bool_decide (cond_id c ∈ seen) then resolveAll cat rest seen
          else c :: resolveAll cat rest (cond_id c :: seen)
      | None => resolveAll cat rest seen
      end
  end.

(** Modelled from the spec: step 2, the ingredient-condition edges of a
    resolved condition [c] that reach ingredient [i] with label [t]; the
    backend's resolver is missing. *)
Definition flags (store : list V2b.interaction) (t : IType) (i : Z)
    (c : Condition) : list V2b.interaction :=
  List.filter
    (fun r => bool_decide (other (ConditionRef (cond_id c)) r = IngredientRef i)
              && bool_decide (V2b.itype r = Some (itype_text t)))
    (edgesFor store (ConditionRef (cond_id c))).

(** Modelled from the spec: the resolved conditions that flag [i] with
    label [t], those that contribute to its bucket membership; the backend's
    resolver is missing. *)
Definition flagging (store : list V2b.interaction) (t : IType) (i : Z)
    (cs : list Condition) : list Condition :=
  List.filter (fun c => match flags store t i c with [] => false | _ => true end)
    cs.

(** Modelled from the spec: steps 3 and 5, the row of an ingredient for the
    label [t]: its affected diseases are the names of every resolved
    condition that flags it so.  The backend's resolver is missing. *)
Definition row (store : list V2b.interaction) (t : IType)
    (cs : list Condition) (i : Ingredient) : Item :=
  let by_ := flagging store t (ing_id i) cs in
  let edges := flat_map (flags store t (ing_id i)) by_ in
  {| item_ingredient := ing_id i; food := ing_name i;
     reason := fst (summarise edges); severity := snd (summarise edges);
     affectedDiseases := cond_name <$> by_ |}.

(** Modelled from the spec: step 3, avoid dominates beneficial: an
    ingredient that any resolved condition flags as avoid goes to the avoid
    bucket and is removed from the beneficial one; an ingredient no resolved
    condition has an edge for gets no row.  The backend's resolver is
    missing. *)
Definition aggregate (store : list V2b.interaction) (cs : list Condition)
    (i : Ingredient) : option (IType * Item) :=
  match flagging store avoid (ing_id i) cs with
  | _ :: _ => Some (avoid, row store avoid cs i)
  | [] =>
      match flagging store benefit (ing_id i) cs with
      | _ :: _ => Some (benefit, row store benefit cs i)
      | [] => None
      end
  end.

(** Modelled from the spec: the rows of one bucket; the backend's resolver
    is missing. *)
Definition bucket (t : IType) (l : list (IType * Item)) : list Item :=
  snd <$> List.filter (fun p => match fst p, t with
                                | avoid, avoid | benefit, benefit => true
                                | _, _ => false
                                end) l.

(** Modelled from the spec: step 4, evidence score descending, then
    ingredient name ascending, case-insensitive; the backend's resolver is
    missing. *)
Definition byScore (a b : Item) : Z :=
  let d := severity b - severity a in
  if d =? 0 then localeCompare (food a) (food b) else d.

(** Modelled from the spec: [guide(conditionTexts, filter)], steps 1 to 6;
    the backend's resolver is missing. *)
Definition guide (cat : Catalog) (store : list V2b.interaction)
    (tokens : list text) (f : GuideFilter) : Guide :=
  let cs := resolveAll cat tokens [] in
  let rows := omap (aggregate store cs) (ingredients cat) in
  let avoids := sort byScore (bucket avoid rows) in
  let goods := sort byScore (bucket benefit rows) in
  {| diseases := cond_name <$> cs;
     avoid_bucket := match f with only_beneficial => [] | _ => avoids end;
     beneficial_bucket := match f with only_avoid => [] | _ => goods end |}.

(** Modelled from the spec: the request as it arrives, with the filter
    still a string, rejected with [InvalidFilter] before anything is
    resolved; the backend's controller is missing. *)
Definition handleGuide (cat : Catalog) (store : list V2b.interaction)
    (tokens : list text) (f : jsstring) : EngineError + Guide :=
  match parseFilter f with
  | inl e => inl e
  | inr f => inr (guide cat store tokens f)
  end.

End Resolver.

Section Compatibility.
Variable toLowerCase : jsstring -> jsstring.
Variable localeCompare : jsstring -> jsstring -> Z.

(** Modelled from the spec: a row of a compatibility answer,
    [Item = { food, reason, severity, sources }] of section 6; the backend's
    response type is missing. *)
Record PairItem := {
  pair_food : text;
  pair_reason : text;
  pair_severity : Z;
  pair_sources : list Client.SourceRef;
}.

(** Modelled from the spec: the answer
    [{ ingredient, category, avoid, beneficial }] of section 4.4; the
    backend's response type is missing. *)
Record Compatibility := {
  pair_ingredient : text;
  pair_category : option text;
  pair_avoid : list PairItem;
  pair_beneficial : list PairItem;
}.

(** Modelled from the spec: [resolve(text)] for ingredients, as for
    conditions: the canonical name first, then any alias; the backend's
    Entity Catalog is missing. *)
Definition resolveIngredient (cat : Catalog) (t : text) : option Ingredient :=
  match List.find (fun i => bool_decide (toLowerCase (ing_name i) = toLowerCase t))
          (ingredients cat) with
  | Some i => Some i
  | None =>
      List.find
        (fun i => existsb (fun a => bool_decide (toLowerCase a = toLowerCase t))
                    (ing_aliases i))
        (ingredients cat)
  end.

(** Modelled from the spec: the display name of the other entity of an
    edge, a read-through join on the catalog (section 4.2): an edge whose
    other entity the catalog does not hold has none.  The backend's
    Interaction Store is missing. *)
Definition displayName (cat : Catalog) (e : EntityRef) : option text :=
  match e with
  | IngredientRef i =>
      ing_name <$> List.find (fun x => ing_id x =? i) (ingredients cat)
  | ConditionRef c =>
      cond_name <$> List.find (fun x => cond_id x =? c) (conditions cat)
  end.

(** Modelled from the spec: [sourcesFor(interactionId)], the sources the
    join table links to an interaction; the backend's Source Ledger is
    missing. *)
Definition sourcesFor (ledger : list Source.source)
    (links : list SchemaMore.Links.interaction_source) (k : Z)
  : list Source.source :=
  List.filter
    (fun s => existsb (fun l => (SchemaMore.Links.interaction_id l =? k)
                                && (SchemaMore.Links.source_id l
                                    =? Source.id s)) links)
    ledger.

(** Modelled from the spec: the ranking of section 4.3, a source with a url
    before one without, then the more recent year (no year counting as the
    oldest), then the lower id; the backend's Source Ledger is missing. *)
Definition bySourceRank (a b : Source.source) : Z :=
  let missing (x : Source.source) : Z :=
    match Source.url x with Some _ => 0 | None => 1 end in
  let yearOf (x : Source.source) : Z := default 0 (Source.year x) in
  if negb (missing a =? missing b) then missing a - missing b
  else if negb (yearOf a =? yearOf b) then yearOf b - yearOf a
  else Source.id a - Source.id b.

(** Modelled from the spec: [primarySourceFor(interactionId)], the first
    source in that ranking; the backend's Source Ledger is missing. *)
Definition primarySourceFor (ledger : list Source.source)
    (links : list SchemaMore.Links.interaction_source) (k : Z)
  : option Source.source :=
  head (sort bySourceRank (sourcesFor ledger links k)).

(** Modelled from the spec: step 4 of section 4.4, the primary source of a
    row as [{label, url}], and [{label: "Unverified", url: null}] when the
    interaction has none; the backend's resolver is missing. *)
Definition citation (ledger : list Source.source)
    (links : list SchemaMore.Links.interaction_source) (k : Z)
  : Client.SourceRef :=
  match primarySourceFor ledger links k with
  | Some s => {| Client.label := Source.label s; Client.url := Source.url s |}
  | None => {| Client.label := js "Unverified"; Client.url := None |}
  end.

(** Modelled from the spec: the row of an edge returned for the entity
    [e]: the other entity's display name, the rationale (the empty text
    when the column is null), the evidence score as severity (step 6) and
    the citation; the backend's resolver is missing. *)
Definition pairRow (cat : Catalog) (ledger : list Source.source)
    (links : list SchemaMore.Links.interaction_source) (e : EntityRef)
    (r : V2b.interaction) : option PairItem :=
  (fun n => {| pair_food := n; pair_reason := default [] (V2b.rationale r);
               pair_severity := V2b.evidence r;
               pair_sources := [citation ledger links (V2b.id r)] |})
    <$> displayName cat (other e r).

(** Modelled from the spec: step 3 of section 4.4, evidence score
    descending, then the other entity's display name ascending,
    case-insensitive; the backend's resolver is missing. *)
Definition byPairScore (a b : PairItem) : Z :=
  let d := pair_severity b - pair_severity a in
  if d =? 0 then localeCompare (pair_food a) (pair_food b) else d.

(** Modelled from the spec: [compatibility(ingredientText, filter)], steps
    1 to 6 of section 4.4: an edge whose label is neither avoid nor benefit
    is discarded, and the bucket the filter leaves out is empty.  The
    backend's resolver is missing. *)
Definition compatibility (cat : Catalog) (store : list V2b.interaction)
    (ledger : list Source.source)
    (links : list SchemaMore.Links.interaction_source)
    (t : text) (f : GuideFilter) : EngineError + Compatibility :=
  match resolveIngredient cat t with
  | None => inl EntityNotFound
  | Some i =>
      let e := IngredientRef (ing_id i) in
      let rows (l : IType) :=
        sort byPairScore
          (omap (pairRow cat ledger links e)
             (List.filter
                (fun r => bool_decide (V2b.itype r = Some (itype_text l)))
                (edgesFor store e))) in
      inr {| pair_ingredient := ing_name i; pair_category := ing_category i;
             pair_avoid :=
               match f with only_beneficial => [] | _ => rows avoid end;
             pair_beneficial :=
               match f with only_avoid => [] | _ => rows benefit end |}
  end.

(** Modelled from the spec: the request as it arrives, with the filter
    still a string; the backend's controller is missing. *)
Definition handleCompatibility (cat : Catalog) (store : list V2b.interaction)
    (ledger : list Source.source)
    (links : list SchemaMore.Links.interaction_source)
    (t : text) (f : jsstring) : EngineError + Compatibility :=
  match parseFilter f with
  | inl e => inl e
  | inr f => compatibility cat store ledger links t f
  end.

End Compatibility.

(** *** The answers on the wire (section 6 of the design document) *)

(** Modelled from the spec: the status an error is surfaced with (section
    7): 404 for an entity not found, 400 for an invalid filter, 5xx for the
    store, here 503 and 504; the backend's controller is missing. *)
Definition statusOf (e : EngineError) : N :=
  match e with
  | EntityNotFound => 404
  | InvalidFilter => 400
  | StoreUnavailable => 503
  | StoreTimeout => 504
  end%N.

(** Modelled from the spec: a row of a guide answer as the client reads it,
    [{ food, reason, severity, affectedDiseases }]; the backend's serializer
    is missing. *)
Definition itemJson (x : Item) : Client.Wellness.DiseaseItem :=
  {| Client.Wellness.food := Some (food x);
     Client.Wellness.ingredient := None;
     Client.Wellness.reason := reason x;
     Client.Wellness.severity := Some (severity x);
     Client.Wellness.affectedDiseases := Some (affectedDiseases x);
     Client.Wellness.sources := None |}.

(** Modelled from the spec: [{ diseases, avoid, beneficial }] as the client
    reads it, both keys always there; the backend's serializer is
    missing. *)
Definition guideJson (g : Guide) : Client.Wellness.DiseaseGuide :=
  {| Client.Wellness.diseases := diseases g;
     Client.Wellness.avoid := Some (itemJson <$> avoid_bucket g);
     Client.Wellness.beneficial := Some (itemJson <$> beneficial_bucket g) |}.

(** Modelled from the spec: a row of a compatibility answer as the client
    reads it, [{ food, reason, severity, sources }]; the backend's
    serializer is missing. *)
Definition pairItemJson (x : PairItem) : Client.Pairing.CompatibilityItem :=
  {| Client.Pairing.food := Some (pair_food x);
     Client.Pairing.reason := pair_reason x;
     Client.Pairing.severity := Some (pair_severity x);
     Client.Pairing.sources := Some (pair_sources x) |}.

(** Modelled from the spec: [{ ingredient, category, avoid, beneficial }]
    as the client reads it, a missing category read as the empty text; the
    backend's serializer is missing. *)
Definition compatibilityJson (c : Compatibility)
  : Client.Pairing.CompatibilityResponse :=
  {| Client.Pairing.ingredient := pair_ingredient c;
     Client.Pairing.category := default [] (pair_category c);
     Client.Pairing.avoid := Some (pairItemJson <$> pair_avoid c);
     Client.Pairing.beneficial := Some (pairItemJson <$> pair_beneficial c) |}.

(** Modelled from the spec: the response to a request: 200 with the answer,
    or the status of the error with the envelope [{ message }], which read
    as an answer is [blank]; the backend's controller is missing. *)
Definition respond {A D : Type} (messageOf : EngineError -> jsstring)
    (json : A -> D) (blank : D) (r : EngineError + A)
  : Client.FetchOutcome D :=
  match r with
  | inr a =>
      Client.Resolves
        {| Client.status := 200%N;
           Client.body := Client.Parsed None (Some (json a)) |}
  | inl e =>
      Client.Resolves
        {| Client.status := statusOf e;
           Client.body := Client.Parsed (Some (messageOf e)) (Some blank) |}
  end.

End Engine.
(** * Properties *)

(** ** Tables: rows kept, replaced and removed by key *)
Section TableLemmas.
Context {R : Type} (key : R -> Z).
Implicit Types (l : list R) (r : R).

Lemma elem_of_others target l r :
  r ∈ Schema.others key target l <-> r ∈ l /\ key r <> target.
Proof.
  unfold Schema.others. rewrite list_elem_of_In, filter_In, <- list_elem_of_In.
  rewrite negb_true_iff, Z.eqb_neq. reflexivity.
Qed.

Lemma others_sublist target l : Schema.others key target l `sublist_of` l.
Proof.
  induction l as [|x l IH]; simpl; [constructor|].
  destruct (negb (key x =? target)); by constructor.
Qed.

Lemma has_key_true target l :
  Schema.has_key key target l = true <-> exists r, r ∈ l /\ key r = target.
Proof.
  unfold Schema.has_key. rewrite existsb_exists.
  split; intros (r & Hr & Hk); exists r.
  - apply list_elem_of_In in Hr. by apply Z.eqb_eq in Hk.
  - apply list_elem_of_In in Hr. by apply Z.eqb_eq in Hk.
Qed.

Lemma elem_of_replace target r' l r :
  r ∈ Schema.replace key target r' l ->
  r = r' \/ (r ∈ l /\ key r <> target).
Proof.
  unfold Schema.replace. intros (x & -> & Hx)%list_elem_of_fmap.
  destruct (Z.eqb_spec (key x) target); auto.
Qed.

Lemma fmap_key_replace target r' l :
  key r' = target ->
  key <$> Schema.replace key target r' l = key <$> l.
Proof.
  intros Hk. unfold Schema.replace. rewrite <- list_fmap_compose.
  apply list_fmap_ext. intros _ x _. simpl.
  destruct (Z.eqb_spec (key x) target); congruence.
Qed.

(** Rows at different positions of a table with distinct keys have
    different keys. *)
Lemma keys_differ l i j r r' :
  NoDup (key <$> l) -> i <> j ->
  l !! i = Some r -> l !! j = Some r' -> key r <> key r'.
Proof.
  intros Hnd Hij Hi Hj Heq. apply Hij.
  apply (NoDup_lookup _ i j (key r) Hnd);
    rewrite list_lookup_fmap; [by rewrite Hi | by rewrite Hj, Heq].
Qed.

End TableLemmas.

(** ** Citation rows: [uq_source_url] *)
Module SourceFacts.
Import Schema Schema.Source.

(** What every reachable table satisfies: keys are distinct and below the
    sequence, and two rows with the same non-null url are the same row. *)
Definition wf (t : table source) : Prop :=
  NoDup (id <$> rows t) /\
  (forall r, r ∈ rows t -> id r < next_id t) /\
  (forall r r' u, r ∈ rows t -> r' ∈ rows t ->
     url r = Some u -> url r' = Some u -> id r = id r').

Lemma uq_source_url_spec u rest :
  uq_source_url (Some u) rest = true ->
  forall r, r ∈ rest -> url r <> Some u.
Proof.
  simpl. rewrite forallb_forall. intros H r Hr%list_elem_of_In Hu.
  specialize (H r Hr). rewrite negb_true_iff, bool_decide_eq_false in H.
  contradiction.
Qed.

Lemma source_checked_inr k v rest r :
  checked k v rest = inr r ->
  id r = k /\ url r = v_url v /\ uq_source_url (v_url v) rest = true.
Proof.
  unfold checked. destruct (v_label v); [|discriminate].
  destruct (negb (from_option _ _ _)); [discriminate|].
  destruct (negb (chk_source_year _)); [discriminate|].
  destruct (uq_source_url (v_url v) rest) eqn:Hu; simpl; [|discriminate].
  intros [= <-]. auto.
Qed.

Lemma source_wf_empty : wf empty_table.
Proof.
  split; [constructor|]. split.
  - intros r Hr. by apply elem_of_nil in Hr.
  - intros r r' u Hr. by apply elem_of_nil in Hr.
Qed.

Lemma source_exec_wf s t : wf t -> wf (fst (exec s t)).
Proof.
  intros (Hnd & Hlt & Huq). destruct s as [v | target v | target]; simpl.
  - (* INSERT *)
    destruct (checked (next_id t) v (rows t)) as [e | r] eqn:Hc; simpl.
    { split; [done|]. split; [|done].
      simpl. intros r Hr. specialize (Hlt r Hr). lia. }
    apply source_checked_inr in Hc as (Hid & Hurl & Hu).
    unfold wf; simpl. split; [|split].
    + rewrite fmap_app. simpl. apply NoDup_app. split; [done|].
      split; [|apply NoDup_singleton].
      intros k (x & -> & Hx)%list_elem_of_fmap Heq%list_elem_of_singleton.
      specialize (Hlt x Hx). lia.
    + intros x [Hx | ->%list_elem_of_singleton]%elem_of_app.
      * specialize (Hlt x Hx). lia.
      * lia.
    + intros x x' u [Hx | ->%list_elem_of_singleton]%elem_of_app
        [Hx' | ->%list_elem_of_singleton]%elem_of_app Hxu Hxu'; eauto.
      * rewrite Hurl in Hxu'. rewrite Hxu' in Hu.
        by destruct (uq_source_url_spec _ _ Hu x Hx).
      * rewrite Hurl in Hxu. rewrite Hxu in Hu.
        by destruct (uq_source_url_spec _ _ Hu x' Hx').
  - (* UPDATE *)
    destruct (has_key id target (rows t)) eqn:Hk; [|done].
    destruct (checked target v _) as [e | r] eqn:Hc; [done|]. simpl.
    apply source_checked_inr in Hc as (Hid & Hurl & Hu).
    assert (Hin : forall x, x ∈ replace id target r (rows t) ->
              id x < next_id t /\
              (x = r \/ (x ∈ others id target (rows t)))).
    { intros x [-> | [Hx Hne]]%elem_of_replace.
      - apply has_key_true in Hk as (y & Hy & <-). rewrite Hid.
        split; [auto | by left].
      - split; [auto|]. right. by apply elem_of_others. }
    unfold wf; simpl. split; [|split].
    + by rewrite fmap_key_replace.
    + intros x Hx. by apply Hin.
    + intros x x' u Hx Hx' Hxu Hxu'.
      destruct (Hin x Hx) as [_ [-> | Ho]], (Hin x' Hx') as [_ [-> | Ho']];
        try done.
      * rewrite Hurl in Hxu. rewrite Hxu in Hu.
        by destruct (uq_source_url_spec _ _ Hu x' Ho').
      * rewrite Hurl in Hxu'. rewrite Hxu' in Hu.
        by destruct (uq_source_url_spec _ _ Hu x Ho).
      * apply elem_of_others in Ho as [? _], Ho' as [? _]. eauto.
  - (* DELETE *)
    unfold wf; simpl. split; [|split].
    + eapply sublist_NoDup; [exact Hnd|]. apply fmap_sublist, others_sublist.
    + intros x [Hx _]%elem_of_others. auto.
    + intros x x' u [Hx _]%elem_of_others [Hx' _]%elem_of_others. eauto.
Qed.

Lemma source_run_wf ss t : wf t -> wf (run ss t).
Proof.
  revert t. induction ss as [|s ss IH]; intros t Ht; [done|].
  apply IH, source_exec_wf, Ht.
Qed.

Lemma wf_urls_unique t : wf t -> urls_unique (rows t).
Proof.
  intros (Hnd & _ & Huq) i j r r' u u' Hij Hi Hj Hu Hu' ->.
  apply (keys_differ id _ _ _ _ _ Hnd Hij Hi Hj).
  eapply Huq; eauto using list_elem_of_lookup_2.
Qed.

End SourceFacts.

Module SourceTheorems.
Import Schema Schema.Source SourceFacts.

Definition null_url_values (l : text) (p : option text) (y : option Z)
  : source_values :=
  {| v_label := Some l; v_url := None; v_publisher := p; v_year := y |}.

Lemma insert_null_url t l p y :
  chk_source_year y = true ->
  exec (INSERT (null_url_values l p y)) t =
    ({| rows := rows t ++ [ {| id := next_id t; label := l; url := None;
                               publisher := p; year := y |} ];
        next_id := next_id t + 1 |}, None).
Proof.
  intros Hy. unfold exec, checked, null_url_values. simpl. rewrite Hy.
  destruct y as [y|]; simpl; [|done].
  simpl in Hy. apply andb_true_iff in Hy as [H1%Z.leb_le H2%Z.leb_le].
  unfold fits_integer.
  destruct (Z.leb_spec (-2147483648) y), (Z.leb_spec y 2147483647);
    simpl; [done | lia..].
Qed.

Lemma run_snoc ss s t : run (ss ++ [s]) t = fst (exec s (run ss t)).
Proof. unfold run. by rewrite foldl_snoc. Qed.

Lemma null_urls_any_number (n : nat) :
  exists ss, length (rows (run ss empty_table)) = n /\
             Forall (fun r => url r = None) (rows (run ss empty_table)).
Proof.
  induction n as [|n (ss & Hlen & Hall)].
  - exists []. split; [done | constructor].
  - exists (ss ++ [INSERT (null_url_values [] None None)]).
    rewrite run_snoc, insert_null_url by done. simpl. split.
    + rewrite length_app. simpl. lia.
    + apply Forall_app. split; [done|]. by repeat constructor.
Qed.

(** C9: in any table reached from the empty one by INSERT, UPDATE and DELETE
    statements, two different rows whose urls are both non-null have
    different urls; a row with a null url is accepted next to any rows, so
    a table may hold any number of them. *)
Theorem source_urls_unique_when_present (ss : list statement) :
  let t := run ss empty_table in
  urls_unique (rows t) /\
  (forall l p y, chk_source_year y = true ->
     exec (INSERT (null_url_values l p y)) t =
       ({| rows := rows t ++ [ {| id := next_id t; label := l; url := None;
                                  publisher := p; year := y |} ];
           next_id := next_id t + 1 |}, None)) /\
  (forall n : nat, exists ss',
     length (rows (run ss' empty_table)) = n /\
     Forall (fun r => url r = None) (rows (run ss' empty_table))).
Proof.
  simpl. split; [|split].
  - apply wf_urls_unique, source_run_wf, source_wf_empty.
  - intros l p y Hy. by apply insert_null_url.
  - apply null_urls_any_number.
Qed.

Definition cited (u : string) : source_values :=
  {| v_label := Some (js "NIH"); v_url := Some (js u);
     v_publisher := None; v_year := Some 2021 |}.

(** A second citation of the same link is rejected, a second row without a
    link is not. *)
Example source_same_url_rejected :
  snd (exec (INSERT (cited "https://nih.gov/a"))
         (run [INSERT (cited "https://nih.gov/a")] empty_table))
    = Some unique_violation /\
  length (rows (run [INSERT (null_url_values (js "a") None None);
                     INSERT (null_url_values (js "b") None None);
                     INSERT (cited "https://nih.gov/a");
                     UPDATE 2 (cited "https://nih.gov/a")] empty_table))
    = 3%nat.
Proof. split; reflexivity. Qed.

Lemma source_urls_unique_when_present_witness :
  url <$> rows (run [INSERT (cited "https://nih.gov/a");
                     INSERT (cited "https://who.int/b")] empty_table)
    = [Some (js "https://nih.gov/a"); Some (js "https://who.int/b")] /\
  js "https://nih.gov/a" <> js "https://who.int/b".
Proof.
  split; [reflexivity|].
  apply (proj1 (source_urls_unique_when_present
                  [INSERT (cited "https://nih.gov/a");
                   INSERT (cited "https://who.int/b")])
           0%nat 1%nat _ _ _ _ ltac:(discriminate) eq_refl eq_refl
           eq_refl eq_refl).
Defined.

End SourceTheorems.

(** ** Interaction rows, first copy: [uq_interaction] *)
Module V2aFacts.
Import Schema Schema.V2a.

Definition wf (t : table interaction) : Prop :=
  NoDup (id <$> rows t) /\
  (forall r, r ∈ rows t -> id r < next_id t) /\
  (forall r r', r ∈ rows t -> r' ∈ rows t ->
     is_Some (itype r) -> uq_tuple r = uq_tuple r' -> id r = id r').

Lemma uq_tuple_itype r r' : uq_tuple r = uq_tuple r' -> itype r = itype r'.
Proof. unfold uq_tuple. congruence. Qed.

Lemma uq_interaction_spec r rest :
  uq_interaction r rest = true ->
  forall r', r' ∈ rest -> is_Some (itype r) -> uq_tuple r <> uq_tuple r'.
Proof.
  unfold uq_interaction. rewrite forallb_forall.
  intros H r' Hr'%list_elem_of_In [l Hl] Heq.
  specialize (H r' Hr'). unfold conflicts in H. rewrite Hl in H.
  by rewrite bool_decide_eq_true_2 in H.
Qed.

Lemma interaction_checked_inr k v rest r :
  checked k v rest = inr r ->
  id r = k /\ uq_interaction r rest = true /\
  chk_interaction_itype (itype r) = true.
Proof.
  unfold checked.
  destruct (v_a_type v), (v_a_id v), (v_b_type v), (v_b_id v);
    try discriminate.
  destruct (negb (fits_bigint _ && _)); [discriminate|].
  destruct (chk_interaction_itype _) eqn:Hchk; [|discriminate]. simpl.
  match goal with |- context [uq_interaction ?x rest] =>
    destruct (uq_interaction x rest) eqn:Hu end; [|discriminate].
  simpl. intros [= <-]. auto.
Qed.

(** A new row [r], accepted next to [rest], keeps the labelled tuples of
    [r :: rest] apart. *)
Lemma accepted_apart r rest x x' :
  uq_interaction r rest = true ->
  (forall y y', y ∈ rest -> y' ∈ rest ->
     is_Some (itype y) -> uq_tuple y = uq_tuple y' -> id y = id y') ->
  x = r \/ x ∈ rest -> x' = r \/ x' ∈ rest ->
  is_Some (itype x) -> uq_tuple x = uq_tuple x' -> id x = id x'.
Proof.
  intros Hu Hrest [-> | Hx] [-> | Hx'] Hl Heq; eauto.
  - by destruct (uq_interaction_spec _ _ Hu x' Hx' Hl).
  - destruct (uq_interaction_spec _ _ Hu x Hx); [|done].
    by rewrite <- (uq_tuple_itype _ _ Heq).
Qed.

Lemma interaction_wf_empty : wf empty_table.
Proof.
  split; [constructor|]. split.
  - intros r Hr. by apply elem_of_nil in Hr.
  - intros r r' Hr. by apply elem_of_nil in Hr.
Qed.

Lemma interaction_exec_wf s t : wf t -> wf (fst (exec s t)).
Proof.
  intros (Hnd & Hlt & Huq). destruct s as [v | target v | target]; simpl.
  - destruct (checked (next_id t) v (rows t)) as [e | r] eqn:Hc; simpl.
    { split; [done|]. split; [|done].
      simpl. intros r Hr. specialize (Hlt r Hr). lia. }
    apply interaction_checked_inr in Hc as (Hid & Hu & _).
    unfold wf; simpl. split; [|split].
    + rewrite fmap_app. simpl. apply NoDup_app. split; [done|].
      split; [|apply NoDup_singleton].
      intros k (x & -> & Hx)%list_elem_of_fmap Heq%list_elem_of_singleton.
      specialize (Hlt x Hx). lia.
    + intros x [Hx | ->%list_elem_of_singleton]%elem_of_app.
      * specialize (Hlt x Hx). lia.
      * lia.
    + intros x x' [Hx | ->%list_elem_of_singleton]%elem_of_app
        [Hx' | ->%list_elem_of_singleton]%elem_of_app;
        apply (accepted_apart r (rows t)); auto.
  - destruct (has_key id target (rows t)) eqn:Hk; [|done].
    destruct (checked target v _) as [e | r] eqn:Hc; [done|]. simpl.
    apply interaction_checked_inr in Hc as (Hid & Hu & _).
    assert (Hin : forall x, x ∈ replace id target r (rows t) ->
              id x < next_id t /\
              (x = r \/ (x ∈ others id target (rows t)))).
    { intros x [-> | [Hx Hne]]%elem_of_replace.
      - apply has_key_true in Hk as (y & Hy & <-). rewrite Hid.
        split; [auto | by left].
      - split; [auto|]. right. by apply elem_of_others. }
    unfold wf; simpl. split; [|split].
    + by rewrite fmap_key_replace.
    + intros x Hx. by apply Hin.
    + intros x x' Hx Hx'.
      apply (accepted_apart r (others id target (rows t))); auto.
      * intros y y' [Hy _]%elem_of_others [Hy' _]%elem_of_others. eauto.
      * by apply Hin.
      * by apply Hin.
  - unfold wf; simpl. split; [|split].
    + eapply sublist_NoDup; [exact Hnd|]. apply fmap_sublist, others_sublist.
    + intros x [Hx _]%elem_of_others. auto.
    + intros x x' [Hx _]%elem_of_others [Hx' _]%elem_of_others. eauto.
Qed.

Lemma interaction_run_wf ss t : wf t -> wf (run ss t).
Proof.
  revert t. induction ss as [|s ss IH]; intros t Ht; [done|].
  apply IH, interaction_exec_wf, Ht.
Qed.

End V2aFacts.

Module V2aTheorems.
Import Schema Schema.V2a V2aFacts.

Definition edge (label : option text) : edge_values :=
  {| v_a_type := Some INGREDIENT; v_a_id := Some 1;
     v_b_type := Some CONDITION; v_b_id := Some 2;
     v_itype := label; v_rationale := None |}.

(** The same unlabelled edge is stored twice under the first copy: [itype]
    is nullable, a null passes [chk_interaction_itype] and never conflicts
    under [uq_interaction]. *)
Lemma unlabelled_edge_stored_twice :
  ~ tuples_unique (rows (run [INSERT (edge None); INSERT (edge None)]
                           empty_table)).
Proof.
  intros H. by apply (H 0%nat 1%nat _ _ ltac:(done) eq_refl eq_refl).
Qed.

(** C6, amended: under the copy of the schema that declares
    [uq_interaction], in any table reached from the empty one by INSERT,
    UPDATE and DELETE statements, two different rows of which one carries a
    label (a non-null [itype]) differ on
    (a_type, a_id, b_type, b_id, itype): the same ordered pair never carries
    the same label twice. *)
Theorem interaction_labelled_tuple_unique (ss : list statement) :
  labelled_tuples_unique (rows (run ss empty_table)).
Proof.
  destruct (interaction_run_wf ss empty_table interaction_wf_empty) as (Hnd & _ & Huq).
  intros i j r r' Hij Hi Hj Hl Heq.
  apply (keys_differ id _ _ _ _ _ Hnd Hij Hi Hj).
  eapply Huq; eauto using list_elem_of_lookup_2.
Qed.

(** The second labelled copy of an edge is rejected; a label outside the
    enumeration is rejected too. *)
Example interaction_same_label_rejected :
  snd (exec (INSERT (edge (Some (js "avoid"))))
         (run [INSERT (edge (Some (js "avoid")))] empty_table))
    = Some unique_violation /\
  snd (exec (INSERT (edge (Some (js "benefit"))))
         (run [INSERT (edge (Some (js "avoid")))] empty_table)) = None /\
  snd (exec (INSERT (edge (Some (js "neutral")))) empty_table)
    = Some check_violation.
Proof. repeat split; reflexivity. Qed.

Lemma interaction_labelled_tuple_unique_witness :
  uq_tuple <$> rows (run [INSERT (edge (Some (js "avoid")));
                          INSERT (edge (Some (js "benefit")))] empty_table)
    = [ (INGREDIENT, 1, CONDITION, 2, Some (js "avoid"));
        (INGREDIENT, 1, CONDITION, 2, Some (js "benefit")) ] /\
  (INGREDIENT, 1, CONDITION, 2, Some (js "avoid"))
    <> (INGREDIENT, 1, CONDITION, 2, Some (js "benefit")).
Proof.
  split; [reflexivity|].
  apply (interaction_labelled_tuple_unique
           [INSERT (edge (Some (js "avoid")));
            INSERT (edge (Some (js "benefit")))]
           0%nat 1%nat _ _ ltac:(discriminate) eq_refl eq_refl).
  by eexists.
Defined.

End V2aTheorems.

(** ** Interaction rows, second copy: the evidence column *)
Module V2bFacts.
Import Schema Schema.V2b.

Lemma references_level_spec e ls :
  references_level e ls = true <-> exists l, l ∈ ls /\ score l = e.
Proof. apply has_key_true. Qed.

Lemma not_referenced s l :
  is_referenced s l = false -> forall r, r ∈ l -> evidence r <> s.
Proof.
  intros H r Hr Heq.
  assert (is_referenced s l = true); [|congruence].
  apply (has_key_true evidence). eauto.
Qed.

Lemma evidence_checked_inr k v ev ls r :
  checked k v ev ls = inr r ->
  0 <= evidence r <= 5 /\ exists l, l ∈ ls /\ score l = evidence r.
Proof.
  unfold checked.
  destruct (v_a_type v), (v_a_id v), (v_b_type v), (v_b_id v);
    try discriminate.
  destruct (negb (fits_bigint _ && _)); [discriminate|].
  destruct (evidence_of ev) as [err | e]; [discriminate|].
  destruct (chk_interaction_evidence e) eqn:Hchk; [|discriminate].
  destruct (references_level e ls) eqn:Href; [|discriminate].
  simpl. intros [= <-]. simpl. split.
  - apply andb_true_iff in Hchk as [?%Z.leb_le ?%Z.leb_le]. lia.
  - by apply references_level_spec.
Qed.

(** A value outside 0..5 never passes. *)
Lemma checked_out_of_range k v z ls :
  ~ (0 <= z <= 5) -> exists e, checked k v (VALUE z) ls = inl e.
Proof.
  intros Hz. unfold checked.
  destruct (v_a_type v), (v_a_id v), (v_b_type v), (v_b_id v); eauto.
  destruct (negb (fits_bigint _ && _)); eauto.
  simpl. destruct (fits_smallint z); eauto.
  replace (chk_interaction_evidence z) with false; simpl; eauto.
  unfold chk_interaction_evidence.
  destruct (Z.leb_spec 0 z), (Z.leb_spec z 5); simpl; auto; lia.
Qed.

Lemma exec_in_range s d :
  evidence_in_range d -> evidence_in_range (fst (exec s d)).
Proof.
  intros Hd.
  destruct s as [v ev | target v ev | target | s l | target s l | target];
    simpl.
  - destruct (checked _ v ev (levels d)) as [e | r] eqn:Hc; simpl; [done|].
    intros x [Hx | ->%list_elem_of_singleton]%elem_of_app; [by apply Hd|].
    by apply evidence_checked_inr in Hc.
  - destruct (has_key id target _); [|done].
    destruct (checked target v ev (levels d)) as [e | r] eqn:Hc; [done|].
    simpl. intros x [-> | [Hx _]]%elem_of_replace; [|by apply Hd].
    by apply evidence_checked_inr in Hc.
  - intros x [Hx _]%elem_of_others. by apply Hd.
  - destruct (checked_level s l (levels d)); simpl; [done|].
    intros x Hx. destruct (Hd x Hx) as (Hr & lv & Hlv & Hs).
    split; [done|]. exists lv. split; [|done]. apply elem_of_app. by left.
  - destruct (has_key score target (levels d)) eqn:Hk; [|done].
    destruct (checked_level s l _) as [e | lv]; [done|].
    destruct (is_referenced target _) eqn:Href; simpl.
    + destruct (Z.eqb_spec (score lv) target) as [Hsame | Hne]; simpl;
        [|done].
      intros x Hx. destruct (Hd x Hx) as (Hr & lv' & Hlv' & Hs).
      split; [done|].
      exists (if score lv' =? target then lv else lv'). split.
      * unfold replace. apply list_elem_of_fmap. eauto.
      * destruct (Z.eqb_spec (score lv') target); congruence.
    + intros x Hx. destruct (Hd x Hx) as (Hr & lv' & Hlv' & Hs).
      split; [done|]. exists lv'. split; [|done].
      unfold replace. apply list_elem_of_fmap. exists lv'. split; [|done].
      pose proof (not_referenced _ _ Href x Hx).
      destruct (Z.eqb_spec (score lv') target); congruence.
  - destruct (is_referenced target _) eqn:Href; [done|]. simpl.
    intros x Hx. destruct (Hd x Hx) as (Hr & lv' & Hlv' & Hs).
    split; [done|]. exists lv'. split; [|done].
    apply elem_of_others. split; [done|].
    pose proof (not_referenced _ _ Href x Hx). congruence.
Qed.

Lemma run_in_range ss d : evidence_in_range d -> evidence_in_range (run ss d).
Proof.
  revert d. induction ss as [|s ss IH]; intros d Hd; [done|].
  apply IH, exec_in_range, Hd.
Qed.

Lemma migrated_in_range : evidence_in_range migrated.
Proof. intros r Hr. by apply elem_of_nil in Hr. Qed.

End V2bFacts.

Module V2bTheorems.
Import Schema Schema.V2b V2bFacts.

(** C8: in any database reached from the migrated one by statements on
    [interaction] and [evidence_level], every interaction row's evidence is
    an integer between 0 and 5 and is the score of a row of
    [evidence_level]; an INSERT or UPDATE that supplies a value outside
    0..5 leaves the rows as they were. *)
Theorem interaction_evidence_in_range (ss : list statement) :
  let d := run ss migrated in
  evidence_in_range d /\
  (forall v z, ~ (0 <= z <= 5) ->
     rows (interactions (fst (exec (INSERT v (VALUE z)) d)))
       = rows (interactions d)) /\
  (forall k v z, ~ (0 <= z <= 5) ->
     rows (interactions (fst (exec (UPDATE k v (VALUE z)) d)))
       = rows (interactions d)).
Proof.
  simpl. split; [|split].
  - apply run_in_range, migrated_in_range.
  - intros v z Hz. simpl.
    by destruct (checked_out_of_range (next_id (interactions (run ss migrated)))
              v z (levels (run ss migrated)) Hz) as [e ->].
  - intros k v z Hz. simpl. destruct (has_key id k _); [|done].
    by destruct (checked_out_of_range k v z (levels (run ss migrated)) Hz)
      as [e ->].
Qed.

Definition graded (label : option text) : edge_values :=
  {| v_a_type := Some INGREDIENT; v_a_id := Some 1;
     v_b_type := Some CONDITION; v_b_id := Some 2;
     v_itype := label; v_rationale := None |}.

(** The evidence check and the foreign key at work. *)
Example interaction_evidence_rejected :
  snd (exec (INSERT (graded None) (VALUE 6)) migrated)
    = Some check_violation /\
  snd (exec (INSERT (graded None) (VALUE (-1))) migrated)
    = Some check_violation /\
  snd (exec (INSERT (graded None) (VALUE 3)) (run [DELETE_level 3] migrated))
    = Some foreign_key_violation /\
  snd (exec (DELETE_level 3) (run [INSERT (graded None) (VALUE 3)] migrated))
    = Some foreign_key_violation /\
  evidence <$> rows (interactions
     (run [INSERT (graded None) DEFAULT; INSERT (graded None) (VALUE 5)]
          migrated)) = [0; 5].
Proof. repeat split; reflexivity. Qed.

(** C6, as stated, fails on both copies of the schema.  Under the first,
    [itype] is nullable, a null passes [chk_interaction_itype] and never
    conflicts under [uq_interaction], so the same unlabelled edge is stored
    twice.  The second declares no [uq_interaction], so even the same
    labelled edge is stored twice. *)
Lemma interaction_tuple_not_unique :
  ~ V2a.tuples_unique
      (rows (V2a.run [V2a.INSERT (graded None); V2a.INSERT (graded None)]
               empty_table)) /\
  ~ tuples_unique
      (rows (interactions
         (run [INSERT (graded (Some (js "avoid"))) DEFAULT;
               INSERT (graded (Some (js "avoid"))) DEFAULT] migrated))).
Proof.
  split; intros H;
    by apply (H 0%nat 1%nat _ _ ltac:(done) eq_refl eq_refl).
Qed.

Lemma interaction_evidence_in_range_witness :
  evidence <$> rows (interactions
     (run [INSERT (graded None) (VALUE 4); INSERT (graded None) (VALUE 9);
           UPDATE 1 (graded None) (VALUE (-3))] migrated)) = [4] /\
  (0 <= 4 <= 5 /\
   exists l, l ∈ levels (run [INSERT (graded None) (VALUE 4);
                              INSERT (graded None) (VALUE 9);
                              UPDATE 1 (graded None) (VALUE (-3))] migrated)
             /\ score l = 4).
Proof.
  split; [reflexivity|].
  apply (proj1 (interaction_evidence_in_range
                  [INSERT (graded None) (VALUE 4);
                   INSERT (graded None) (VALUE 9);
                   UPDATE 1 (graded None) (VALUE (-3))])
           {| id := 1; a_type := INGREDIENT; a_id := 1; b_type := CONDITION;
              b_id := 2; itype := None; rationale := None; evidence := 4 |}).
  vm_compute. constructor.
Defined.

End V2bTheorems.

(** ** The filter sent to the backend *)
Module FilterTheorems.
Import Client.

(** C10: whatever the state of the filter chips ('all', 'avoid', 'benefit'
    or unset), the value sent to the backend is one of 'all', 'avoid',
    'beneficial': 'benefit' becomes 'beneficial', an unset filter becomes
    'all', the others pass unchanged; the memoised variant agrees, both
    screens send that value, and the request validation of the design
    document never answers [InvalidFilter] to it. *)
Theorem apiFilter_in_enumeration (f : option Filter) :
  apiFilter f ∈ ApiFilter_values /\
  apiFilter (Some FBenefit) = js "beneficial" /\
  apiFilter None = js "all" /\
  (forall f', f' <> FBenefit -> apiFilter (Some f') = filterValue f') /\
  apiFilter_memo f = apiFilter f /\
  (forall q l r e, Pairing.requestFilter
                     {| query := q; filter := f; loading := l; result := r;
                        errorMsg := e |}
                   ∈ [None; Some (apiFilter f)]) /\
  (forall lower q l r e ds s,
     Wellness.requestBody lower
       {| query := q; filter := f; loading := l; result := r;
          errorMsg := e |} = Some (ds, s) -> s = apiFilter f) /\
  exists g, Engine.parseFilter (apiFilter f) = inr g.
Proof.
  split; [|split; [|split; [|split; [|split; [|split; [|split]]]]]].
  - destruct f as [[]|]; unfold ApiFilter_values; simpl;
      rewrite !elem_of_cons; auto.
  - reflexivity.
  - reflexivity.
  - intros []; [reflexivity..|congruence].
  - by destruct f as [[]|].
  - intros q l r e. unfold Pairing.requestFilter. simpl.
    destruct (truthy (trim q) && isWellFormed (trim q));
      rewrite !elem_of_cons; auto.
  - intros lower q l r e ds s. unfold Wellness.requestBody. simpl.
    destruct (truthy (trim q)); [|discriminate].
    destruct (Wellness.parseDiseases lower (trim q)); [discriminate|].
    by intros [= _ <-].
  - destruct f as [[]|]; simpl; eauto.
Qed.

End FilterTheorems.

(** ** [Array.prototype.sort] *)
Section SortFacts.
Context {A : Type} (cmp : A -> A -> Z).
Implicit Types (l : list A) (x y : A).

Lemma insert_sorted_Permutation x l : insert_sorted cmp x l ≡ₚ x :: l.
Proof.
  induction l as [|y l IH]; simpl; [done|].
  destruct (cmp x y <=? 0); [done|]. rewrite IH. apply Permutation_swap.
Qed.

Lemma sort_Permutation l : sort cmp l ≡ₚ l.
Proof.
  induction l as [|x l IH]; simpl; [done|].
  by rewrite insert_sorted_Permutation, IH.
Qed.

Lemma sort_Forall (P : A -> Prop) l : Forall P l -> Forall P (sort cmp l).
Proof. intros H. by rewrite sort_Permutation. Qed.

(** The comparator is consistent: it never says both "a after b" and
    "b after a", and "not after" is transitive. *)
Hypothesis cmp_flip : forall a b, 0 < cmp a b -> cmp b a <= 0.
Hypothesis cmp_trans :
  forall a b c, cmp a b <= 0 -> cmp b c <= 0 -> cmp a c <= 0.

Definition not_after (a b : A) : Prop := cmp a b <= 0.

Lemma insert_sorted_StronglySorted x l :
  StronglySorted not_after l -> StronglySorted not_after (insert_sorted cmp x l).
Proof.
  induction 1 as [|y l Hl IH Hy]; simpl; [by repeat constructor|].
  destruct (Z.leb_spec (cmp x y) 0) as [Hxy | Hxy].
  - constructor; [by constructor|]. constructor; [done|].
    eapply Forall_impl; [exact Hy|]. intros z Hz. by apply (cmp_trans x y z).
  - constructor; [done|]. rewrite insert_sorted_Permutation.
    constructor; [|done]. by apply cmp_flip.
Qed.

Lemma sort_StronglySorted l : StronglySorted not_after (sort cmp l).
Proof.
  induction l as [|x l IH]; simpl; [constructor|].
  by apply insert_sorted_StronglySorted.
Qed.

(** Stability: the elements tied with [x] come out in the order they came
    in. *)
Definition tied (x y : A) : bool := (cmp x y <=? 0) && (cmp y x <=? 0).

Lemma tied_insert_sorted x a l :
  List.filter (tied x) (insert_sorted cmp a l) =
  List.filter (tied x) (a :: l).
Proof.
  induction l as [|y l IH]; [done|].
  cbn [insert_sorted]. destruct (Z.leb_spec (cmp a y) 0) as [Hay | Hay]; [done|].
  cbn [List.filter] in *. rewrite IH.
  destruct (tied x a) eqn:Ha, (tied x y) eqn:Hy; try done.
  apply andb_true_iff in Ha as [_ Hax%Z.leb_le].
  apply andb_true_iff in Hy as [Hxy%Z.leb_le _].
  pose proof (cmp_trans a x y Hax Hxy). lia.
Qed.

Lemma sort_stable x l :
  List.filter (tied x) (sort cmp l) = List.filter (tied x) l.
Proof.
  induction l as [|a l IH]; [done|].
  cbn [sort]. rewrite tied_insert_sorted. cbn [List.filter]. by rewrite IH.
Qed.

End SortFacts.

(** ** The rows of a result, by filter *)
Module RowTheorems.
Import Client.

Lemma apiFilter_avoid f : apiFilter f = js "avoid" -> f = Some FAvoid.
Proof. by destruct f as [[]|]. Qed.

Lemma apiFilter_beneficial f :
  apiFilter f = js "beneficial" -> f = Some FBenefit.
Proof. by destruct f as [[]|]. Qed.

Lemma apiFilter_all f : apiFilter f = js "all" -> f = Some FAll \/ f = None.
Proof. destruct f as [[]|]; auto; discriminate. Qed.

(** What the claim on filters says of the rows [rows] shown for the filter
    [f], given the items [goods] of the beneficial bucket and [bads] of the
    avoid bucket. *)
Definition shows_buckets {R I : Type} (kind : R -> Kind) (item : R -> I)
    (goods bads : list I) (f : option Filter) (rows : list R) : Prop :=
  (apiFilter f = js "avoid" ->
     Forall (fun r => kind r = bad) rows /\ item <$> rows ≡ₚ bads) /\
  (apiFilter f = js "beneficial" ->
     Forall (fun r => kind r = good) rows /\ item <$> rows ≡ₚ goods) /\
  (apiFilter f = js "all" ->
     exists gs bs, rows = gs ++ bs /\
       Forall (fun r => kind r = good) gs /\ item <$> gs ≡ₚ goods /\
       Forall (fun r => kind r = bad) bs /\ item <$> bs ≡ₚ bads).

Section Shape.
Context {R I : Type} (kind : R -> Kind) (item : R -> I).
Context (mk : Kind -> I -> R) (cmp : R -> R -> Z).
Hypothesis kind_mk : forall k x, kind (mk k x) = k.
Hypothesis item_mk : forall k x, item (mk k x) = x.

(** The shape the three copies of [rowsFromResult] share. *)
Definition rows_of (goods bads : list I) (f : option Filter) : list R :=
  match f with
  | Some FBenefit => sort cmp (mk good <$> goods)
  | Some FAvoid => sort cmp (mk bad <$> bads)
  | _ => sort cmp (mk good <$> goods) ++ sort cmp (mk bad <$> bads)
  end.

Lemma bucket_kind k l : Forall (fun r => kind r = k) (sort cmp (mk k <$> l)).
Proof.
  apply sort_Forall, Forall_fmap, Forall_forall. intros x _. apply kind_mk.
Qed.

Lemma bucket_items k l : item <$> sort cmp (mk k <$> l) ≡ₚ l.
Proof.
  rewrite sort_Permutation, <- list_fmap_compose.
  rewrite <- (list_fmap_id l) at 2.
  assert (item ∘ mk k <$> l = id <$> l) as ->; [|done].
  apply list_fmap_ext. intros _ x _. apply item_mk.
Qed.

Lemma rows_of_shows_buckets goods bads f :
  shows_buckets kind item goods bads f (rows_of goods bads f).
Proof.
  split; [|split].
  - intros ->%apiFilter_avoid. split; [apply bucket_kind | apply bucket_items].
  - intros ->%apiFilter_beneficial.
    split; [apply bucket_kind | apply bucket_items].
  - intros Hf. exists (sort cmp (mk good <$> goods)), (sort cmp (mk bad <$> bads)).
    split; [by destruct (apiFilter_all f Hf) as [-> | ->]|].
    auto using bucket_kind, bucket_items.
Qed.

End Shape.

Lemma pairing_rows lc res f :
  Pairing.rowsFromResult lc res f =
  rows_of (fun k x => {| Pairing.item := x; Pairing._kind := k |})
    (fun a b => Pairing.bySeverity lc (Pairing.item a) (Pairing.item b))
    (default [] (Pairing.beneficial res)) (default [] (Pairing.avoid res)) f.
Proof. reflexivity. Qed.

Lemma wellness_rows lc res f :
  Wellness.rowsFromResult lc res f =
  rows_of (fun k x => Wellness.toRow k x)
    (fun a b => Wellness.bySeverity lc (Wellness.item a) (Wellness.item b))
    (default [] (Wellness.beneficial res)) (default [] (Wellness.avoid res)) f.
Proof. reflexivity. Qed.

Lemma wellness_rows_byName lc res f :
  Wellness.rowsFromResult_byName lc res f =
  rows_of (fun k x => Wellness.toRow k x)
    (fun a b => Wellness.byName lc (Wellness.item a) (Wellness.item b))
    (default [] (Wellness.beneficial res)) (default [] (Wellness.avoid res)) f.
Proof. reflexivity. Qed.

(** C4: in the pairing screen and in both copies of the wellness screen,
    when the filter sent is 'avoid' the rows shown are the avoid bucket's
    rows and only those, when it is 'beneficial' they are the beneficial
    bucket's rows and only those, and when it is 'all' they are the
    beneficial bucket's rows followed by the avoid bucket's rows. *)
Theorem rowsFromResult_by_filter (lc : jsstring -> jsstring -> Z)
    (f : option Filter) :
  (forall res,
     shows_buckets Pairing._kind Pairing.item
       (default [] (Pairing.beneficial res)) (default [] (Pairing.avoid res))
       f (Pairing.rowsFromResult lc res f)) /\
  (forall res,
     shows_buckets Wellness._kind Wellness.item
       (default [] (Wellness.beneficial res))
       (default [] (Wellness.avoid res))
       f (Wellness.rowsFromResult lc res f)) /\
  (forall res,
     shows_buckets Wellness._kind Wellness.item
       (default [] (Wellness.beneficial res))
       (default [] (Wellness.avoid res))
       f (Wellness.rowsFromResult_byName lc res f)).
Proof.
  split; [|split]; intros res.
  - rewrite pairing_rows. by apply rows_of_shows_buckets.
  - rewrite wellness_rows. by apply rows_of_shows_buckets.
  - rewrite wellness_rows_byName. by apply rows_of_shows_buckets.
Qed.

(** A response of the pairing endpoint to run the screen on. *)
Definition paired (n : string) (s : option Z) : Pairing.CompatibilityItem :=
  {| Pairing.food := Some (js n); Pairing.reason := [];
     Pairing.severity := s; Pairing.sources := None |}.

Definition three_items : Pairing.CompatibilityResponse :=
  {| Pairing.ingredient := js "spinach"; Pairing.category := js "vegetable";
     Pairing.avoid := Some [paired "tea" (Some 2); paired "Coffee" (Some 4);
                            paired "almond" (Some 2)];
     Pairing.beneficial := Some [paired "lemon" (Some 3)] |}.

Lemma rowsFromResult_by_filter_witness :
  apiFilter (Some FAvoid) = js "avoid" /\
  Forall (fun r => Pairing._kind r = bad)
    (Pairing.rowsFromResult asciiCompare three_items (Some FAvoid)) /\
  Pairing.item <$> Pairing.rowsFromResult asciiCompare three_items (Some FAvoid)
    ≡ₚ [paired "tea" (Some 2); paired "Coffee" (Some 4);
        paired "almond" (Some 2)].
Proof.
  split; [reflexivity|].
  apply (proj1 (proj1 (rowsFromResult_by_filter asciiCompare (Some FAvoid))
                  three_items) eq_refl).
Defined.

(** What the round trip says of a function from filters to rows. *)
Definition round_trip {R : Type} (rows : option Filter -> list R) : Prop :=
  forall f, apiFilter f = js "all" ->
    rows f = rows (Some FBenefit) ++ rows (Some FAvoid) /\
    rows f ≡ₚ rows (Some FAvoid) ++ rows (Some FBenefit) /\
    forall r, r ∈ rows f <-> r ∈ rows (Some FAvoid) \/ r ∈ rows (Some FBenefit).

Lemma rows_of_round_trip {R I} (mk : Kind -> I -> R) cmp goods bads :
  round_trip (rows_of mk cmp goods bads).
Proof.
  intros f Hf.
  assert (rows_of mk cmp goods bads f =
          rows_of mk cmp goods bads (Some FBenefit)
            ++ rows_of mk cmp goods bads (Some FAvoid)) as ->.
  { by destruct (apiFilter_all f Hf) as [-> | ->]. }
  split; [done|]. split; [apply Permutation_app_comm|].
  intros r. rewrite elem_of_app. tauto.
Qed.

(** One response listed under each filter: the rows for 'all' are the rows
    for 'benefit' followed by the rows for 'avoid'. *)
Lemma one_response_round_trip (lc : jsstring -> jsstring -> Z) :
  (forall res, round_trip (Pairing.rowsFromResult lc res)) /\
  (forall res, round_trip (Wellness.rowsFromResult lc res)) /\
  (forall res, round_trip (Wellness.rowsFromResult_byName lc res)).
Proof.
  split; [|split]; intros res f Hf.
  - rewrite !pairing_rows. by apply rows_of_round_trip.
  - rewrite !wellness_rows. by apply rows_of_round_trip.
  - rewrite !wellness_rows_byName. by apply rows_of_round_trip.
Qed.

Example one_response_round_trip_example :
  Pairing.item <$> Pairing.rowsFromResult asciiCompare three_items None
    = [paired "lemon" (Some 3); paired "Coffee" (Some 4);
       paired "almond" (Some 2); paired "tea" (Some 2)] /\
  Pairing.rowsFromResult asciiCompare three_items None
    = Pairing.rowsFromResult asciiCompare three_items (Some FBenefit)
        ++ Pairing.rowsFromResult asciiCompare three_items (Some FAvoid).
Proof. split; reflexivity. Qed.

End RowTheorems.

(** ** The error path of [onSearch] *)
Module SearchTheorems.
Import Client.

(** [`Request failed (${res.status})`]. *)
Definition requestFailed (status : N) : jsstring :=
  js "Request failed (" ++ digits status ++ js ")".

Lemma truthy_nonempty s : truthy s = true <-> s <> [].
Proof. by destruct s. Qed.

Lemma or_else_Some s b : s <> [] -> or_else (Some s) b = s.
Proof. by destruct s. Qed.

Lemma or_else_nonempty a b : b <> [] -> or_else a b <> [].
Proof. destruct a as [[|c s]|]; simpl; congruence. Qed.

Lemma requestFailed_nonempty status : requestFailed status <> [].
Proof. discriminate. Qed.

(** What the catch clause shows for an [Error] thrown by the try block. *)
Lemma caughtMessage_Error msg : msg <> [] -> caughtMessage (Error msg) = msg.
Proof.
  intros Hmsg. unfold caughtMessage. simpl.
  destruct (decide (js "Error" = js "AbortError")) as [Heq|_];
    [discriminate Heq|].
  by apply or_else_Some.
Qed.

(** The message shown after a response that is not ok. *)
Lemma runSearch_not_ok {D} (st : SearchState D) (res : Response D) :
  ok res = false ->
  runSearch st (Resolves res) =
    {| query := query st; filter := filter st; loading := false;
       result := None;
       errorMsg := Some (or_else
                     match body res with
                     | Unreadable _ => None
                     | Parsed m _ => m
                     end (requestFailed (status res))) |}.
Proof.
  intros Hok. unfold runSearch, fetchData. rewrite Hok. simpl.
  rewrite caughtMessage_Error; [done|].
  apply or_else_nonempty, requestFailed_nonempty.
Qed.

(** The first half of C7, read literally at one state and response: the
    message of the body is what ends in [errorMsg] whenever the body has
    one. *)
Definition message_surfaced {D} (st : SearchState D) (res : Response D)
  : Prop :=
  forall m d, body res = Parsed (Some m) d ->
    errorMsg (runSearch st (Resolves res)) = Some m.

Definition idle : SearchState Pairing.CompatibilityResponse :=
  {| query := js "spinach"; filter := None; loading := false;
     result := None; errorMsg := None |}.

Definition nothing : Pairing.CompatibilityResponse :=
  {| Pairing.ingredient := []; Pairing.category := [];
     Pairing.avoid := None; Pairing.beneficial := None |}.

(** C7, as stated, fails when the body carries an empty message: the
    [msg || ...] of the try block takes the empty string for no message, and
    the generic text is shown. *)
Lemma error_message_empty_not_surfaced :
  ~ message_surfaced idle {| status := 500; body := Parsed (Some []) (Some nothing) |}.
Proof. intros H. by specialize (H [] (Some nothing) eq_refl). Qed.

(** C7, amended: after a response whose status is not in 200..299 the
    search ends with no result retained and the spinner off; the error shown
    is the body's [message] when that is a non-empty string, and
    "Request failed (status)", with the status in decimal, when the body is
    absent or not JSON, has no message, or has an empty one. *)
Theorem onSearch_error_message {D : Type} (st : SearchState D)
    (res : Response D) :
  ok res = false ->
  let st' := runSearch st (Resolves res) in
  result st' = None /\ loading st' = false /\
  (forall m d, body res = Parsed (Some m) d -> m <> [] ->
     errorMsg st' = Some m) /\
  (forall e, body res = Unreadable e ->
     errorMsg st' = Some (requestFailed (status res))) /\
  (forall d, body res = Parsed None d ->
     errorMsg st' = Some (requestFailed (status res))) /\
  (forall d, body res = Parsed (Some []) d ->
     errorMsg st' = Some (requestFailed (status res))).
Proof.
  intros Hok. simpl. rewrite (runSearch_not_ok st res Hok). simpl.
  split; [done|]. split; [done|].
  split; [|split; [|split]].
  - intros m d -> Hm. by rewrite or_else_Some.
  - by intros e ->.
  - by intros d ->.
  - by intros d ->.
Qed.

Lemma onSearch_error_message_witness :
  ok {| status := 404;
        body := Parsed (Some (js "Ingredient not found")) (Some nothing) |} = false /\
  errorMsg (Pairing.onSearch idle
     (Resolves {| status := 404;
                  body := Parsed (Some (js "Ingredient not found")) (Some nothing) |}))
    = Some (js "Ingredient not found") /\
  errorMsg (Pairing.onSearch idle
     (Resolves {| status := 502;
                  body := Unreadable {| name := js "SyntaxError";
                                        message := None |} |}))
    = Some (js "Request failed (502)").
Proof.
  split; [reflexivity|]. split.
  - apply (onSearch_error_message idle
             {| status := 404;
                body := Parsed (Some (js "Ingredient not found")) (Some nothing) |}
             eq_refl) with (d := Some nothing); [reflexivity | discriminate].
  - apply (onSearch_error_message idle
             {| status := 502;
                body := Unreadable {| name := js "SyntaxError";
                                      message := None |} |}
             eq_refl) with (e := {| name := js "SyntaxError";
                                    message := None |}).
    reflexivity.
Defined.

(** Both screens run the shared path once the request is issued, and leave
    the state alone otherwise. *)
Lemma onSearch_cases lower st st' o o' :
  (Pairing.onSearch st o = st \/ Pairing.onSearch st o = runSearch st o) /\
  (Wellness.onSearch lower st' o' = st' \/
   Wellness.onSearch lower st' o' = runSearch st' o').
Proof.
  unfold Pairing.onSearch, Wellness.onSearch. split.
  - destruct (truthy _); auto.
  - destruct (Wellness.requestBody _ _); auto.
Qed.

End SearchTheorems.

(** ** The tokens of a multi-condition query *)
Module TokenTheorems.
Import Client Client.Wellness.

Abbreviation is_sep := (fun c => isSeparator c = true).
Abbreviation non_sep := (fun c => isSeparator c = false).

(** The tokens of an input, in the words of the design document: the input
    is cut at the runs of commas and white space; what lies between two runs
    (or between a run and an end of the input) is a token when it is not
    empty. *)
Inductive tokens_of : jsstring -> list jsstring -> Prop :=
| tokens_end gap : Forall is_sep gap -> tokens_of gap []
| tokens_next gap t rest ts :
    Forall is_sep gap -> t <> [] -> Forall non_sep t ->
    (rest = [] \/ exists c rest', rest = c :: rest' /\ isSeparator c = true) ->
    tokens_of rest ts ->
    tokens_of (gap ++ t ++ rest) (t :: ts).

Lemma tokens_of_sep c s ts :
  isSeparator c = true -> tokens_of s ts -> tokens_of (c :: s) ts.
Proof.
  intros Hc Hs. destruct Hs as [gap Hgap | gap t rest ts Hgap Ht Hns Hrest Hts].
  - apply tokens_end. by constructor.
  - apply (tokens_next (c :: gap)); auto.
Qed.

Lemma trimStart_id s : Forall (fun c => isWhiteSpace c = false) s -> trimStart s = s.
Proof. destruct 1 as [|c s Hc _]; simpl; [done|]. by rewrite Hc. Qed.

Lemma trim_id s : Forall non_sep s -> trim s = s.
Proof.
  intros Hs.
  assert (Forall (fun c => isWhiteSpace c = false) s) as Hws.
  { eapply Forall_impl; [exact Hs|]. intros c Hc. unfold isSeparator in Hc.
    by apply orb_false_iff in Hc as [_ ?]. }
  unfold trim, trimEnd. rewrite (trimStart_id s Hws).
  rewrite trimStart_id; [apply reverse_involutive|].
  by apply Forall_reverse.
Qed.

(** The pieces [split] emits hold no separator. *)
Lemma split_go_non_sep in_run cur s :
  Forall non_sep cur ->
  Forall (Forall non_sep) (split_go isSeparator in_run cur s).
Proof.
  revert in_run cur. induction s as [|c s IH]; intros in_run cur Hcur; simpl.
  - repeat constructor. by apply Forall_reverse.
  - destruct (isSeparator c) eqn:Hc.
    + destruct in_run; [by apply IH|].
      constructor; [by apply Forall_reverse | by apply IH].
    + apply IH. by constructor.
Qed.

Lemma truthy_reverse cur : truthy (reverse cur) = truthy cur.
Proof.
  destruct cur as [|c cur]; [done|]. rewrite reverse_cons. simpl.
  by destruct (reverse cur).
Qed.

(** The non-empty pieces are the tokens. *)
Lemma split_go_tokens in_run cur s :
  Forall non_sep cur -> (in_run = true -> cur = []) ->
  tokens_of (reverse cur ++ s)
    (List.filter truthy (split_go isSeparator in_run cur s)).
Proof.
  revert in_run cur. induction s as [|c s IH]; intros in_run cur Hcur Hrun.
  - simpl. rewrite truthy_reverse. destruct cur as [|x cur]; simpl.
    + apply tokens_end. constructor.
    + rewrite <- (app_nil_l (reverse (x :: cur) ++ [])).
      apply tokens_next;
        [constructor | | by apply Forall_reverse | by left
        | apply tokens_end; constructor].
      intros H%(f_equal length). rewrite length_reverse in H. done.
  - simpl. destruct (isSeparator c) eqn:Hc.
    + assert (tokens_of (c :: s)
                (List.filter truthy (split_go isSeparator true [] s))) as Hrest.
      { apply tokens_of_sep; [done|]. by apply (IH true []). }
      destruct in_run; [by rewrite (Hrun eq_refl)|].
      simpl. rewrite truthy_reverse. destruct cur as [|x cur]; [done|].
      simpl. rewrite <- (app_nil_l (reverse (x :: cur) ++ c :: s)).
      apply tokens_next;
        [constructor | | by apply Forall_reverse | right; eauto | done].
      intros H%(f_equal length). rewrite length_reverse in H. done.
    + replace (reverse cur ++ c :: s) with (reverse (c :: cur) ++ s)
        by (by rewrite reverse_cons, <- app_assoc).
      apply IH; [by constructor | done].
Qed.

Lemma parts_tokens input : tokens_of input (parts input).
Proof.
  unfold parts, split.
  pose proof (split_go_non_sep false [] input (Forall_nil_2 _)) as Hns.
  assert (trim <$> split_go isSeparator false [] input
          = id <$> split_go isSeparator false [] input) as ->.
  { apply list_fmap_ext. intros i p Hp. apply trim_id.
    eapply Forall_lookup_1; [exact Hns | exact Hp]. }
  rewrite list_fmap_id. by apply (split_go_tokens false []).
Qed.

Lemma tokens_of_trimmed s ts :
  tokens_of s ts -> Forall (fun t => t <> [] /\ Forall non_sep t /\ trim t = t) ts.
Proof.
  induction 1; constructor; auto using trim_id.
Qed.

(** A stretch of characters of one kind, followed by nothing or by a
    character of the other kind, is cut in one way only. *)
Lemma stretch_unique (p : N -> bool) (l1 l2 r1 r2 : jsstring) :
  l1 ++ r1 = l2 ++ r2 ->
  Forall (fun c => p c = true) l1 -> Forall (fun c => p c = true) l2 ->
  (r1 = [] \/ exists c r, r1 = c :: r /\ p c = false) ->
  (r2 = [] \/ exists c r, r2 = c :: r /\ p c = false) ->
  l1 = l2 /\ r1 = r2.
Proof.
  revert l2. induction l1 as [|x l1 IH]; intros l2 Heq H1 H2 Hr1 Hr2.
  - destruct l2 as [|y l2]; [done|]. simpl in Heq.
    apply Forall_cons in H2 as [Hy _].
    destruct Hr1 as [-> | (c & r & -> & Hc)]; [done|].
    injection Heq as -> _. congruence.
  - apply Forall_cons in H1 as [Hx H1]. destruct l2 as [|y l2].
    + simpl in Heq. destruct Hr2 as [-> | (c & r & -> & Hc)]; [done|].
      injection Heq as -> _. congruence.
    + injection Heq as -> Heq. apply Forall_cons in H2 as [_ H2].
      destruct (IH l2 Heq H1 H2 Hr1 Hr2) as [-> ->]. done.
Qed.

Lemma tokens_of_unique s ts ts' : tokens_of s ts -> tokens_of s ts' -> ts = ts'.
Proof.
  intros H. revert ts'.
  induction H as [gap Hgap | gap t rest ts Hgap Ht Hns Hrest Hts IH];
    intros ts' H'.
  - inversion H' as [| gap' t' rest' ts'' Hgap' Ht' Hns' _ _ Heq]; [done|].
    subst. destruct t' as [|c t']; [done|].
    apply Forall_app in Hgap as [_ Hc]. apply Forall_cons in Hc as [Hc _].
    apply Forall_cons in Hns' as [Hc' _]. congruence.
  - inversion H' as [gap' Hgap' Heq
                    | gap' t' rest' ts'' Hgap' Ht' Hns' Hrest' Hts' Heq].
    + subst. destruct t as [|c t]; [done|].
      apply Forall_app in Hgap' as [_ Hc]. apply Forall_cons in Hc as [Hc _].
      apply Forall_cons in Hns as [Hc' _]. congruence.
    + subst.
      destruct (stretch_unique isSeparator gap' gap (t' ++ rest') (t ++ rest))
        as [_ Heq']; auto.
      { right. destruct t' as [|c t']; [done|].
        apply Forall_cons in Hns' as [Hc _]. simpl. eauto. }
      { right. destruct t as [|c t]; [done|].
        apply Forall_cons in Hns as [Hc _]. simpl. eauto. }
      destruct (stretch_unique (fun c => negb (isSeparator c)) t' t rest' rest)
        as [-> ->]; auto.
      { eapply Forall_impl; [exact Hns'|]. by intros c ->. }
      { eapply Forall_impl; [exact Hns|]. by intros c ->. }
      { destruct Hrest' as [|(c & r & -> & Hc)]; [by left|].
        right. exists c, r. by rewrite Hc. }
      { destruct Hrest as [|(c & r & -> & Hc)]; [by left|].
        right. exists c, r. by rewrite Hc. }
      f_equal. by apply IH.
Qed.

Section Dedupe.
Variable toLowerCase : jsstring -> jsstring.

(** The tokens the loop pushes, without the accumulator. *)
Fixpoint firsts (ps : list jsstring) (seen : gset jsstring) : list jsstring :=
  match ps with
  | [] => []
  | p :: rest =>
      if decide (toLowerCase p ∈ seen) then firsts rest seen
      else p :: firsts rest ({[ toLowerCase p ]} ∪ seen)
  end.

Lemma dedupe_firsts ps seen out :
  dedupe toLowerCase ps seen out = out ++ firsts ps seen.
Proof.
  revert seen out. induction ps as [|p ps IH]; intros seen out; simpl.
  - by rewrite app_nil_r.
  - destruct (decide _); [apply IH|]. by rewrite IH, <- app_assoc.
Qed.

Lemma firsts_sublist ps seen : firsts ps seen `sublist_of` ps.
Proof.
  revert seen. induction ps as [|p ps IH]; intros seen; simpl; [done|].
  destruct (decide _); [apply sublist_cons | apply sublist_skip]; apply IH.
Qed.

Lemma firsts_fresh ps seen t :
  t ∈ firsts ps seen -> toLowerCase t ∉ seen.
Proof.
  revert seen. induction ps as [|p ps IH]; intros seen; simpl.
  - by intros ?%elem_of_nil.
  - destruct (decide _) as [|Hp]; [apply IH|].
    intros [-> | Ht]%elem_of_cons; [done|].
    apply IH in Ht. set_solver.
Qed.

Lemma firsts_NoDup ps seen : NoDup (toLowerCase <$> firsts ps seen).
Proof.
  revert seen. induction ps as [|p ps IH]; intros seen; simpl; [constructor|].
  destruct (decide _) as [|Hp]; [apply IH|].
  rewrite fmap_cons. constructor; [|apply IH].
  intros (t & Heq & Ht)%list_elem_of_fmap. apply firsts_fresh in Ht.
  set_solver.
Qed.

Lemma firsts_cover ps seen p :
  p ∈ ps ->
  toLowerCase p ∈ seen \/ toLowerCase p ∈ toLowerCase <$> firsts ps seen.
Proof.
  revert seen. induction ps as [|q ps IH]; intros seen; simpl.
  - by intros ?%elem_of_nil.
  - intros [-> | Hp]%elem_of_cons.
    + destruct (decide _); [by left|]. right. rewrite fmap_cons. by left.
    + destruct (decide _) as [Hq|Hq]; [by apply IH|].
      destruct (IH ({[ toLowerCase q ]} ∪ seen) Hp) as [Hin | Hin].
      * apply elem_of_union in Hin as [->%elem_of_singleton | Hin];
          [|by left].
        right. rewrite fmap_cons. by left.
      * right. rewrite fmap_cons. by right.
Qed.

Lemma firsts_first ps seen t :
  t ∈ firsts ps seen ->
  exists before after,
    ps = before ++ t :: after /\
    toLowerCase t ∉ toLowerCase <$> before.
Proof.
  revert seen. induction ps as [|p ps IH]; intros seen; simpl.
  - by intros ?%elem_of_nil.
  - destruct (decide _) as [Hp|Hp].
    + intros Ht. destruct (IH _ Ht) as (b & a & -> & Hb).
      exists (p :: b), a. split; [done|].
      rewrite fmap_cons, not_elem_of_cons. split; [|done].
      apply firsts_fresh in Ht. congruence.
    + intros [-> | Ht]%elem_of_cons.
      * exists [], ps. split; [done|]. by intros ?%elem_of_nil.
      * destruct (IH _ Ht) as (b & a & -> & Hb).
        exists (p :: b), a. split; [done|].
        rewrite fmap_cons, not_elem_of_cons. split; [|done].
        apply firsts_fresh in Ht. set_solver.
Qed.

(** The tokens before a kept one are kept or dropped in front of it. *)
Lemma firsts_split ps seen pre t post :
  firsts ps seen = pre ++ t :: post ->
  exists before after,
    ps = before ++ t :: after /\
    (toLowerCase t ∉ toLowerCase <$> before) /\
    pre `sublist_of` before.
Proof.
  revert seen pre. induction ps as [|p ps IH]; intros seen pre; simpl.
  - by destruct pre.
  - destruct (decide _) as [Hp | Hp].
    + intros Heq. destruct (IH _ _ Heq) as (b & a & -> & Hb & Hsub).
      exists (p :: b), a. split; [done|]. split; [|by apply sublist_cons].
      rewrite fmap_cons, not_elem_of_cons. split; [|done].
      assert (t ∈ firsts (b ++ t :: a) seen) as Ht
        by (rewrite Heq; set_solver).
      apply firsts_fresh in Ht. congruence.
    + destruct pre as [|x pre]; simpl.
      * intros [= -> _]. exists [], ps. split; [done|].
        split; [by intros ?%elem_of_nil | done].
      * intros [= -> Heq]. destruct (IH _ _ Heq) as (b & a & -> & Hb & Hsub).
        exists (x :: b), a. split; [done|]. split; [|by apply sublist_skip].
        rewrite fmap_cons, not_elem_of_cons. split; [|done].
        assert (t ∈ firsts (b ++ t :: a) ({[toLowerCase x]} ∪ seen)) as Ht
          by (rewrite Heq; set_solver).
        apply firsts_fresh in Ht. set_solver.
Qed.

(** What the claim says of the list [out] returned for the tokens [ts]:
    it is drawn from [ts] in their order, holds no two tokens with the
    same lower-cased spelling and one for every spelling of [ts]; and a
    token of [out] stands in [ts] where its spelling is seen first, the
    tokens in front of it in [out] being in front of that place in [ts]. *)
Definition first_seen (ts out : list jsstring) : Prop :=
  out `sublist_of` ts /\
  NoDup (toLowerCase <$> out) /\
  (forall t, t ∈ ts -> toLowerCase t ∈ toLowerCase <$> out) /\
  (forall pre t post, out = pre ++ t :: post ->
     exists before after,
       ts = before ++ t :: after /\
       (toLowerCase t ∉ toLowerCase <$> before) /\
       pre `sublist_of` before).

(** [first_seen] with the spellings [seen] taken already. *)
Definition first_unseen (seen : gset jsstring) (ts out : list jsstring)
  : Prop :=
  out `sublist_of` ts /\
  NoDup (toLowerCase <$> out) /\
  (forall t, t ∈ out -> toLowerCase t ∉ seen) /\
  (forall t, t ∈ ts ->
     toLowerCase t ∈ seen \/ toLowerCase t ∈ toLowerCase <$> out) /\
  (forall pre t post, out = pre ++ t :: post ->
     exists before after,
       ts = before ++ t :: after /\
       (toLowerCase t ∉ toLowerCase <$> before) /\
       pre `sublist_of` before).

Lemma sublist_cons_same (x : jsstring) l k :
  (x :: l) `sublist_of` (x :: k) -> l `sublist_of` k.
Proof.
  intros [H | (l' & [= <-] & H)]%sublist_cons_r; [|done].
  etrans; [|exact H]. by apply sublist_cons.
Qed.

(** No other list than the one the loop builds meets [first_unseen]. *)
Lemma first_unseen_firsts ts seen out :
  first_unseen seen ts out -> out = firsts ts seen.
Proof.
  revert seen out. induction ts as [|p ps IH];
    intros seen out (Hsub & Hnd & Hfresh & Hcover & Hsplit); simpl.
  - by apply sublist_nil_r in Hsub.
  - destruct (decide (toLowerCase p ∈ seen)) as [Hp | Hp].
    + assert (p ∉ out) as Hout by (intros Hin; by apply (Hfresh p Hin)).
      apply IH. split; [|split; [done|split; [done|split]]].
      * apply sublist_cons_r in Hsub as [H | (l' & -> & _)]; [done|].
        destruct Hout. by left.
      * intros t Ht. apply Hcover. by right.
      * intros pre t post Heq.
        destruct (Hsplit pre t post Heq) as (b & a & Hps & Hb & Hpre).
        destruct b as [|b0 b]; simpl in Hps.
        { injection Hps as <- _. destruct Hout. rewrite Heq. set_solver. }
        injection Hps as <- ->. exists b, a. split; [done|].
        rewrite fmap_cons, not_elem_of_cons in Hb. split; [tauto|].
        apply sublist_cons_r in Hpre as [H | (l' & -> & _)]; [done|].
        destruct Hout. rewrite Heq. by left.
    + destruct (Hcover p) as [Hin | Hin]; [by left | done |].
      apply list_elem_of_fmap in Hin as (x & Hkey & Hx).
      apply list_elem_of_split in Hx as (pre & post & ->).
      destruct (Hsplit pre x post eq_refl) as (b & a & Hps & Hb & Hpre).
      destruct b as [|b0 b]; simpl in Hps.
      2:{ injection Hps as <- _. destruct Hb. rewrite fmap_cons, Hkey.
          by left. }
      injection Hps as <- <-.
      apply sublist_nil_r in Hpre as ->. cbn [app] in *. f_equal.
      rewrite fmap_cons in Hnd. apply NoDup_cons in Hnd as [Hx Hnd].
      apply IH. split; [|split; [done|split; [|split]]].
      * by apply sublist_cons_same in Hsub.
      * intros t Ht. rewrite not_elem_of_union, not_elem_of_singleton.
        split; [|apply Hfresh; by right].
        intros Heq. apply Hx. rewrite <- Heq. by apply list_elem_of_fmap_2.
      * intros t Ht. destruct (Hcover t) as [H | H]; [by right | |].
        { left. set_solver. }
        rewrite fmap_cons in H. apply elem_of_cons in H as [H | H]; [|by right].
        left. set_solver.
      * intros pre t post' ->.
        destruct (Hsplit (p :: pre) t post' eq_refl)
          as (b & a' & Hps & Hb' & Hpre).
        destruct b as [|b0 b]; [by apply sublist_nil_r in Hpre|].
        simpl in Hps. injection Hps as <- ->. exists b, a'. split; [done|].
        rewrite fmap_cons, not_elem_of_cons in Hb'. split; [tauto|].
        by apply sublist_cons_same in Hpre.
Qed.

(** The code units of the class [\s], which [trim] strips as well: TAB, LF,
    VT, FF, CR, SP, NBSP, U+1680, U+2000 to U+200A, LS, PS, U+202F, U+205F,
    U+3000 and U+FEFF. *)
Definition white_space : list N :=
  [9; 10; 11; 12; 13; 32; 160; 5760; 8192; 8193; 8194; 8195; 8196; 8197;
   8198; 8199; 8200; 8201; 8202; 8232; 8233; 8239; 8287; 12288; 65279]%N.

Lemma isWhiteSpace_spec c : isWhiteSpace c = true <-> c ∈ white_space.
Proof.
  unfold isWhiteSpace, white_space.
  rewrite !elem_of_cons, elem_of_nil, !orb_true_iff, !andb_true_iff,
    !N.leb_le, !N.eqb_eq.
  lia.
Qed.

(** C2: the input is cut at the runs of commas and of the white space
    listed in [white_space], and at nothing else; the tokens are the
    non-empty stretches between the runs, and hold no white space at either
    end; of these the tokenizer returns one per lower-cased spelling, the
    first that has it, in the order in which the spellings are first seen;
    and no other list answers this description. *)
Theorem parseDiseases_tokens (input : jsstring) :
  (forall c, isSeparator c = true <-> c = 44%N \/ c ∈ white_space) /\
  (forall c, isWhiteSpace c = true <-> c ∈ white_space) /\
  exists ts,
    tokens_of input ts /\ (forall ts', tokens_of input ts' -> ts' = ts) /\
    Forall (fun t => t <> [] /\ Forall non_sep t /\ trim t = t) ts /\
    let out := parseDiseases toLowerCase input in
    first_seen ts out /\
    (forall t, t ∈ out ->
       exists before after,
         ts = before ++ t :: after /\
         toLowerCase t ∉ toLowerCase <$> before) /\
    (forall out', first_seen ts out' -> out' = out).
Proof.
  split.
  { intros c. unfold isSeparator.
    rewrite orb_true_iff, N.eqb_eq, isWhiteSpace_spec. tauto. }
  split; [apply isWhiteSpace_spec|].
  exists (parts input). pose proof (parts_tokens input) as Hts.
  split; [done|].
  split; [intros ts' Hts'; by apply (tokens_of_unique input)|].
  split; [by apply (tokens_of_trimmed input)|].
  unfold parseDiseases. rewrite dedupe_firsts. simpl.
  split; [|split].
  - split; [apply firsts_sublist|]. split; [apply firsts_NoDup|]. split.
    + intros t Ht.
      by destruct (firsts_cover _ ∅ t Ht) as [?%not_elem_of_empty|].
    + apply firsts_split.
  - apply firsts_first.
  - intros out' (Hsub & Hnd & Hcover & Hsplit). apply first_unseen_firsts.
    split; [done|]. split; [done|]. split; [by intros t _ ?%not_elem_of_empty|].
    split; [|done]. intros t Ht. right. by apply Hcover.
Qed.

End Dedupe.

Example parseDiseases_separators_only :
  parseDiseases asciiLowerCase (js " , ,, ") = [] /\
  parts (js ",gout,") = [js "gout"].
Proof. split; vm_compute; reflexivity. Qed.

Example parseDiseases_example :
  parseDiseases asciiLowerCase (js " Diabetes, gout  diabetes,,GOUT hypertension ")
  = [js "Diabetes"; js "gout"; js "hypertension"].
Proof. vm_compute. reflexivity. Qed.

End TokenTheorems.

(** ** The order of the rows within a bucket *)
Module OrderTheorems.
Import Client RowTheorems.

(** The collation of the examples is a consistent comparator. *)
Lemma asciiCompare_flip a b : 0 < asciiCompare a b -> asciiCompare b a <= 0.
Proof.
  revert b. induction a as [|x a IH]; intros [|y b]; simpl; try lia.
  destruct (N.ltb_spec (foldCase x) (foldCase y)),
           (N.ltb_spec (foldCase y) (foldCase x)); try lia.
  apply IH.
Qed.

Lemma asciiCompare_trans a b c :
  asciiCompare a b <= 0 -> asciiCompare b c <= 0 -> asciiCompare a c <= 0.
Proof.
  revert b c. induction a as [|x a IH]; intros [|y b] [|z c]; simpl; try lia.
  destruct (N.ltb_spec (foldCase x) (foldCase y)),
           (N.ltb_spec (foldCase y) (foldCase x)),
           (N.ltb_spec (foldCase y) (foldCase z)),
           (N.ltb_spec (foldCase z) (foldCase y)),
           (N.ltb_spec (foldCase x) (foldCase z)),
           (N.ltb_spec (foldCase z) (foldCase x)); try lia.
  apply IH.
Qed.

Lemma StronglySorted_weaken {A} (R R' : A -> A -> Prop) l :
  (forall a b, R a b -> R' a b) -> StronglySorted R l -> StronglySorted R' l.
Proof.
  intros HR. induction 1 as [|x l Hl IH Hx]; constructor; [done|].
  eapply Forall_impl; [exact Hx|]. intros y. apply HR.
Qed.

(** What the claim on the order says of the rows [rows] of one bucket:
    the score never rises along the rows, and among rows of equal score the
    names never fall. *)
Definition by_score_then_name {R : Type} (lc : jsstring -> jsstring -> Z)
    (score : R -> Z) (name : R -> jsstring) (rows : list R) : Prop :=
  StronglySorted
    (fun a b => score b < score a \/
                (score a = score b /\ lc (name a) (name b) <= 0)) rows.

(** The same with the names alone. *)
Definition by_name {R : Type} (lc : jsstring -> jsstring -> Z)
    (name : R -> jsstring) (rows : list R) : Prop :=
  StronglySorted (fun a b => lc (name a) (name b) <= 0) rows.

(** Rows the comparator [cmp] ties keep the order of the response
    [items]. *)
Definition ties_in_order {R : Type} (cmp : R -> R -> Z)
    (rows items : list R) : Prop :=
  forall x, List.filter (tied cmp x) rows = List.filter (tied cmp x) items.

Section Collation.
Variable lc : jsstring -> jsstring -> Z.
Hypothesis lc_flip : forall a b, 0 < lc a b -> lc b a <= 0.
Hypothesis lc_trans : forall a b c, lc a b <= 0 -> lc b c <= 0 -> lc a c <= 0.

Section Keys.
Context {R : Type} (score : R -> Z) (name : R -> jsstring).

(** The comparator of the copies that rank by severity, on the two keys. *)
Definition compareKeys (a b : R) : Z :=
  let d := score b - score a in
  if d =? 0 then lc (name a) (name b) else d.

Lemma compareKeys_le a b :
  compareKeys a b <= 0 <->
  score b < score a \/ (score a = score b /\ lc (name a) (name b) <= 0).
Proof.
  unfold compareKeys. destruct (Z.eqb_spec (score b - score a) 0); lia.
Qed.

Lemma compareKeys_flip a b : 0 < compareKeys a b -> compareKeys b a <= 0.
Proof.
  unfold compareKeys.
  destruct (Z.eqb_spec (score b - score a) 0),
           (Z.eqb_spec (score a - score b) 0); try lia.
  apply lc_flip.
Qed.

Lemma compareKeys_trans a b c :
  compareKeys a b <= 0 -> compareKeys b c <= 0 -> compareKeys a c <= 0.
Proof.
  rewrite !compareKeys_le.
  intros [? | [? Hab]] [? | [? Hbc]]; try lia.
  right. split; [lia|]. by apply (lc_trans _ (name b)).
Qed.

Lemma sort_by_score_then_name l :
  by_score_then_name lc score name (sort compareKeys l).
Proof.
  unfold by_score_then_name.
  eapply StronglySorted_weaken;
    [|apply (sort_StronglySorted compareKeys compareKeys_flip
               compareKeys_trans)].
  intros a b. apply compareKeys_le.
Qed.

Lemma sort_by_name l :
  by_name lc name (sort (fun a b => lc (name a) (name b)) l).
Proof.
  unfold by_name.
  apply (sort_StronglySorted (fun a b => lc (name a) (name b))).
  - intros a b. apply lc_flip.
  - intros a b c. apply lc_trans.
Qed.

End Keys.
End Collation.

(** The bucket a kind of row comes from, and the filter that shows it
    alone. *)
Definition filter_of (k : Kind) : option Filter :=
  Some match k with good => FBenefit | bad => FAvoid end.

Definition pairing_bucket (res : Pairing.CompatibilityResponse) (k : Kind)
  : list Pairing.Row :=
  (fun x => {| Pairing.item := x; Pairing._kind := k |}) <$>
    default [] match k with
               | good => Pairing.beneficial res
               | bad => Pairing.avoid res
               end.

Definition wellness_bucket (res : Wellness.DiseaseGuide) (k : Kind)
  : list Wellness.Row :=
  Wellness.toRow k <$>
    default [] match k with
               | good => Wellness.beneficial res
               | bad => Wellness.avoid res
               end.

(** The two keys of a row: [severity ?? 0], and the name compared. *)
Definition pairing_score (r : Pairing.Row) : Z :=
  default 0 (Pairing.severity (Pairing.item r)).
Definition pairing_name (r : Pairing.Row) : jsstring :=
  or_else (Pairing.food (Pairing.item r)) [].
Definition wellness_score (r : Wellness.Row) : Z :=
  default 0 (Wellness.severity (Wellness.item r)).
Definition wellness_name (r : Wellness.Row) : jsstring :=
  Wellness.nameOf (Wellness.item r).

Definition pairing_cmp (lc : jsstring -> jsstring -> Z) (a b : Pairing.Row) : Z :=
  Pairing.bySeverity lc (Pairing.item a) (Pairing.item b).
Definition wellness_cmp (lc : jsstring -> jsstring -> Z) (a b : Wellness.Row)
  : Z := Wellness.bySeverity lc (Wellness.item a) (Wellness.item b).
Definition wellness_cmp_byName (lc : jsstring -> jsstring -> Z)
    (a b : Wellness.Row) : Z :=
  Wellness.byName lc (Wellness.item a) (Wellness.item b).

Lemma pairing_rows_bucket lc res k :
  Pairing.rowsFromResult lc res (filter_of k)
  = sort (pairing_cmp lc) (pairing_bucket res k).
Proof. by destruct k. Qed.

Lemma wellness_rows_bucket lc res k :
  Wellness.rowsFromResult lc res (filter_of k)
  = sort (wellness_cmp lc) (wellness_bucket res k).
Proof. by destruct k. Qed.

Lemma wellness_rows_byName_bucket lc res k :
  Wellness.rowsFromResult_byName lc res (filter_of k)
  = sort (wellness_cmp_byName lc) (wellness_bucket res k).
Proof. by destruct k. Qed.

(** A response of the backend with two beneficial items, the weaker claim
    first in the alphabet. *)
Definition scored (n : string) (s : Z) : Wellness.DiseaseItem :=
  {| Wellness.food := Some (js n); Wellness.ingredient := None;
     Wellness.reason := []; Wellness.severity := Some s;
     Wellness.affectedDiseases := None; Wellness.sources := None |}.

Definition two_items : Wellness.DiseaseGuide :=
  {| Wellness.diseases := [js "gout"];
     Wellness.avoid := None;
     Wellness.beneficial := Some [scored "apple" 1; scored "banana" 5] |}.

(** C3, as stated, fails on the copy of the wellness screen that compares
    names only: the row of score 1 precedes the row of score 5. *)
Lemma rows_by_name_not_by_score :
  ~ by_score_then_name asciiCompare wellness_score wellness_name
      (Wellness.rowsFromResult_byName asciiCompare two_items (Some FBenefit)).
Proof.
  unfold by_score_then_name. intros H.
  apply StronglySorted_inv in H as [_ H].
  apply Forall_cons in H as [[H | [H _]] _]; vm_compute in H; discriminate H.
Qed.

(** C3, amended: given a consistent collation, in the pairing screen and in
    the copy of the wellness screen that shows severities the rows of each
    bucket are those of the response, by severity descending (a missing
    severity counts as 0) and, among rows of equal severity, by name
    ascending under the collation; rows the comparator ties keep the order
    of the response, so the order is determined.  The copy of the wellness
    screen without severities orders each bucket by name alone.  The
    listing for 'all' is the beneficial bucket so ordered, then the avoid
    bucket so ordered. *)
Theorem rowsFromResult_order (lc : jsstring -> jsstring -> Z)
    (lc_flip : forall a b, 0 < lc a b -> lc b a <= 0)
    (lc_trans : forall a b c, lc a b <= 0 -> lc b c <= 0 -> lc a c <= 0) :
  (forall res k,
     let rows := Pairing.rowsFromResult lc res (filter_of k) in
     by_score_then_name lc pairing_score pairing_name rows /\
     rows ≡ₚ pairing_bucket res k /\
     ties_in_order (pairing_cmp lc) rows (pairing_bucket res k)) /\
  (forall res k,
     let rows := Wellness.rowsFromResult lc res (filter_of k) in
     by_score_then_name lc wellness_score wellness_name rows /\
     rows ≡ₚ wellness_bucket res k /\
     ties_in_order (wellness_cmp lc) rows (wellness_bucket res k)) /\
  (forall res k,
     let rows := Wellness.rowsFromResult_byName lc res (filter_of k) in
     by_name lc wellness_name rows /\
     rows ≡ₚ wellness_bucket res k /\
     ties_in_order (wellness_cmp_byName lc) rows (wellness_bucket res k)) /\
  (forall res f, apiFilter f = js "all" ->
     Pairing.rowsFromResult lc res f
       = Pairing.rowsFromResult lc res (filter_of good)
           ++ Pairing.rowsFromResult lc res (filter_of bad)) /\
  (forall res f, apiFilter f = js "all" ->
     Wellness.rowsFromResult lc res f
       = Wellness.rowsFromResult lc res (filter_of good)
           ++ Wellness.rowsFromResult lc res (filter_of bad)) /\
  (forall res f, apiFilter f = js "all" ->
     Wellness.rowsFromResult_byName lc res f
       = Wellness.rowsFromResult_byName lc res (filter_of good)
           ++ Wellness.rowsFromResult_byName lc res (filter_of bad)).
Proof.
  split; [|split; [|split; [|split; [|split]]]].
  - intros res k. cbv zeta. rewrite pairing_rows_bucket. split; [|split].
    + apply (sort_by_score_then_name lc lc_flip lc_trans
               pairing_score pairing_name).
    + apply sort_Permutation.
    + intros x. apply sort_stable.
      apply (compareKeys_trans lc lc_trans pairing_score pairing_name).
  - intros res k. cbv zeta. rewrite wellness_rows_bucket. split; [|split].
    + apply (sort_by_score_then_name lc lc_flip lc_trans
               wellness_score wellness_name).
    + apply sort_Permutation.
    + intros x. apply sort_stable.
      apply (compareKeys_trans lc lc_trans wellness_score wellness_name).
  - intros res k. cbv zeta. rewrite wellness_rows_byName_bucket.
    split; [|split].
    + apply (sort_by_name lc lc_flip lc_trans wellness_name).
    + apply sort_Permutation.
    + intros x. apply sort_stable. intros a b c. apply lc_trans.
  - intros res f Hf. by destruct (apiFilter_all f Hf) as [-> | ->].
  - intros res f Hf. by destruct (apiFilter_all f Hf) as [-> | ->].
  - intros res f Hf. by destruct (apiFilter_all f Hf) as [-> | ->].
Qed.

Lemma rowsFromResult_order_witness :
  (forall a b, 0 < asciiCompare a b -> asciiCompare b a <= 0) /\
  (forall a b c, asciiCompare a b <= 0 -> asciiCompare b c <= 0 ->
                 asciiCompare a c <= 0) /\
  Pairing.item <$> Pairing.rowsFromResult asciiCompare three_items (Some FAvoid)
    = [paired "Coffee" (Some 4); paired "almond" (Some 2);
       paired "tea" (Some 2)] /\
  by_score_then_name asciiCompare pairing_score pairing_name
    (Pairing.rowsFromResult asciiCompare three_items (Some FAvoid)).
Proof.
  split; [exact asciiCompare_flip|]. split; [exact asciiCompare_trans|].
  split; [reflexivity|].
  apply (proj1 (rowsFromResult_order asciiCompare asciiCompare_flip
                  asciiCompare_trans) three_items bad).
Defined.

End OrderTheorems.

(** ** The condition guide: avoid dominates beneficial *)
Module GuideTheorems.
Import Schema Engine.

Lemma elem_of_List_filter {A} (p : A -> bool) (l : list A) x :
  x ∈ List.filter p l <-> x ∈ l /\ p x = true.
Proof. by rewrite !list_elem_of_In, filter_In. Qed.

(** An edge links condition [c] and ingredient [i], in either direction. *)
Definition links (c : Condition) (i : Z) (r : V2b.interaction) : Prop :=
  (side_a r = ConditionRef (cond_id c) /\ side_b r = IngredientRef i) \/
  (side_a r = IngredientRef i /\ side_b r = ConditionRef (cond_id c)).

Lemma elem_of_flags store t i c r :
  r ∈ flags store t i c <->
  r ∈ store /\ links c i r /\ V2b.itype r = Some (itype_text t).
Proof.
  unfold flags, edgesFor, other, links. rewrite !elem_of_List_filter.
  rewrite andb_true_iff, orb_true_iff, !bool_decide_eq_true.
  destruct (decide (side_a r = ConditionRef (cond_id c))) as [Ha | Ha].
  - rewrite Ha. intuition congruence.
  - intuition congruence.
Qed.

Lemma elem_of_flagging store t i cs c :
  c ∈ flagging store t i cs <-> c ∈ cs /\ flags store t i c <> [].
Proof.
  unfold flagging. rewrite elem_of_List_filter.
  destruct (flags store t i c); intuition congruence.
Qed.

Section Resolver.
Variable toLowerCase : jsstring -> jsstring.
Variable localeCompare : jsstring -> jsstring -> Z.
Variable summarise : list V2b.interaction -> text * Z.

Abbreviation row := (row summarise).
Abbreviation aggregate := (aggregate summarise).
Abbreviation guide := (guide toLowerCase localeCompare summarise).

Lemma aggregate_row store cs j t r :
  aggregate store cs j = Some (t, r) ->
  r = row store t cs j /\ flagging store t (ing_id j) cs <> [] /\
  (t = benefit -> flagging store avoid (ing_id j) cs = []).
Proof.
  unfold Engine.aggregate.
  destruct (flagging store avoid (ing_id j) cs) eqn:Ha.
  - destruct (flagging store benefit (ing_id j) cs) eqn:Hb; [done|].
    intros [= <- <-]. by rewrite Hb.
  - intros [= <- <-]. by rewrite Ha.
Qed.

Lemma aggregate_avoid store cs j :
  flagging store avoid (ing_id j) cs <> [] ->
  aggregate store cs j = Some (avoid, row store avoid cs j).
Proof.
  unfold Engine.aggregate.
  by destruct (flagging store avoid (ing_id j) cs).
Qed.

Lemma elem_of_bucket t (l : list (IType * Item)) r :
  r ∈ bucket t l <-> (t, r) ∈ l.
Proof.
  unfold bucket. rewrite list_elem_of_fmap. split.
  - intros ([t' r'] & -> & [Hin Ht]%elem_of_List_filter). simpl in *.
    by destruct t', t.
  - intros Hin. exists (t, r). split; [done|].
    apply elem_of_List_filter. split; [done|]. by destruct t.
Qed.

(** The rows of the two buckets before the filter is applied. *)
Lemma elem_of_sorted_bucket cat store cs t r :
  r ∈ sort (byScore localeCompare)
        (bucket t (omap (aggregate store cs) (ingredients cat))) <->
  exists j, j ∈ ingredients cat /\ aggregate store cs j = Some (t, r).
Proof.
  rewrite sort_Permutation, elem_of_bucket. apply list_elem_of_omap.
Qed.

Lemma avoid_bucket_subset cat store tokens f r :
  r ∈ avoid_bucket (guide cat store tokens f) ->
  exists j, j ∈ ingredients cat /\
    aggregate store (resolveAll toLowerCase cat tokens []) j = Some (avoid, r).
Proof.
  unfold Engine.guide. simpl.
  destruct f; try by intros ?%elem_of_sorted_bucket.
  by intros ?%elem_of_nil.
Qed.

Lemma beneficial_bucket_subset cat store tokens f r :
  r ∈ beneficial_bucket (guide cat store tokens f) ->
  exists j, j ∈ ingredients cat /\
    aggregate store (resolveAll toLowerCase cat tokens []) j = Some (benefit, r).
Proof.
  unfold Engine.guide. simpl.
  destruct f; try by intros ?%elem_of_sorted_bucket.
  by intros ?%elem_of_nil.
Qed.

(** C1: let the ingredient [i] of the catalog be flagged avoid by a
    resolved condition [a] of the query (an edge [ea] of the store links
    them with the label avoid).  Then, whatever the other resolved
    conditions say of [i], beneficial included, no row of the beneficial
    bucket stands for [i]; unless the filter hides the avoid bucket, a row
    of the avoid bucket does; and every row of the avoid bucket that stands
    for [i] lists among its affected diseases every resolved condition that
    flags [i] avoid. *)
Theorem guide_avoid_dominates (cat : Catalog) (store : list V2b.interaction)
    (tokens : list text) (f : GuideFilter)
    (i : Ingredient) (a : Condition) (ea : V2b.interaction) :
  i ∈ ingredients cat ->
  a ∈ resolveAll toLowerCase cat tokens [] ->
  ea ∈ store -> links a (ing_id i) ea ->
  V2b.itype ea = Some (js "avoid") ->
  let g := guide cat store tokens f in
  (forall r, r ∈ beneficial_bucket g -> item_ingredient r <> ing_id i) /\
  (f <> only_beneficial ->
     exists r, r ∈ avoid_bucket g /\ item_ingredient r = ing_id i) /\
  (forall r, r ∈ avoid_bucket g -> item_ingredient r = ing_id i ->
     forall c e,
       c ∈ resolveAll toLowerCase cat tokens [] ->
       e ∈ store -> links c (ing_id i) e ->
       V2b.itype e = Some (js "avoid") ->
       cond_name c ∈ affectedDiseases r).
Proof.
  intros Hi Ha Hea Hlink Hlabel g.
  set (cs := resolveAll toLowerCase cat tokens []) in *.
  assert (Hflag : forall c e, c ∈ cs -> e ∈ store -> links c (ing_id i) e ->
            V2b.itype e = Some (js "avoid") ->
            c ∈ flagging store avoid (ing_id i) cs).
  { intros c e Hc He Hl Ht. apply elem_of_flagging. split; [done|].
    assert (e ∈ flags store avoid (ing_id i) c) as Hin
      by (by apply elem_of_flags).
    intros Hnil. rewrite Hnil in Hin. by apply elem_of_nil in Hin. }
  assert (Hne : forall j, ing_id j = ing_id i ->
            flagging store avoid (ing_id j) cs <> []).
  { intros j ->. intros Hnil. specialize (Hflag a ea Ha Hea Hlink Hlabel).
    rewrite Hnil in Hflag. by apply elem_of_nil in Hflag. }
  split; [|split].
  - intros r (j & Hj & Hagg)%beneficial_bucket_subset Hid.
    apply aggregate_row in Hagg as (-> & _ & Hnone). simpl in Hid.
    by apply (Hne j Hid), Hnone.
  - intros Hf. exists (row store avoid cs i). split; [|done].
    assert (row store avoid cs i ∈
              sort (byScore localeCompare)
                (bucket avoid (omap (aggregate store cs) (ingredients cat))))
      as Hin.
    { apply elem_of_sorted_bucket. exists i. split; [done|].
      by apply aggregate_avoid, Hne. }
    subst g. unfold Engine.guide. simpl. by destruct f.
  - intros r (j & Hj & Hagg)%avoid_bucket_subset Hid c e Hc He Hl Ht.
    apply aggregate_row in Hagg as (-> & _ & _). simpl in *.
    apply list_elem_of_fmap. exists c. split; [done|].
    rewrite Hid. by apply (Hflag c e).
Qed.

End Resolver.

(** A pantry to run the resolver on: spinach is to avoid with gout and good
    for anaemia, cherries are good for gout. *)
Definition spinach : Ingredient :=
  {| ing_id := 10; ing_slug := js "spinach"; ing_name := js "Spinach";
     ing_category := None; ing_aliases := [] |}.
Definition cherry : Ingredient :=
  {| ing_id := 11; ing_slug := js "cherry"; ing_name := js "Cherry";
     ing_category := None; ing_aliases := [js "cherries"] |}.
Definition gout : Condition :=
  {| cond_id := 1; cond_slug := js "gout"; cond_name := js "Gout";
     cond_category := None; cond_kind := Some (js "chronic");
     cond_duration := None; cond_aliases := [] |}.
Definition anaemia : Condition :=
  {| cond_id := 2; cond_slug := js "anaemia"; cond_name := js "Anaemia";
     cond_category := None; cond_kind := Some (js "chronic");
     cond_duration := None; cond_aliases := [js "anemia"] |}.
Definition pantry : Catalog :=
  {| ingredients := [spinach; cherry]; conditions := [gout; anaemia] |}.

Definition claim (k : Z) (cond ing : Z) (label : string) (ev : Z)
  : V2b.interaction :=
  {| V2b.id := k; V2b.a_type := INGREDIENT; V2b.a_id := ing;
     V2b.b_type := CONDITION; V2b.b_id := cond;
     V2b.itype := Some (js label); V2b.rationale := None;
     V2b.evidence := ev |}.
Definition claims : list V2b.interaction :=
  [claim 1 1 10 "avoid" 4; claim 2 2 10 "benefit" 5; claim 3 1 11 "benefit" 3].

(** The score of a row: the strongest evidence behind it. *)
Definition strongest (es : list V2b.interaction) : text * Z :=
  ([], foldr Z.max 0 (V2b.evidence <$> es)).

Definition asked : Guide :=
  guide asciiLowerCase asciiCompare strongest pantry claims
    [js "GOUT"; js "anemia"; js "scurvy"] all.

Lemma guide_avoid_dominates_witness :
  (diseases asked = [js "Gout"; js "Anaemia"] /\
   (food <$> avoid_bucket asked, affectedDiseases <$> avoid_bucket asked)
     = ([js "Spinach"], [[js "Gout"]]) /\
   food <$> beneficial_bucket asked = [js "Cherry"]) /\
  (forall r, r ∈ beneficial_bucket asked -> item_ingredient r <> 10) /\
  (all <> only_beneficial ->
     exists r, r ∈ avoid_bucket asked /\ item_ingredient r = 10) /\
  (forall r, r ∈ avoid_bucket asked -> item_ingredient r = 10 ->
     forall c e,
       c ∈ resolveAll asciiLowerCase pantry
             [js "GOUT"; js "anemia"; js "scurvy"] [] ->
       e ∈ claims -> links c 10 e -> V2b.itype e = Some (js "avoid") ->
       cond_name c ∈ affectedDiseases r).
Proof.
  split; [by vm_compute|].
  apply (guide_avoid_dominates asciiLowerCase asciiCompare strongest
           pantry claims [js "GOUT"; js "anemia"; js "scurvy"] all
           spinach gout (claim 1 1 10 "avoid" 4)).
  - vm_compute. constructor.
  - vm_compute. constructor.
  - vm_compute. constructor.
  - right. split; reflexivity.
  - reflexivity.
Defined.

(** The filter of the guide: the answer for 'all' holds the avoid bucket of
    the answer for 'avoid' and the beneficial bucket of the answer for
    'beneficial'; each of these two leaves the other bucket empty. *)
Lemma guide_filter_round_trip lower lc summ cat store tokens :
  let answer := Engine.guide lower lc summ cat store tokens in
  avoid_bucket (answer all) = avoid_bucket (answer only_avoid) /\
  beneficial_bucket (answer all) = beneficial_bucket (answer only_beneficial) /\
  beneficial_bucket (answer only_avoid) = [] /\
  avoid_bucket (answer only_beneficial) = [].
Proof. by repeat split. Qed.

End GuideTheorems.

(** ** The filter round trip: one search per filter over the same data *)
Module RoundTripTheorems.
Import Client Engine RowTheorems.

(** Modelled from the spec: the filter the backend reads from what the
    client sends, by the validation of section 7 (see
    [parseFilter_apiFilter]); the backend's controller is missing. *)
Definition filterOf (f : option Filter) : GuideFilter :=
  match f with
  | Some FAvoid => only_avoid
  | Some FBenefit => only_beneficial
  | _ => all
  end.

Lemma parseFilter_apiFilter f : parseFilter (apiFilter f) = inr (filterOf f).
Proof. by destruct f as [[]|]. Qed.

(** [setFilter(f)]: the filter chips set to [f], the rest of the screen as
    it is. *)
Definition setFilter {D} (f : option Filter) (st : SearchState D)
  : SearchState D :=
  {| query := query st; filter := f; loading := loading st;
     result := result st; errorMsg := errorMsg st |}.

(** Modelled from the spec: the error envelope [{ message }] of section 6
    read as an answer, with none of its keys there; the backend's
    serializer is missing. *)
Definition blankGuide : Wellness.DiseaseGuide :=
  {| Wellness.diseases := []; Wellness.avoid := None;
     Wellness.beneficial := None |}.

(** Modelled from the spec: the same envelope read as a compatibility
    answer; the backend's serializer is missing. *)
Definition blankCompatibility : Pairing.CompatibilityResponse :=
  {| Pairing.ingredient := []; Pairing.category := [];
     Pairing.avoid := None; Pairing.beneficial := None |}.

Section Calls.
(** The client's [toLowerCase] and [localeCompare]. *)
Variable toLowerCase : jsstring -> jsstring.
Variable localeCompare : jsstring -> jsstring -> Z.
(** The backend's, its summary of the edges behind a row and the messages
    of its errors. *)
Variable lower : jsstring -> jsstring.
Variable collate : jsstring -> jsstring -> Z.
Variable summarise : list Schema.V2b.interaction -> Schema.text * Z.
Variable messageOf : EngineError -> jsstring.
(** What [encodeURIComponent] throws on a lone surrogate. *)
Variable uriError : JsError.
(** The underlying data. *)
Variable cat : Catalog.
Variable store : list Schema.V2b.interaction.
Variable ledger : list Schema.Source.source.
Variable links : list SchemaMore.Links.interaction_source.

(** Modelled from the spec: how the [try] block of the wellness screen
    goes against the backend of the design document, in the state [st]: the
    request [requestBody] describes is answered by [handleGuide]; the
    backend itself is missing. *)
Definition guideCall (st : SearchState Wellness.DiseaseGuide)
  : FetchOutcome Wellness.DiseaseGuide :=
  match Wellness.requestBody toLowerCase st with
  | Some (ds, s) =>
      respond messageOf guideJson blankGuide
        (handleGuide lower collate summarise cat store ds s)
  | None => Rejects uriError
  end.

(** Modelled from the spec: the same for the pairing screen, whose request
    carries the trimmed query in the path and is answered by
    [handleCompatibility]; when no request is issued and the query is not
    blank, [encodeURIComponent] has thrown.  The backend itself is
    missing. *)
Definition compatibilityCall (st : SearchState Pairing.CompatibilityResponse)
  : FetchOutcome Pairing.CompatibilityResponse :=
  match Pairing.requestFilter st with
  | Some s =>
      respond messageOf compatibilityJson blankCompatibility
        (handleCompatibility lower collate cat store ledger links
           (trim (query st)) s)
  | None => Rejects uriError
  end.

(** The screen after the filter [f] is chosen and the search has run. *)
Definition guideSearch (f : option Filter)
    (st : SearchState Wellness.DiseaseGuide)
  : SearchState Wellness.DiseaseGuide :=
  Wellness.onSearch toLowerCase (setFilter f st) (guideCall (setFilter f st)).

Definition compatibilitySearch (f : option Filter)
    (st : SearchState Pairing.CompatibilityResponse)
  : SearchState Pairing.CompatibilityResponse :=
  Pairing.onSearch (setFilter f st) (compatibilityCall (setFilter f st)).

(** The rows [ResultView] lists: [rowsFromResult(result, filter)], and
    nothing while there is no result. *)
Definition wellnessRows (st : SearchState Wellness.DiseaseGuide)
  : list Wellness.Row :=
  match result st with
  | Some res => Wellness.rowsFromResult localeCompare res (filter st)
  | None => []
  end.

Definition wellnessRows_byName (st : SearchState Wellness.DiseaseGuide)
  : list Wellness.Row :=
  match result st with
  | Some res => Wellness.rowsFromResult_byName localeCompare res (filter st)
  | None => []
  end.

Definition pairingRows (st : SearchState Pairing.CompatibilityResponse)
  : list Pairing.Row :=
  match result st with
  | Some res => Pairing.rowsFromResult localeCompare res (filter st)
  | None => []
  end.

Lemma round_trip_of_eq {R} (rows : option Filter -> list R) :
  rows (Some FAll) = rows (Some FBenefit) ++ rows (Some FAvoid) ->
  rows None = rows (Some FAll) ->
  round_trip rows.
Proof.
  intros Hall Hnone f Hf.
  assert (rows f = rows (Some FBenefit) ++ rows (Some FAvoid)) as ->.
  { destruct (apiFilter_all f Hf) as [-> | ->]; congruence. }
  split; [done|]. split; [apply Permutation_app_comm|].
  intros r. rewrite elem_of_app. tauto.
Qed.

(** The wellness screen after the search, in closed form. *)
Lemma guideSearch_eq f st :
  guideSearch f st =
  match Wellness.requestBody toLowerCase st with
  | Some (ds, _) =>
      {| query := query st; filter := f; loading := false;
         result := Some (guideJson (guide lower collate summarise cat store
                                      ds (filterOf f)));
         errorMsg := None |}
  | None => setFilter f st
  end.
Proof.
  unfold guideSearch, guideCall, Wellness.onSearch, Wellness.requestBody.
  simpl. destruct (truthy (trim (query st))); [|done].
  destruct (Wellness.parseDiseases toLowerCase (trim (query st))); [done|].
  unfold handleGuide. by rewrite parseFilter_apiFilter.
Qed.

(** The pairing screen after the search, in closed form. *)
Lemma compatibilitySearch_eq f st :
  compatibilitySearch f st =
  if truthy (trim (query st)) then
    if isWellFormed (trim (query st)) then
      match compatibility lower collate cat store ledger links
              (trim (query st)) (filterOf f) with
      | inr c =>
          {| query := query st; filter := f; loading := false;
             result := Some (compatibilityJson c); errorMsg := None |}
      | inl e => runSearch (setFilter f st)
                   (respond messageOf compatibilityJson blankCompatibility
                      (inl e))
      end
    else runSearch (setFilter f st) (Rejects uriError)
  else setFilter f st.
Proof.
  unfold compatibilitySearch, compatibilityCall, Pairing.onSearch,
    Pairing.requestFilter.
  simpl. destruct (truthy (trim (query st))); [|done].
  destruct (isWellFormed (trim (query st))); [|done]. simpl.
  unfold handleCompatibility. rewrite parseFilter_apiFilter.
  by destruct (compatibility _ _ _ _ _ _ _ _).
Qed.

Lemma statusOf_not_ok {D} e (b : Body D) :
  ok {| status := statusOf e; body := b |} = false.
Proof. by destruct e. Qed.

(** C5: the same data are searched three times, with the filter chips at
    'all' (or unset), at 'benefit' and at 'avoid'.  Each time the client
    sends its filter, the backend answers for that filter, and the screen
    lists the answer under that filter.  The rows listed for 'all' are the
    rows listed for 'benefit' followed by the rows listed for 'avoid':
    their union, with the same members.  So for the guide in both copies of
    the wellness screen, and for the compatibility of an ingredient in the
    pairing screen.  The searches are separate calls: the answer for 'avoid'
    has an empty beneficial bucket, the answer for 'beneficial' an empty
    avoid bucket, and the result of each search is the answer to it. *)
Theorem filter_round_trip_separate_calls
    (st : SearchState Wellness.DiseaseGuide)
    (st' : SearchState Pairing.CompatibilityResponse) :
  round_trip (fun f => wellnessRows (guideSearch f st)) /\
  round_trip (fun f => wellnessRows_byName (guideSearch f st)) /\
  round_trip (fun f => pairingRows (compatibilitySearch f st')) /\
  (forall f ds s,
     Wellness.requestBody toLowerCase (setFilter f st) = Some (ds, s) ->
     s = apiFilter f /\
     exists g,
       handleGuide lower collate summarise cat store ds s = inr g /\
       result (guideSearch f st) = Some (guideJson g) /\
       (f = Some FAvoid -> beneficial_bucket g = []) /\
       (f = Some FBenefit -> avoid_bucket g = [])) /\
  (forall f s c,
     Pairing.requestFilter (setFilter f st') = Some s ->
     handleCompatibility lower collate cat store ledger links
       (trim (query st')) s = inr c ->
     s = apiFilter f /\
     result (compatibilitySearch f st') = Some (compatibilityJson c) /\
     (f = Some FAvoid -> pair_beneficial c = []) /\
     (f = Some FBenefit -> pair_avoid c = [])).
Proof.
  split; [|split; [|split; [|split]]].
  - apply round_trip_of_eq; rewrite !guideSearch_eq;
      destruct (Wellness.requestBody toLowerCase st) as [[ds s]|];
      unfold wellnessRows; simpl; try reflexivity;
      by destruct (result st).
  - apply round_trip_of_eq; rewrite !guideSearch_eq;
      destruct (Wellness.requestBody toLowerCase st) as [[ds s]|];
      unfold wellnessRows_byName; simpl; try reflexivity;
      by destruct (result st).
  - apply round_trip_of_eq; rewrite !compatibilitySearch_eq;
      destruct (truthy (trim (query st'))).
    + destruct (isWellFormed (trim (query st'))); [|reflexivity].
      unfold compatibility.
      by destruct (resolveIngredient lower cat (trim (query st'))).
    + unfold pairingRows; simpl. by destruct (result st').
    + destruct (isWellFormed (trim (query st'))); [|reflexivity].
      unfold compatibility.
      by destruct (resolveIngredient lower cat (trim (query st'))).
    + unfold pairingRows; simpl. by destruct (result st').
  - intros f ds s Hreq.
    assert (s = apiFilter f /\
            Wellness.requestBody toLowerCase st = Some (ds, apiFilter (filter st)))
      as [-> Hst].
    { revert Hreq. unfold Wellness.requestBody. simpl.
      destruct (truthy (trim (query st))); [|done].
      destruct (Wellness.parseDiseases toLowerCase (trim (query st)));
        [done|]. by intros [= <- <-]. }
    split; [done|]. unfold handleGuide. rewrite parseFilter_apiFilter.
    eexists. split; [done|]. rewrite guideSearch_eq, Hst. simpl.
    split; [done|]. by split; intros ->.
  - intros f s c Hreq Hc.
    assert (s = apiFilter f /\ truthy (trim (query st')) = true /\
            isWellFormed (trim (query st')) = true) as (-> & Ht & Hw).
    { revert Hreq. unfold Pairing.requestFilter. simpl.
      destruct (truthy (trim (query st'))),
               (isWellFormed (trim (query st'))); try done.
      by intros [= <-]. }
    split; [done|]. unfold handleCompatibility in Hc.
    rewrite parseFilter_apiFilter in Hc.
    rewrite compatibilitySearch_eq, Ht, Hw, Hc. simpl. split; [done|].
    unfold compatibility in Hc.
    destruct (resolveIngredient lower cat (trim (query st'))); [|done].
    injection Hc as <-. simpl. by split; intros ->.
Qed.

End Calls.

(** Three searches over the pantry of the guide, for gout and anaemia, and
    three for what goes with spinach. *)
Definition asking {D} (q : string) : SearchState D :=
  {| query := js q; filter := None; loading := false; result := None;
     errorMsg := None |}.

Example round_trip_on_the_pantry :
  let guide f :=
    Wellness._name <$>
      wellnessRows asciiCompare
        (guideSearch asciiLowerCase asciiLowerCase asciiCompare
           GuideTheorems.strongest (fun _ => js "failed")
           (Error (js "URI malformed")) GuideTheorems.pantry
           GuideTheorems.claims f (asking "Gout, anemia")) in
  let pairs f :=
    Pairing.food <$> (Pairing.item <$>
      pairingRows asciiCompare
        (compatibilitySearch asciiLowerCase asciiCompare
           (fun _ => js "failed") (Error (js "URI malformed"))
           GuideTheorems.pantry GuideTheorems.claims [] []
           f (asking " spinach "))) in
  (guide (Some FAll), guide (Some FBenefit), guide (Some FAvoid))
    = ([js "Cherry"; js "Spinach"], [js "Cherry"], [js "Spinach"]) /\
  (pairs (Some FAll), pairs (Some FBenefit), pairs (Some FAvoid))
    = ([Some (js "Anaemia"); Some (js "Gout")], [Some (js "Anaemia")],
       [Some (js "Gout")]).
Proof. split; vm_compute; reflexivity. Qed.

End RoundTripTheorems.

(** * Further properties of the client *)

(** ** [trim] *)
Module TrimFacts.

Abbreviation blank := (fun c => isWhiteSpace c = true).
Abbreviation inked := (fun c => isWhiteSpace c = false).

Lemma trimStart_split s : exists a, s = a ++ trimStart s /\ Forall blank a.
Proof.
  induction s as [|c s (a & Hs & Ha)]; simpl.
  - by exists [].
  - destruct (isWhiteSpace c) eqn:Hc.
    + exists (c :: a). split; [by rewrite Hs at 1 | by constructor].
    + by exists [].
Qed.

Lemma trimStart_head s :
  trimStart s = [] \/ exists c r, trimStart s = c :: r /\ isWhiteSpace c = false.
Proof.
  induction s as [|c s IH]; simpl; [by left|].
  destruct (isWhiteSpace c) eqn:Hc; [done|]. right. eauto.
Qed.

Lemma trimStart_inked c r :
  isWhiteSpace c = false -> trimStart (c :: r) = c :: r.
Proof. intros Hc. simpl. by rewrite Hc. Qed.

Lemma trimStart_snoc s c :
  isWhiteSpace c = false -> trimStart (s ++ [c]) = trimStart s ++ [c].
Proof.
  intros Hc. induction s as [|x s IH]; simpl; [by rewrite Hc|].
  by destruct (isWhiteSpace x).
Qed.

(** What [trim] returns is the input without a blank stretch at each end,
    and neither starts nor ends with a blank. *)
Lemma trim_split s :
  exists a b, s = a ++ trim s ++ b /\ Forall blank a /\ Forall blank b.
Proof.
  destruct (trimStart_split s) as (a & Hs & Ha).
  destruct (trimStart_split (reverse (trimStart s))) as (b & Hb & Hbb).
  exists a, (reverse b). split; [|split; [done | by apply Forall_reverse]].
  unfold trim, trimEnd. rewrite <- reverse_app, <- Hb, reverse_involutive.
  exact Hs.
Qed.

Lemma trimStart_idemp s : trimStart (trimStart s) = trimStart s.
Proof.
  destruct (trimStart_head s) as [-> | (c & r & -> & Hc)]; [done|].
  by apply trimStart_inked.
Qed.

Lemma trimEnd_idemp s : trimEnd (trimEnd s) = trimEnd s.
Proof. unfold trimEnd. by rewrite reverse_involutive, trimStart_idemp. Qed.

Lemma trimEnd_cons c r :
  isWhiteSpace c = false -> trimEnd (c :: r) = c :: trimEnd r.
Proof.
  intros Hc. unfold trimEnd.
  by rewrite reverse_cons, trimStart_snoc, reverse_snoc.
Qed.

Lemma trim_idemp s : trim (trim s) = trim s.
Proof.
  unfold trim.
  destruct (trimStart_head s) as [He | (c & r & He & Hc)]; rewrite He.
  - reflexivity.
  - rewrite trimEnd_cons by done. rewrite trimStart_inked by done.
    by rewrite trimEnd_cons, trimEnd_idemp.
Qed.

Lemma trim_nonempty s : trim s <> [] <-> Exists inked s.
Proof.
  destruct (trim_split s) as (a & b & Hs & Ha & Hb). split.
  - intros Hne. destruct (trimStart_head s) as [He | (c & r & He & Hc)].
    + unfold trim, trimEnd in Hne. by rewrite He in Hne.
    + destruct (trimStart_split s) as (a' & Hs' & _).
      rewrite Hs', He. apply Exists_app. right. by constructor.
  - intros Hex Hnil. rewrite Hnil in Hs. simpl in Hs. subst s.
    apply Exists_exists in Hex as (c & Hin & Hc).
    assert (isWhiteSpace c = true); [|congruence].
    apply elem_of_app in Hin as [Hin | Hin];
      [eapply Forall_forall in Ha | eapply Forall_forall in Hb]; eauto.
Qed.

End TrimFacts.

(** ** Recent searches *)
Module RecentsTheorems.
Import Recents TrimFacts.

Section Recents.
Variable toLowerCase : jsstring -> jsstring.
Variable MAX_RECENTS : nat.

Abbreviation addRecent := (addRecent toLowerCase MAX_RECENTS).
Abbreviation differs := (differs toLowerCase).
Abbreviation after := (after toLowerCase MAX_RECENTS).

Lemma Forall_of_sublist {A} (P : A -> Prop) (l1 l2 : list A) :
  l1 `sublist_of` l2 -> Forall P l2 -> Forall P l1.
Proof.
  intros Hsub Hall. apply Forall_forall. intros x Hx.
  eapply Forall_forall; [exact Hall|]. by eapply elem_of_sublist.
Qed.

Lemma filter_differs_sublist t l : List.filter (differs t) l `sublist_of` l.
Proof.
  induction l as [|x l IH]; simpl; [done|].
  destruct (differs t x); by constructor.
Qed.

Lemma filter_differs_elem t l x :
  x ∈ List.filter (differs t) l -> x ∈ l /\ toLowerCase x <> toLowerCase t.
Proof.
  rewrite list_elem_of_In, filter_In, <- list_elem_of_In.
  unfold Recents.differs. rewrite negb_true_iff, bool_decide_eq_false. done.
Qed.

Lemma filter_differs_id t l :
  (forall x, x ∈ l -> toLowerCase x <> toLowerCase t) ->
  List.filter (differs t) l = l.
Proof.
  induction l as [|x l IH]; intros H; simpl; [done|].
  unfold Recents.differs at 1.
  rewrite bool_decide_eq_false_2 by (apply H; by left). simpl.
  f_equal. apply IH. intros y Hy. apply H. by right.
Qed.

(** The list after a search is added: the search first, then the earlier
    ones that differ from it, cut to the maximum. *)
Lemma addRecent_inked r text :
  trim text <> [] ->
  addRecent r text =
    take MAX_RECENTS (trim text :: List.filter (differs (trim text)) r).
Proof. unfold Recents.addRecent. by destruct (trim text). Qed.

Lemma addRecent_blank r text : trim text = [] -> addRecent r text = r.
Proof. unfold Recents.addRecent. by intros ->. Qed.

(** What every list of recent searches keeps. *)
Definition tidy (r : list jsstring) : Prop :=
  (length r <= MAX_RECENTS)%nat /\
  NoDup (toLowerCase <$> r) /\
  Forall (fun x => x <> [] /\ trim x = x) r.

Lemma addRecent_tidy r text : tidy r -> tidy (addRecent r text).
Proof.
  intros (Hlen & Hnd & Hall).
  destruct (decide (trim text = [])) as [He | Hne];
    [by rewrite addRecent_blank|].
  rewrite addRecent_inked by done.
  set (l := trim text :: List.filter (differs (trim text)) r).
  assert (Hl : NoDup (toLowerCase <$> l) /\
               Forall (fun x => x <> [] /\ trim x = x) l).
  { split.
    - subst l. rewrite fmap_cons. constructor.
      + intros (x & Heq & Hx%filter_differs_elem)%list_elem_of_fmap.
        destruct Hx as [_ Hx]. congruence.
      + eapply sublist_NoDup; [exact Hnd|].
        apply fmap_sublist, filter_differs_sublist.
    - constructor; [split; [done | apply trim_idemp]|].
      eapply Forall_of_sublist; [|exact Hall]. apply filter_differs_sublist. }
  destruct Hl as [Hnd' Hall']. split; [|split].
  - rewrite length_take. lia.
  - eapply sublist_NoDup; [exact Hnd'|]. apply fmap_sublist, sublist_take.
  - by apply Forall_take.
Qed.

(** X1: however searches are added and the list cleared, starting from
    the empty list, the recent searches never exceed MAX_RECENTS, never
    hold two entries equal up to case, and hold only trimmed, non-empty
    texts. *)
Theorem recents_stay_tidy (es : list event) :
  let r := foldl after [] es in
  (length r <= MAX_RECENTS)%nat /\
  NoDup (toLowerCase <$> r) /\
  Forall (fun x => x <> [] /\ trim x = x) r.
Proof.
  simpl. change (tidy (foldl after [] es)).
  assert (tidy []) as H0.
  { split; [simpl; lia|]. split; constructor. }
  revert H0. generalize (@nil jsstring).
  induction es as [|e es IH]; intros r Hr; simpl; [done|].
  apply IH. destruct e; simpl; [by apply addRecent_tidy|].
  split; [simpl; lia|]. split; constructor.
Qed.

(** X2: a search that is not blank goes to the front of the recent
    searches, trimmed; behind it come earlier searches in their order, none
    of them equal to it up to case.  A blank search changes nothing. *)
Theorem addRecent_front (r : list jsstring) (text : jsstring) :
  (0 < MAX_RECENTS)%nat ->
  (trim text <> [] ->
     exists rest, addRecent r text = trim text :: rest /\
                  rest `sublist_of` r /\
                  forall x, x ∈ rest ->
                    toLowerCase x <> toLowerCase (trim text)) /\
  (trim text = [] -> addRecent r text = r).
Proof.
  intros Hmax. split; [|apply addRecent_blank].
  intros Hne. rewrite addRecent_inked by done.
  destruct MAX_RECENTS as [|n]; [lia|]. simpl.
  exists (take n (List.filter (differs (trim text)) r)). split; [done|]. split.
  - etrans; [apply sublist_take | apply filter_differs_sublist].
  - intros x Hx. eapply filter_differs_elem, elem_of_sublist; [exact Hx|].
    apply sublist_take.
Qed.

(** X3: adding the same search twice in a row gives the list that adding
    it once gives. *)
Theorem addRecent_twice (r : list jsstring) (text : jsstring) :
  addRecent (addRecent r text) text = addRecent r text.
Proof.
  destruct (decide (trim text = [])) as [He | Hne];
    [by rewrite !addRecent_blank|].
  rewrite (addRecent_inked r) by done.
  rewrite addRecent_inked by done.
  destruct MAX_RECENTS as [|n]; [done|]. simpl. f_equal.
  unfold Recents.differs at 1.
  rewrite bool_decide_eq_true_2 by done. simpl.
  rewrite filter_differs_id.
  - by rewrite take_take, Nat.min_id.
  - intros x Hx. eapply filter_differs_elem, elem_of_sublist; [exact Hx|].
    apply sublist_take.
Qed.

End Recents.

Lemma addRecent_front_witness :
  (0 < 4)%nat /\
  Recents.addRecent asciiLowerCase 4
    [js "milk"; js "Tea"; js "rice"; js "egg"] (js "  TEA ")
  = [js "TEA"; js "milk"; js "rice"; js "egg"] /\
  Recents.addRecent asciiLowerCase 4
    [js "milk"; js "Tea"; js "rice"; js "egg"] (js "kiwi")
  = [js "kiwi"; js "milk"; js "Tea"; js "rice"] /\
  exists rest,
    Recents.addRecent asciiLowerCase 4 [js "milk"; js "Tea"] (js "  TEA ")
      = trim (js "  TEA ") :: rest /\
    rest `sublist_of` [js "milk"; js "Tea"] /\
    forall x, x ∈ rest ->
      asciiLowerCase x <> asciiLowerCase (trim (js "  TEA ")).
Proof.
  split; [lia|]. split; [reflexivity|]. split; [reflexivity|].
  apply (addRecent_front asciiLowerCase 4 [js "milk"; js "Tea"] (js "  TEA ")
           ltac:(lia)).
  discriminate.
Defined.

End RecentsTheorems.

(** ** The badge over a result *)
Module HeaderTheorems.
Import Client Header RowTheorems.

Lemma sort_nil_iff {A} (cmp : A -> A -> Z) (l : list A) :
  sort cmp l = [] <-> l = [].
Proof.
  split; [|by intros ->]. intros H.
  apply Permutation_nil_r. by rewrite <- H, sort_Permutation.
Qed.

Lemma fmap_nil_iff {A B} (f : A -> B) (l : list A) : f <$> l = [] <-> l = [].
Proof. split; [apply fmap_nil_inv | by intros ->]. Qed.

Lemma positive_length {A} (l : list A) : (0 <? length l)%nat = true <-> l <> [].
Proof. destruct l; simpl; split; done. Qed.

Section Shape.
Context {R I : Type} (mk : Kind -> I -> R) (cmp : R -> R -> Z).

(** The tone, on the two buckets. *)
Definition toneOf (goods bads : list I) (f : option Filter) : Tone :=
  if bool_decide (f = Some FAvoid) && (0 <? length bads)%nat then tone bad
  else if (0 <? length goods)%nat then tone good
  else if (0 <? length bads)%nat then tone bad
  else neutral.

Lemma rows_of_nil goods bads f :
  rows_of mk cmp goods bads f = [] <->
  match f with
  | Some FBenefit => goods = []
  | Some FAvoid => bads = []
  | _ => goods = [] /\ bads = []
  end.
Proof.
  destruct f as [[]|]; simpl;
    rewrite ?app_nil, !sort_nil_iff, !fmap_nil_iff; done.
Qed.

Lemma toneOf_rows goods bads f :
  (toneOf goods bads f = neutral <-> rows_of mk cmp goods bads None = []) /\
  (f = Some FAvoid ->
     (toneOf goods bads f = tone bad <-> rows_of mk cmp goods bads f <> [])) /\
  (f = Some FBenefit ->
     (toneOf goods bads f = tone good <-> rows_of mk cmp goods bads f <> [])) /\
  (f = Some FBenefit -> rows_of mk cmp goods bads f = [] -> bads <> [] ->
     toneOf goods bads f = tone bad) /\
  (f = Some FAvoid -> rows_of mk cmp goods bads f = [] -> goods <> [] ->
     toneOf goods bads f = tone good).
Proof.
  unfold toneOf. rewrite !rows_of_nil.
  destruct f as [[]|], goods as [|g goods], bads as [|b bads]; simpl;
    repeat case_bool_decide; simpl;
    intuition (try discriminate; try congruence).
Qed.

End Shape.

(** X4: the badge is 'neutral' exactly when the listing for 'all' is
    empty.  Under the filter 'avoid' it says 'bad' exactly when rows are
    listed, and under 'benefit' it says 'good' exactly when rows are listed;
    when nothing is listed but the other bucket of the response is not
    empty, the badge takes the tone of that other bucket.  So in the
    pairing screen and in the wellness screen. *)
Theorem header_tone_and_rows (lc : jsstring -> jsstring -> Z)
    (f : option Filter) :
  (forall res,
     let rows := Pairing.rowsFromResult lc res in
     (pairingTone res f = neutral <-> rows None = []) /\
     (f = Some FAvoid -> (pairingTone res f = tone bad <-> rows f <> [])) /\
     (f = Some FBenefit -> (pairingTone res f = tone good <-> rows f <> [])) /\
     (f = Some FBenefit -> rows f = [] ->
        default [] (Pairing.avoid res) <> [] -> pairingTone res f = tone bad) /\
     (f = Some FAvoid -> rows f = [] ->
        default [] (Pairing.beneficial res) <> [] ->
        pairingTone res f = tone good)) /\
  (forall res,
     let rows := Wellness.rowsFromResult lc res in
     (wellnessTone res f = neutral <-> rows None = []) /\
     (f = Some FAvoid -> (wellnessTone res f = tone bad <-> rows f <> [])) /\
     (f = Some FBenefit -> (wellnessTone res f = tone good <-> rows f <> [])) /\
     (f = Some FBenefit -> rows f = [] ->
        default [] (Wellness.avoid res) <> [] ->
        wellnessTone res f = tone bad) /\
     (f = Some FAvoid -> rows f = [] ->
        default [] (Wellness.beneficial res) <> [] ->
        wellnessTone res f = tone good)) /\
  (forall res,
     let rows := Wellness.rowsFromResult_byName lc res in
     (wellnessTone res f = neutral <-> rows None = []) /\
     (f = Some FAvoid -> (wellnessTone res f = tone bad <-> rows f <> [])) /\
     (f = Some FBenefit -> (wellnessTone res f = tone good <-> rows f <> []))).
Proof.
  split; [|split]; intros res; cbv zeta.
  - rewrite !pairing_rows. apply toneOf_rows.
  - rewrite !wellness_rows. apply toneOf_rows.
  - rewrite !wellness_rows_byName.
    pose proof (toneOf_rows (fun k x => Wellness.toRow k x)
      (fun a b => Wellness.byName lc (Wellness.item a) (Wellness.item b))
      (default [] (Wellness.beneficial res))
      (default [] (Wellness.avoid res)) f) as (H1 & H2 & H3 & _).
    done.
Qed.

End HeaderTheorems.

(** ** Tokens, blanks and separators *)
Module TokenFacts.
Import Client Client.Wellness TokenTheorems TrimFacts.

Lemma blank_is_sep c : isWhiteSpace c = true -> isSeparator c = true.
Proof. intros H. unfold isSeparator. rewrite H. apply orb_true_r. Qed.

Lemma tokens_of_gap g s ts :
  Forall is_sep g -> tokens_of s ts -> tokens_of (g ++ s) ts.
Proof.
  induction 1 as [|c g Hc _ IH]; intros Hs; simpl; [done|].
  apply tokens_of_sep; auto.
Qed.

Lemma tokens_of_trail s ts g :
  tokens_of s ts -> Forall is_sep g -> tokens_of (s ++ g) ts.
Proof.
  intros Hs Hg.
  induction Hs as [gap Hgap | gap t rest ts Hgap Ht Hns Hrest Hts IH].
  - apply tokens_end. by apply Forall_app.
  - rewrite <- !app_assoc. apply tokens_next; auto.
    destruct Hrest as [-> | (c & r & -> & Hc)].
    + simpl. destruct Hg as [|c g Hc _]; [by left | right; eauto].
    + right. simpl. eauto.
Qed.

Lemma tokens_of_none s : tokens_of s [] <-> Forall is_sep s.
Proof.
  split; [|apply tokens_end].
  intros H. remember [] as ts eqn:Hts. by destruct H.
Qed.

Lemma parts_nil s : parts s = [] <-> Forall is_sep s.
Proof.
  rewrite <- tokens_of_none. split.
  - intros <-. apply parts_tokens.
  - intros H. by apply (tokens_of_unique s); [apply parts_tokens|].
Qed.

(** Blanks around the input do not change the tokens. *)
Lemma parts_trim s : parts (trim s) = parts s.
Proof.
  destruct (trim_split s) as (a & b & Hs & Ha & Hb).
  apply (tokens_of_unique s); [|apply parts_tokens].
  rewrite Hs at 1. apply tokens_of_gap.
  { eapply Forall_impl; [exact Ha|]. apply blank_is_sep. }
  apply tokens_of_trail; [apply parts_tokens|].
  eapply Forall_impl; [exact Hb|]. apply blank_is_sep.
Qed.

Lemma dedupe_nil lower ps : dedupe lower ps ∅ [] = [] <-> ps = [].
Proof.
  rewrite dedupe_firsts. simpl. split; [|by intros ->].
  destruct ps as [|p ps]; [done|]. simpl.
  destruct (decide _) as [H|_]; [by apply not_elem_of_empty in H | done].
Qed.

Lemma parseDiseases_nil lower s :
  parseDiseases lower s = [] <-> Forall is_sep s.
Proof. unfold parseDiseases. by rewrite dedupe_nil, parts_nil. Qed.

Lemma parseDiseases_trim lower s :
  parseDiseases lower (trim s) = parseDiseases lower s.
Proof. unfold parseDiseases. by rewrite parts_trim. Qed.

End TokenFacts.

(** ** Around [onSearch] *)
Module SearchMore.
Import Client Buttons TokenTheorems TrimFacts TokenFacts SearchTheorems.



Lemma canSearch_spec {D} (st : SearchState D) :
  canSearch st = true <-> Exists inked (query st).
Proof.
  unfold canSearch. rewrite <- trim_nonempty.
  by destruct (trim (query st)).
Qed.

Lemma truthy_trim s : truthy (trim s) = true <-> Exists inked s.
Proof. rewrite <- trim_nonempty. apply truthy_nonempty. Qed.

Lemma non_sep_inked s : Exists non_sep s -> Exists inked s.
Proof.
  intros H. eapply Exists_impl; [exact H|]. intros c Hc.
  destruct (isWhiteSpace c) eqn:Hw; [|done].
  pose proof (blank_is_sep c Hw). simpl in *. congruence.
Qed.

Lemma not_all_true {A} (p : A -> bool) (l : list A) :
  ~ Forall (fun c => p c = true) l <-> Exists (fun c => p c = false) l.
Proof.
  induction l as [|c l IH].
  - split; [intros H; destruct H; constructor | by inversion 1].
  - rewrite Forall_cons, Exists_cons, <- IH.
    destruct (p c); intuition congruence.
Qed.

Lemma requestBody_spec lower (st : SearchState Wellness.DiseaseGuide) :
  Wellness.requestBody lower st =
    match Wellness.parseDiseases lower (query st) with
    | [] => None
    | ds => Some (ds, apiFilter (filter st))
    end.
Proof.
  unfold Wellness.requestBody. rewrite parseDiseases_trim.
  destruct (truthy (trim (query st))) eqn:Ht; [done|].
  assert (Wellness.parseDiseases lower (query st) = []) as ->; [|done].
  apply parseDiseases_nil. apply dec_stable. intros Hn.
  apply not_all_true, non_sep_inked, truthy_trim in Hn. congruence.
Qed.

(** Without a request, [onSearch] leaves the state alone. *)
Lemma pairing_idle (st : SearchState Pairing.CompatibilityResponse) o :
  canSearch st = false -> Pairing.onSearch st o = st.
Proof.
  intros Hc. unfold Pairing.onSearch.
  destruct (truthy (trim (query st))) eqn:Ht; [|done].
  apply truthy_trim, canSearch_spec in Ht. congruence.
Qed.

Lemma wellness_idle lower (st : SearchState Wellness.DiseaseGuide) o :
  Wellness.requestBody lower st = None -> Wellness.onSearch lower st o = st.
Proof. intros Hnone. unfold Wellness.onSearch. by rewrite Hnone. Qed.

Lemma wellness_issues lower (st : SearchState Wellness.DiseaseGuide) :
  Wellness.requestBody lower st <> None <-> Exists non_sep (query st).
Proof.
  rewrite requestBody_spec, <- not_all_true, <- (parseDiseases_nil lower).
  by destruct (Wellness.parseDiseases lower (query st)).
Qed.


(** X7: a recent search is tapped while the input holds nothing to
    search: no search runs, whatever the entry; only the query changes.
    Tapped again, the same entry (one that can be searched) is searched:
    the state is that of a search with the entry as the query. *)
Theorem press_recent_searches_old_query (lower : jsstring -> jsstring)
    (item : jsstring) :
  (forall st o,
     canSearch st = false ->
     pairingPressRecent item st o =
       {| query := item; filter := filter st; loading := loading st;
          result := result st; errorMsg := errorMsg st |}) /\
  (forall st o1 o2,
     Exists inked item ->
     pairingPressRecent item (pairingPressRecent item st o1) o2 =
       runSearch (pairingPressRecent item st o1) o2) /\
  (forall st o,
     Wellness.requestBody lower st = None ->
     wellnessPressRecent lower item st o =
       {| query := item; filter := filter st; loading := loading st;
          result := result st; errorMsg := errorMsg st |}) /\
  (forall st o1 o2,
     Exists non_sep item ->
     wellnessPressRecent lower item (wellnessPressRecent lower item st o1) o2 =
       runSearch (wellnessPressRecent lower item st o1) o2).
Proof.
  split; [|split; [|split]].
  - intros st o Hc. unfold pairingPressRecent. by rewrite pairing_idle.
  - intros st o1 o2 Hitem. set (st1 := pairingPressRecent item st o1).
    unfold pairingPressRecent at 1. unfold Pairing.onSearch.
    assert (truthy (trim (query st1)) = true) as ->
      by (by apply truthy_trim).
    unfold runSearch. by destruct (fetchData o2).
  - intros st o Hnone. unfold wellnessPressRecent. by rewrite wellness_idle.
  - intros st o1 o2 Hitem. set (st1 := wellnessPressRecent lower item st o1).
    unfold wellnessPressRecent at 1. unfold Wellness.onSearch.
    destruct (Wellness.requestBody lower st1) eqn:Hreq.
    + unfold runSearch. by destruct (fetchData o2).
    + exfalso. by apply (proj2 (wellness_issues lower st1)).
Qed.

End SearchMore.

(** ** The title of a result and the tokenizer *)
Module TitleTheorems.
Import Client Client.Wellness Header TokenTheorems TokenFacts.

Lemma tokens_of_join ts :
  Forall (fun t => t <> [] /\ Forall non_sep t) ts ->
  tokens_of (join (js ", ") ts) ts.
Proof.
  induction 1 as [|t ts [Ht Hns] Hts IH]; [apply tokens_end; constructor|].
  destruct ts as [|t' ts].
  - simpl. replace t with ([] ++ t ++ []) at 1 by (simpl; apply app_nil_r).
    apply tokens_next; auto.
  - change (join (js ", ") (t :: t' :: ts))
      with ([] ++ t ++ js ", " ++ join (js ", ") (t' :: ts)).
    apply tokens_next; auto.
    + right. by exists 44%N, (32%N :: join (js ", ") (t' :: ts)).
    + apply (tokens_of_gap (js ", ")); [by repeat constructor | done].
Qed.

Section Lower.
Variable toLowerCase : jsstring -> jsstring.

Lemma firsts_id ts seen :
  NoDup (toLowerCase <$> ts) ->
  (forall t, t ∈ ts -> toLowerCase t ∉ seen) ->
  firsts toLowerCase ts seen = ts.
Proof.
  revert seen. induction ts as [|t ts IH]; intros seen Hnd Hseen; [done|].
  simpl. rewrite fmap_cons in Hnd. apply NoDup_cons in Hnd as [Ht Hnd].
  destruct (decide _) as [Hin | _].
  { exfalso. apply (Hseen t); [by left | done]. }
  f_equal. apply IH; [done|]. intros x Hx.
  rewrite not_elem_of_union, not_elem_of_singleton. split.
  - intros Heq. apply Ht. rewrite <- Heq. by apply list_elem_of_fmap_2.
  - apply Hseen. by right.
Qed.

(** X8: the tokens the tokenizer returns, joined with ", " as in the
    title of a result, are returned unchanged when tokenized again; blanks
    around an input do not change its tokens. *)
Theorem parseDiseases_of_title (input : jsstring) :
  parseDiseases toLowerCase
    (join (js ", ") (parseDiseases toLowerCase input))
    = parseDiseases toLowerCase input /\
  parseDiseases toLowerCase (trim input) = parseDiseases toLowerCase input /\
  (forall res query,
     diseases res = parseDiseases toLowerCase input ->
     diseases res <> [] ->
     parseDiseases toLowerCase (titleOf res query) = diseases res).
Proof.
  assert (Hfix : parseDiseases toLowerCase
                   (join (js ", ") (parseDiseases toLowerCase input))
                 = parseDiseases toLowerCase input).
  { set (out := parseDiseases toLowerCase input).
    assert (Hout : out = firsts toLowerCase (parts input) ∅)
      by (unfold out, parseDiseases; by rewrite dedupe_firsts).
    assert (Hall : Forall (fun t => t <> [] /\ Forall non_sep t) out).
    { eapply RecentsTheorems.Forall_of_sublist;
        [rewrite Hout; apply firsts_sublist|].
      eapply Forall_impl; [apply (tokens_of_trimmed input), parts_tokens|].
      intros t (? & ? & _). done. }
    assert (Hparts : parts (join (js ", ") out) = out).
    { apply (tokens_of_unique (join (js ", ") out));
        [apply parts_tokens | by apply tokens_of_join]. }
    unfold parseDiseases at 1. rewrite dedupe_firsts, Hparts. simpl.
    apply firsts_id.
    - rewrite Hout. apply firsts_NoDup.
    - intros t _. apply not_elem_of_empty. }
  split; [done|]. split; [apply parseDiseases_trim|].
  intros res query Hd Hne. unfold titleOf.
  destruct (diseases res) as [|d ds] eqn:Hds; [done|].
  rewrite Hd. exact Hfix.
Qed.

End Lower.
End TitleTheorems.

(** ** The recipe panel *)
Module RecipeTheorems.
Import Client Recipe SearchTheorems.
#[local] Arguments js : simpl never.

Section Json.
Variable number : Type.
Variable nonzero : number -> bool.
Variable JSON_parse : json number -> option (json number).

Abbreviation recipeOfText := (recipeOfText nonzero JSON_parse).
Abbreviation onGenerateRecipe := (onGenerateRecipe nonzero JSON_parse).
Abbreviation recipeObj := (recipeObj nonzero JSON_parse).

Lemma recipeCaught_Error msg : msg <> [] -> recipeCaught (Error msg) = msg.
Proof. intros H. unfold recipeCaught. simpl. by apply or_else_Some. Qed.

Lemma recipeCaught_nonempty e : recipeCaught e <> [].
Proof. apply or_else_nonempty. discriminate. Qed.

Lemma recipeOfText_message raw msg : recipeOfText raw = inl msg -> msg <> [].
Proof.
  unfold Recipe.recipeOfText.
  destruct (JSON_parse (JString raw)) as [parsed|]; [|by intros [= <-]].
  match goal with |- context [match ?x with Some _ => _ | None => _ end] =>
    destruct x as [o|] end; [|by intros [= <-]].
  destruct (prop "title" (Some o)) as [t|]; [|by intros [= <-]].
  destruct (prop "ingredients" (Some o)) as [[]|]; try by intros [= <-].
  destruct (prop "steps" (Some o)) as [[]|]; try by intros [= <-].
  destruct (truthy_json nonzero t); [done | by intros [= <-]].
Qed.

Lemma recipeOfText_checked raw r :
  recipeOfText raw = inr r ->
  truthy_json nonzero (title r) = true /\
  exists parsed, JSON_parse (JString raw) = Some parsed.
Proof.
  unfold Recipe.recipeOfText.
  destruct (JSON_parse (JString raw)) as [parsed|]; [|done].
  match goal with |- context [match ?x with Some _ => _ | None => _ end] =>
    destruct x as [o|] end; [|done].
  destruct (prop "title" (Some o)) as [t|]; [|done].
  destruct (prop "ingredients" (Some o)) as [[]|]; try done.
  destruct (prop "steps" (Some o)) as [[]|]; try done.
  destruct (truthy_json nonzero t) eqn:Ht; [|done].
  intros [= <-]. simpl. eauto.
Qed.

(** X10: [onGenerateRecipe] does nothing under the filter 'avoid'.
    Without a named beneficial item it sends nothing and reports that there
    is nothing to build a recipe from.  Otherwise, however the request
    ends, the spinner is off afterwards and the panel holds either a recipe
    and no error, or no recipe and an error message that is not empty; the
    status of any response is kept, and a status outside 200..299 gives
    "AI error <status>: <text of the response>". *)
Theorem recipe_request_ends (f : option Filter)
    (res : Wellness.DiseaseGuide) (p : Panel number) (o : AiOutcome) :
  let p' := onGenerateRecipe f res p o in
  (f = Some FAvoid -> p' = p) /\
  (f <> Some FAvoid -> beneficialNames res = [] ->
     p' = {| recipe := None; recipeLoading := recipeLoading p;
             recipeErr :=
               Some (js "No beneficial ingredients found to build a recipe.");
             debugStatus := debugStatus p; debugRaw := debugRaw p |}) /\
  (f <> Some FAvoid -> beneficialNames res <> [] ->
     recipeLoading p' = false /\
     ((exists r, recipe p' = Some r /\ recipeErr p' = None) \/
      (exists m, recipe p' = None /\ recipeErr p' = Some m /\ m <> [])) /\
     (forall status text, o = AiResolves status text ->
        debugStatus p' = Some status) /\
     (forall status raw, o = AiResolves status (inr raw) ->
        ((200 <=? status) && (status <=? 299))%N = false ->
        recipeErr p' =
          Some (js "AI error " ++ digits status ++ js ": " ++ raw))).
Proof.
  simpl. unfold Recipe.onGenerateRecipe. split; [by intros ->|].
  assert (Hallow : f <> Some FAvoid -> allow f = true)
    by (by destruct f as [[]|]).
  split.
  - intros Hf ->. by rewrite (Hallow Hf).
  - intros Hf Hnames. rewrite (Hallow Hf). simpl.
    destruct (beneficialNames res) as [|n ns]; [done|].
    destruct o as [e | status [e | raw]]; simpl.
    + split; [done|]. split; [|split; [done|done]].
      right. eexists. repeat split. apply recipeCaught_nonempty.
    + split; [done|]. split; [|split; [by intros ? ? [= <- _]|done]].
      right. eexists. repeat split. apply recipeCaught_nonempty.
    + destruct ((200 <=? status) && (status <=? 299))%N eqn:Hok; simpl.
      * destruct (recipeOfText raw) as [msg | r] eqn:Hr; simpl.
        { split; [done|]. split; [|split; [by intros ? ? [= <- _]|]].
          - right. eexists. repeat split. apply recipeCaught_nonempty.
          - intros ? ? [= <- <-] H. congruence. }
        { split; [done|]. split; [|split; [by intros ? ? [= <- _]|]].
          - left. eauto.
          - intros ? ? [= <- <-] H. congruence. }
      * split; [done|]. split; [|split; [by intros ? ? [= <- _]|]].
        { right. eexists. repeat split. apply recipeCaught_nonempty. }
        intros ? ? [= <- <-] _. by rewrite recipeCaught_Error.
Qed.

(** X11: a recipe is in the panel after [onGenerateRecipe], under a
    filter other than 'avoid', only if the beneficial bucket has a named
    item, the response had a status in 200..299, its text parsed as JSON,
    and the recipe has a truthy title; the text of the response is kept
    and no error is shown. *)
Theorem recipe_shown_is_checked (f : option Filter)
    (res : Wellness.DiseaseGuide) (p : Panel number) (o : AiOutcome)
    (r : Recipe number) :
  f <> Some FAvoid ->
  recipe (onGenerateRecipe f res p o) = Some r ->
  beneficialNames res <> [] /\
  truthy_json nonzero (title r) = true /\
  recipeErr (onGenerateRecipe f res p o) = None /\
  exists status raw parsed,
    o = AiResolves status (inr raw) /\
    (200 <= status <= 299)%N /\
    JSON_parse (JString raw) = Some parsed /\
    debugRaw (onGenerateRecipe f res p o) = Some raw.
Proof.
  intros Hf. unfold Recipe.onGenerateRecipe.
  assert (allow f = true) as -> by (by destruct f as [[]|]). simpl.
  destruct (beneficialNames res) as [|n ns]; [done|].
  destruct o as [e | status [e | raw]]; simpl; try done.
  destruct ((200 <=? status) && (status <=? 299))%N eqn:Hok; simpl; [|done].
  destruct (recipeOfText raw) as [msg | r'] eqn:Hr; simpl; [done|].
  intros [= ->]. apply recipeOfText_checked in Hr as (Ht & parsed & Hp).
  split; [done|]. split; [done|]. split; [done|].
  exists status, raw, parsed. repeat split; try done.
  - apply andb_true_iff in Hok as [H _]. by apply N.leb_le.
  - apply andb_true_iff in Hok as [_ H]. by apply N.leb_le.
Qed.

(** The recipe as an object wrapped in [{ content: text }] and in
    [{ choices: [{ message: { content: text } }] }]. *)
Definition inContent (text : jsstring) : json number :=
  JObject [(js "content", JString text)].
Definition inChoices (text : jsstring) : json number :=
  JObject [(js "choices",
            JArray [JObject [(js "message",
                              JObject [(js "content", JString text)])]])].

(** X12: let [fields] be an object that has no key [choices] and no key
    [content], and [text], not empty, a JSON text of it.  Then three
    answers lead to the same recipe or to the same error: a text [bare] of
    the object itself, a text [wrapped] of [{ content: text }], and a text
    [chat] of [{ choices: [{ message: { content: text } }] }].  (An object
    that has a [content] string of its own is taken for a wrapper when it
    comes bare: see [recipe_with_a_content_key].) *)
Theorem recipe_shapes_agree (bare wrapped chat text : jsstring)
    (fields : list (jsstring * json number)) :
  text <> [] ->
  JSON_parse (JString text) = Some (JObject fields) ->
  prop "choices" (Some (JObject fields)) = None ->
  prop "content" (Some (JObject fields)) = None ->
  JSON_parse (JString bare) = Some (JObject fields) ->
  JSON_parse (JString wrapped) = Some (inContent text) ->
  JSON_parse (JString chat) = Some (inChoices text) ->
  recipeOfText wrapped = recipeOfText bare /\
  recipeOfText chat = recipeOfText bare.
Proof.
  intros Htext Hparse Hch Hco Hbare Hwrapped Hchat.
  assert (Hb : recipeObj (JObject fields) = JObject fields).
  { unfold Recipe.recipeObj, choiceContent. by rewrite Hch, Hco. }
  assert (Hw : recipeObj (inContent text) = JObject fields).
  { unfold Recipe.recipeObj, choiceContent, parsedOrSelf.
    replace (prop "choices" (Some (inContent text)))
      with (@None (json number)) by reflexivity.
    replace (prop "content" (Some (inContent text)))
      with (Some (@JString number text)) by reflexivity.
    by rewrite Hparse. }
  assert (Hc : recipeObj (inChoices text) = JObject fields).
  { unfold Recipe.recipeObj, choiceContent, parsedOrSelf.
    replace (prop "choices" (Some (inChoices text)))
      with (Some (@JArray number
              [JObject [(js "message",
                         JObject [(js "content", JString text)])]]))
      by reflexivity.
    replace (prop "content" (prop "message" (head
               [@JObject number [(js "message",
                          JObject [(js "content", JString text)])]])))
      with (Some (@JString number text)) by reflexivity.
    cbn [truthy_json]. rewrite (proj2 (truthy_nonempty text) Htext).
    by rewrite Hparse. }
  unfold Recipe.recipeOfText.
  rewrite Hbare, Hwrapped, Hchat. fold recipeObj. by rewrite Hb, Hw, Hc.
Qed.

End Json.

(** To run the panel: integers for numbers, and a stand-in for
    [JSON.parse] that knows three texts, the recipe and its two
    wrappings. *)
Definition soup : json Z :=
  JObject [(js "title", JString (js "Kale soup"));
           (js "servings", JNumber 2);
           (js "ingredients", JArray [JObject [(js "item", JString (js "kale"))]]);
           (js "steps", JArray [JString (js "Simmer.")])].

Definition parseKnown (v : json Z) : option (json Z) :=
  match v with
  | JString s =>
      if decide (s = js "SOUP") then Some soup
      else if decide (s = js "WRAPPED") then Some (inContent Z (js "SOUP"))
      else if decide (s = js "CHAT") then Some (inChoices Z (js "SOUP"))
      else None
  | _ => None
  end.

Definition idlePanel : Panel Z :=
  {| recipe := None; recipeLoading := false; recipeErr := None;
     debugStatus := None; debugRaw := None |}.

Definition soupRecipe : Recipe.Recipe Z :=
  {| title := JString (js "Kale soup"); servings := Some (JNumber 2);
     ingredients := [JObject [(js "item", JString (js "kale"))]];
     steps := [JString (js "Simmer.")] |}.

Lemma recipe_shown_is_checked_witness :
  recipe (onGenerateRecipe (fun z => negb (z =? 0)) parseKnown None
            OrderTheorems.two_items idlePanel
            (AiResolves 200 (inr (js "CHAT")))) = Some soupRecipe /\
  beneficialNames OrderTheorems.two_items <> [] /\
  truthy_json (fun z => negb (z =? 0)) (title soupRecipe) = true.
Proof.
  assert (H : recipe (onGenerateRecipe (fun z => negb (z =? 0)) parseKnown
                        None OrderTheorems.two_items idlePanel
                        (AiResolves 200 (inr (js "CHAT")))) = Some soupRecipe)
    by (vm_compute; reflexivity).
  split; [exact H|].
  destruct (recipe_shown_is_checked Z (fun z => negb (z =? 0)) parseKnown
              None OrderTheorems.two_items idlePanel
              (AiResolves 200 (inr (js "CHAT"))) soupRecipe
              ltac:(discriminate) H) as (Hn & Ht & _).
  by split.
Defined.

Lemma recipe_shapes_agree_witness :
  recipeOfText (fun z => negb (z =? 0)) parseKnown (js "SOUP")
    = inr soupRecipe /\
  recipeOfText (fun z => negb (z =? 0)) parseKnown (js "WRAPPED")
    = recipeOfText (fun z => negb (z =? 0)) parseKnown (js "SOUP") /\
  recipeOfText (fun z => negb (z =? 0)) parseKnown (js "CHAT")
    = recipeOfText (fun z => negb (z =? 0)) parseKnown (js "SOUP").
Proof.
  split; [vm_compute; reflexivity|].
  apply (recipe_shapes_agree Z (fun z => negb (z =? 0)) parseKnown
           (js "SOUP") (js "WRAPPED") (js "CHAT") (js "SOUP")
           [(js "title", JString (js "Kale soup"));
            (js "servings", JNumber 2);
            (js "ingredients",
             JArray [JObject [(js "item", JString (js "kale"))]]);
            (js "steps", JArray [JString (js "Simmer.")])]);
    try reflexivity.
  discriminate.
Defined.

(** A recipe that has a [content] string of its own: bare, that string is
    taken for the answer and refused; wrapped, the recipe is shown. *)
Definition noted : json Z :=
  JObject [(js "title", JString (js "Kale soup"));
           (js "content", JString (js "serve hot"));
           (js "ingredients", JArray []); (js "steps", JArray [])].

Definition parseNoted (v : json Z) : option (json Z) :=
  match v with
  | JString s =>
      if decide (s = js "NOTED") then Some noted
      else if decide (s = js "WRAPPED") then Some (inContent Z (js "NOTED"))
      else None
  | _ => None
  end.

Example recipe_with_a_content_key :
  recipeOfText (fun z => negb (z =? 0)) parseNoted (js "NOTED")
    = inl (js "AI returned non-JSON text. See Debug Output below.") /\
  recipeOfText (fun z => negb (z =? 0)) parseNoted (js "WRAPPED")
    = inr {| title := JString (js "Kale soup"); servings := None;
             ingredients := []; steps := [] |}.
Proof. split; vm_compute; reflexivity. Qed.

End RecipeTheorems.

(** * Further properties of the schema *)

(** ** Keys of a table *)
Section KeyLemmas.
Context {R : Type} (key : R -> Z).
Implicit Types (l : list R) (r : R).

Lemma elem_of_replace_iff target r' l r :
  r ∈ Schema.replace key target r' l <->
  (r = r' /\ exists x, x ∈ l /\ key x = target) \/
  (r ∈ l /\ key r <> target).
Proof.
  unfold Schema.replace. rewrite list_elem_of_fmap. split.
  - intros (x & -> & Hx). destruct (Z.eqb_spec (key x) target); eauto.
  - intros [(-> & x & Hx & Hk) | (Hr & Hk)].
    + exists x. split; [|done]. by rewrite (proj2 (Z.eqb_eq _ _) Hk).
    + exists r. split; [|done]. by rewrite (proj2 (Z.eqb_neq _ _) Hk).
Qed.

(** The rows below [n] are untouched by adding a row keyed [n] and
    removing it again. *)
Lemma others_snoc_fresh n r l :
  key r = n -> (forall x, x ∈ l -> key x < n) ->
  Schema.others key n (l ++ [r]) = l.
Proof.
  intros Hr Hl. unfold Schema.others. rewrite List.filter_app. simpl.
  rewrite (proj2 (Z.eqb_eq _ _) Hr). simpl. rewrite app_nil_r.
  induction l as [|x l IH]; simpl; [done|].
  rewrite (proj2 (Z.eqb_neq (key x) n)) by (specialize (Hl x); set_solver by lia).
  simpl. f_equal. apply IH. intros y Hy. apply Hl. by right.
Qed.

Lemma others_fresh n l :
  (forall x, x ∈ l -> key x < n) -> Schema.others key n l = l.
Proof.
  intros Hl. unfold Schema.others.
  induction l as [|x l IH]; simpl; [done|].
  rewrite (proj2 (Z.eqb_neq (key x) n)) by (specialize (Hl x); set_solver by lia).
  simpl. f_equal. apply IH. intros y Hy. apply Hl. by right.
Qed.

End KeyLemmas.

(** ** Citation rows, continued *)
Module SourceMore.
Import Schema Schema.Source SourceFacts.

(** Every year stored passed [chk_source_year]. *)
Definition years_checked (t : table source) : Prop :=
  forall r, r ∈ rows t -> chk_source_year (year r) = true.

Lemma checked_year k v rest r :
  checked k v rest = inr r -> chk_source_year (year r) = true.
Proof.
  unfold checked. destruct (v_label v); [|discriminate].
  destruct (negb (from_option _ _ _)); [discriminate|].
  destruct (chk_source_year (v_year v)) eqn:Hy; [|discriminate]. simpl.
  destruct (negb (uq_source_url _ _)); [discriminate|]. by intros [= <-].
Qed.

Lemma exec_years s t : years_checked t -> years_checked (fst (exec s t)).
Proof.
  intros Ht. destruct s as [v | target v | target]; simpl.
  - destruct (checked _ v _) as [e | r] eqn:Hc; simpl; [done|].
    intros x [Hx | ->%list_elem_of_singleton]%elem_of_app; [by apply Ht|].
    by apply checked_year in Hc.
  - destruct (has_key _ _ _); [|done].
    destruct (checked target v _) as [e | r] eqn:Hc; [done|]. simpl.
    intros x [-> | [Hx _]]%elem_of_replace; [|by apply Ht].
    by apply checked_year in Hc.
  - intros x [Hx _]%elem_of_others. by apply Ht.
Qed.

Lemma uq_source_url_iff u rest :
  uq_source_url u rest = true <->
  forall s, u = Some s -> forall r, r ∈ rest -> url r <> Some s.
Proof.
  destruct u as [s|]; simpl; [|by split].
  rewrite forallb_forall. split.
  - intros H s' [= <-] r Hr%list_elem_of_In. specialize (H r Hr).
    by rewrite negb_true_iff, bool_decide_eq_false in H.
  - intros H r Hr%list_elem_of_In.
    rewrite negb_true_iff, bool_decide_eq_false. by apply (H s).
Qed.

Lemma chk_source_year_fits y :
  chk_source_year y = true -> from_option fits_integer true y = true.
Proof.
  destruct y as [y|]; simpl; [|done]. unfold fits_integer.
  intros [H1%Z.leb_le H2%Z.leb_le]%andb_true_iff.
  apply andb_true_iff. split; apply Z.leb_le; lia.
Qed.

(** X13: an INSERT into [source] is accepted exactly when the label is
    not null, the year is null or within 1000..9999, and the url is null or
    held by no row; in any table reached from the empty one, every year is
    null or within 1000..9999. *)
Theorem source_insert_accepted (ss : list statement) (v : source_values) :
  let t := run ss empty_table in
  (snd (exec (INSERT v) t) = None <->
     is_Some (v_label v) /\
     (forall y, v_year v = Some y -> 1000 <= y <= 9999) /\
     (forall u, v_url v = Some u -> forall r, r ∈ rows t -> url r <> Some u)) /\
  (forall r y, r ∈ rows t -> year r = Some y -> 1000 <= y <= 9999).
Proof.
  simpl. split.
  - rewrite <- uq_source_url_iff. unfold exec, checked.
    assert (Hy : chk_source_year (v_year v) = true <->
                 forall y, v_year v = Some y -> 1000 <= y <= 9999).
    { destruct (v_year v) as [y|]; simpl; [|by split].
      rewrite andb_true_iff, !Z.leb_le. split.
      - by intros H y' [= <-].
      - intros H. by apply H. }
    rewrite <- Hy.
    destruct (v_label v) as [l|]; simpl.
    2:{ split; [done|]. by intros ([? ?] & _). }
    destruct (chk_source_year (v_year v)) eqn:Hc; simpl.
    + rewrite chk_source_year_fits by done. simpl.
      destruct (uq_source_url _ _); simpl; split; try done; eauto.
      by intros (_ & _ & ?).
    + destruct (negb (from_option _ _ _)); simpl; split; try done;
        by intros (_ & ? & _).
  - assert (years_checked (run ss empty_table)) as H.
    { unfold run. assert (years_checked empty_table) as H0
        by (intros r Hr; by apply elem_of_nil in Hr).
      revert H0. generalize (@empty_table source).
      induction ss as [|s ss IH]; intros t Ht; simpl; [done|].
      by apply IH, exec_years. }
    intros r y Hr Hy. specialize (H r Hr). rewrite Hy in H. simpl in H.
    apply andb_true_iff in H as [?%Z.leb_le ?%Z.leb_le]. lia.
Qed.

Lemma exec_next_id s t : next_id t <= next_id (fst (exec s t)).
Proof.
  destruct s as [v | target v | target]; simpl.
  - destruct (checked _ _ _); simpl; lia.
  - destruct (has_key _ _ _); [|simpl; lia]. destruct (checked _ _ _); simpl; lia.
  - lia.
Qed.

Lemma exec_old_ids s t r :
  r ∈ rows (fst (exec s t)) -> id r < next_id t ->
  exists r0, r0 ∈ rows t /\ id r0 = id r.
Proof.
  destruct s as [v | target v | target]; simpl.
  - destruct (checked _ v _) as [e | x] eqn:Hc; simpl; [eauto|].
    intros [Hr | ->%list_elem_of_singleton]%elem_of_app Hlt; [eauto|].
    apply source_checked_inr in Hc as [Hid _]. lia.
  - destruct (has_key id target (rows t)) eqn:Hk; [|eauto].
    destruct (checked target v _) as [e | x] eqn:Hc; simpl; [eauto|].
    intros [-> | [Hr _]]%elem_of_replace _; [|eauto].
    apply source_checked_inr in Hc as [Hid _].
    apply has_key_true in Hk as (y & Hy & Hyk). exists y. split; [done|].
    congruence.
  - intros [Hr _]%elem_of_others _. eauto.
Qed.

(** X14: keys of [source] are never given twice.  Between any two
    moments the sequence does not go back, and a row whose key is below the
    earlier value of the sequence continues a row that was there then: a
    deleted row's key does not come back.  An INSERT, followed by the DELETE
    of the key it drew, leaves the rows as they were, whether the INSERT
    was accepted or not. *)
Theorem source_keys_never_reused (before later : list statement) :
  let t := run before empty_table in
  let t' := run later t in
  next_id t <= next_id t' /\
  NoDup (id <$> rows t') /\
  (forall r, r ∈ rows t' -> id r < next_id t ->
     exists r0, r0 ∈ rows t /\ id r0 = id r) /\
  (forall v, rows (run [INSERT v; DELETE (next_id t)] t) = rows t).
Proof.
  simpl. pose proof (source_run_wf before empty_table source_wf_empty) as Hwf.
  set (t := run before empty_table) in *.
  split; [|split; [|split]].
  - unfold run. generalize t. induction later as [|s ss IH]; intros u; simpl; [lia|].
    etrans; [apply (exec_next_id s u) | apply IH].
  - by destruct (source_run_wf later t Hwf) as [? _].
  - unfold run. generalize t.
    induction later as [|s ss IH]; intros u r; simpl; [eauto|].
    intros Hr Hlt.
    destruct (IH (fst (exec s u)) r Hr) as (r1 & Hr1 & Hid1).
    { pose proof (exec_next_id s u). lia. }
    destruct (exec_old_ids s u r1 Hr1) as (r0 & Hr0 & Hid0); [lia|].
    exists r0. split; [done | congruence].
  - intros v. destruct Hwf as (_ & Hlt & _). unfold run. simpl.
    destruct (checked (next_id t) v (rows t)) as [e | r] eqn:Hc; simpl.
    + by apply others_fresh.
    + apply others_snoc_fresh; [|done].
      by apply source_checked_inr in Hc as [? _].
Qed.

End SourceMore.

(** ** The keys a table holds *)
Section KeySets.
Context {R : Type} (key : R -> Z).
Implicit Types (l : list R) (r : R).

Definition holds (k : Z) l : Prop := exists r, r ∈ l /\ key r = k.

Lemma holds_app k l l' : holds k l -> holds k (l ++ l').
Proof. intros (r & Hr & Hk). exists r. split; [|done]. apply elem_of_app; auto. Qed.

Lemma holds_others k target l :
  holds k l -> k <> target -> holds k (Schema.others key target l).
Proof.
  intros (r & Hr & Hk) Hne. exists r. split; [|done].
  apply elem_of_others. split; [done | congruence].
Qed.

Lemma holds_replace k target r' l :
  key r' = target -> holds k l -> holds k (Schema.replace key target r' l).
Proof.
  intros Hr' (r & Hr & Hk). destruct (Z.eq_dec (key r) target) as [He | Hne].
  - exists r'. split; [|congruence]. apply elem_of_replace_iff. left. eauto.
  - exists r. split; [|done]. apply elem_of_replace_iff. right. eauto.
Qed.

End KeySets.

(** ** Links between interactions and citations *)
Module LinksFacts.
Import Schema SchemaMore.Links.

Definition interaction_rows (d : database) : list V2b.interaction :=
  rows (V2b.interactions (core d)).

(** What every reachable database satisfies. *)
Definition wf (d : database) : Prop :=
  NoDup (id <$> rows (links d)) /\
  (forall l, l ∈ rows (links d) -> id l < next_id (links d)) /\
  (forall l, l ∈ rows (links d) ->
     holds V2b.id (interaction_id l) (interaction_rows d) /\
     holds Source.id (source_id l) (rows (sources d))) /\
  (forall l l', l ∈ rows (links d) -> l' ∈ rows (links d) ->
     interaction_id l = interaction_id l' -> source_id l = source_id l' ->
     id l = id l').

Lemma uq_interaction_source_spec i s rest :
  uq_interaction_source i s rest = true <->
  forall l, l ∈ rest -> ~ (interaction_id l = i /\ source_id l = s).
Proof.
  unfold uq_interaction_source. rewrite forallb_forall. split.
  - intros H l Hl%list_elem_of_In [Hi Hs]. specialize (H l Hl).
    rewrite negb_true_iff, andb_false_iff, !Z.eqb_neq in H. tauto.
  - intros H l Hl%list_elem_of_In. specialize (H l Hl).
    rewrite negb_true_iff, andb_false_iff, !Z.eqb_neq. lia.
Qed.

Lemma link_checked_inr k i s d rest l :
  checked k i s d rest = inr l ->
  id l = k /\ i = Some (interaction_id l) /\ s = Some (source_id l) /\
  holds V2b.id (interaction_id l) (interaction_rows d) /\
  holds Source.id (source_id l) (rows (sources d)) /\
  uq_interaction_source (interaction_id l) (source_id l) rest = true.
Proof.
  unfold checked. destruct i as [i|], s as [s|]; try discriminate.
  destruct (negb (fits_bigint i && fits_bigint s)); [discriminate|].
  destruct (has_key V2b.id i _) eqn:Hi; [|discriminate].
  destruct (has_key Source.id s _) eqn:Hs; [|discriminate]. simpl.
  destruct (uq_interaction_source i s rest) eqn:Hu; [|discriminate]. simpl.
  intros [= <-]. simpl.
  apply has_key_true in Hi, Hs. auto 10.
Qed.

Lemma evidence_checked_id k v ev ls r :
  V2b.checked k v ev ls = inr r -> V2b.id r = k.
Proof.
  unfold V2b.checked.
  destruct (v_a_type v), (v_a_id v), (v_b_type v), (v_b_id v);
    try discriminate.
  destruct (negb (fits_bigint _ && _)); [discriminate|].
  destruct (V2b.evidence_of ev) as [err | e]; [discriminate|].
  destruct (negb (V2b.chk_interaction_evidence e)); [discriminate|].
  destruct (negb (V2b.references_level e ls)); [discriminate|].
  by intros [= <-].
Qed.

(** A statement on [interaction] or [evidence_level] keeps every key of
    [interaction] but the one it deletes. *)
Lemma core_keeps s c k :
  holds V2b.id k (rows (V2b.interactions c)) ->
  (forall target, s = V2b.DELETE target -> k <> target) ->
  holds V2b.id k (rows (V2b.interactions (fst (V2b.exec s c)))).
Proof.
  intros Hk Hs. destruct s as [v ev | target v ev | target | | |]; simpl.
  - destruct (V2b.checked _ v ev _); simpl; [done|]. by apply holds_app.
  - destruct (has_key _ _ _); [|done].
    destruct (V2b.checked target v ev _) as [e | r] eqn:Hc; simpl; [done|].
    apply holds_replace; [|done]. by apply evidence_checked_id in Hc.
  - apply holds_others; [done|]. by apply Hs.
  - by destruct (V2b.checked_level _ _ _).
  - destruct (has_key _ _ _); [|done].
    destruct (V2b.checked_level _ _ _); [done|].
    by destruct (_ && _).
  - by destruct (V2b.is_referenced _ _).
Qed.

Lemma source_keeps s t k :
  holds Source.id k (rows t) ->
  (forall target, s = Source.DELETE target -> k <> target) ->
  holds Source.id k (rows (fst (Source.exec s t))).
Proof.
  intros Hk Hs. destruct s as [v | target v | target]; simpl.
  - destruct (Source.checked _ v _); simpl; [done|]. by apply holds_app.
  - destruct (has_key _ _ _); [|done].
    destruct (Source.checked target v _) as [e | r] eqn:Hc; simpl; [done|].
    apply holds_replace; [|done].
    by apply SourceFacts.source_checked_inr in Hc as [? _].
  - apply holds_others; [done|]. by apply Hs.
Qed.

Lemma cascade_sublist s l : cascade s l `sublist_of` l.
Proof.
  destruct s as [[]|[]| | |]; simpl; try done; apply others_sublist.
Qed.

Lemma link_accepted_apart r rest x x' :
  uq_interaction_source (interaction_id r) (source_id r) rest = true ->
  (forall y y', y ∈ rest -> y' ∈ rest ->
     interaction_id y = interaction_id y' -> source_id y = source_id y' ->
     id y = id y') ->
  x = r \/ x ∈ rest -> x' = r \/ x' ∈ rest ->
  interaction_id x = interaction_id x' -> source_id x = source_id x' ->
  id x = id x'.
Proof.
  intros Hu Hrest [-> | Hx] [-> | Hx'] Hi Hs; eauto.
  - destruct (proj1 (uq_interaction_source_spec _ _ _) Hu x' Hx'); auto.
  - destruct (proj1 (uq_interaction_source_spec _ _ _) Hu x Hx); auto.
Qed.

Lemma links_wf_migrated : wf migrated.
Proof.
  split; [constructor|]. split; [|split].
  - intros l Hl. by apply elem_of_nil in Hl.
  - intros l Hl. by apply elem_of_nil in Hl.
  - intros l l' Hl. by apply elem_of_nil in Hl.
Qed.

Lemma links_exec_wf s d : wf d -> wf (fst (exec s d)).
Proof.
  intros (Hnd & Hlt & Hfk & Huq).
  destruct s as [s' | s' | i s' | target i s' | target]; simpl.
  - destruct (V2b.exec s' (core d)) as [c e] eqn:He. unfold wf; simpl.
    pose proof (cascade_sublist (ON_core s') (rows (links d))) as Hsub.
    assert (Hin : forall l, l ∈ cascade (ON_core s') (rows (links d)) ->
                            l ∈ rows (links d)).
    { intros l Hl. by eapply elem_of_sublist. }
    split; [|split; [|split]]; eauto.
    + eapply sublist_NoDup; [exact Hnd|]. by apply fmap_sublist.
    + intros l Hl. destruct (Hfk l (Hin l Hl)) as [Hi Hs]. split; [|done].
      unfold interaction_rows; simpl.
      replace c with (fst (V2b.exec s' (core d))) by (by rewrite He).
      apply core_keeps; [done|]. intros target ->. simpl in Hl.
      by apply elem_of_others in Hl as [_ ?].
  - destruct (Source.exec s' (sources d)) as [src e] eqn:He. unfold wf; simpl.
    pose proof (cascade_sublist (ON_source s') (rows (links d))) as Hsub.
    assert (Hin : forall l, l ∈ cascade (ON_source s') (rows (links d)) ->
                            l ∈ rows (links d)).
    { intros l Hl. by eapply elem_of_sublist. }
    split; [|split; [|split]]; eauto.
    + eapply sublist_NoDup; [exact Hnd|]. by apply fmap_sublist.
    + intros l Hl. destruct (Hfk l (Hin l Hl)) as [Hi Hs]. split; [done|].
      replace src with (fst (Source.exec s' (sources d))) by (by rewrite He).
      apply source_keeps; [done|]. intros target ->. simpl in Hl.
      by apply elem_of_others in Hl as [_ ?].
  - destruct (checked _ i s' d _) as [e | r] eqn:Hc; unfold wf; simpl.
    { split; [done|]. split; [|done].
      intros l Hl. specialize (Hlt l Hl). lia. }
    apply link_checked_inr in Hc as (Hid & _ & _ & Hi & Hs & Hu).
    split; [|split; [|split]].
    + rewrite fmap_app. simpl. apply NoDup_app. split; [done|].
      split; [|apply NoDup_singleton].
      intros k (x & -> & Hx)%list_elem_of_fmap Heq%list_elem_of_singleton.
      specialize (Hlt x Hx). lia.
    + intros x [Hx | ->%list_elem_of_singleton]%elem_of_app.
      * specialize (Hlt x Hx). lia.
      * lia.
    + intros x [Hx | ->%list_elem_of_singleton]%elem_of_app; auto.
    + intros x x' [Hx | ->%list_elem_of_singleton]%elem_of_app
        [Hx' | ->%list_elem_of_singleton]%elem_of_app;
        apply (link_accepted_apart r (rows (links d))); auto.
  - destruct (has_key id target _) eqn:Hk; [|done].
    destruct (checked target i s' d _) as [e | r] eqn:Hc; [done|].
    apply link_checked_inr in Hc as (Hid & _ & _ & Hi & Hs & Hu).
    assert (Hin : forall x, x ∈ replace id target r (rows (links d)) ->
              x = r \/ x ∈ others id target (rows (links d))).
    { intros x [-> | [Hx Hne]]%elem_of_replace; [by left|].
      right. by apply elem_of_others. }
    unfold wf; simpl. split; [|split; [|split]].
    + by rewrite fmap_key_replace.
    + intros x [-> | [Hx _]%elem_of_others]%Hin; [|auto].
      apply has_key_true in Hk as (y & Hy & <-). rewrite Hid. auto.
    + intros x [-> | [Hx _]%elem_of_others]%Hin; auto.
    + intros x x' Hx%Hin Hx'%Hin.
      apply (link_accepted_apart r (others id target (rows (links d)))); auto.
      intros y y' [Hy _]%elem_of_others [Hy' _]%elem_of_others. eauto.
  - unfold wf; simpl. split; [|split; [|split]].
    + eapply sublist_NoDup; [exact Hnd|]. apply fmap_sublist, others_sublist.
    + intros x [Hx _]%elem_of_others. auto.
    + intros x [Hx _]%elem_of_others. auto.
    + intros x x' [Hx _]%elem_of_others [Hx' _]%elem_of_others. eauto.
Qed.

Lemma links_run_wf ss d : wf d -> wf (run ss d).
Proof.
  revert d. induction ss as [|s ss IH]; intros d Hd; [done|].
  apply IH, links_exec_wf, Hd.
Qed.

End LinksFacts.

Module LinksTheorems.
Import Schema SchemaMore.Links LinksFacts.

(** X15: in every database reached from the migrated one by statements on
    [interaction], [evidence_level], [source] and [interaction_source],
    each link references an interaction and a citation that exist, and no
    two links join the same interaction to the same citation. *)
Theorem links_reference_existing_rows (ss : list statement) :
  let d := run ss migrated in
  (forall l, l ∈ rows (links d) ->
     (exists r, r ∈ rows (V2b.interactions (core d)) /\
                V2b.id r = interaction_id l) /\
     (exists s, s ∈ rows (sources d) /\ Source.id s = source_id l)) /\
  (forall i j l l',
     i <> j -> rows (links d) !! i = Some l -> rows (links d) !! j = Some l' ->
     (interaction_id l, source_id l) <> (interaction_id l', source_id l')).
Proof.
  simpl. destruct (links_run_wf ss migrated links_wf_migrated)
    as (Hnd & _ & Hfk & Huq).
  split; [exact Hfk|].
  intros i j l l' Hij Hi Hj [= Hii Hss].
  apply (keys_differ id _ i j l l' Hnd Hij Hi Hj).
  apply Huq; eauto using list_elem_of_lookup_2.
Qed.

Definition cited_edge : edge_values :=
  {| v_a_type := Some INGREDIENT; v_a_id := Some 1;
     v_b_type := Some CONDITION; v_b_id := Some 1;
     v_itype := Some (js "avoid"); v_rationale := None |}.

Definition paper (u : string) : Source.source_values :=
  {| Source.v_label := Some (js "paper"); Source.v_url := Some (js u);
     Source.v_publisher := None; Source.v_year := Some 2020 |}.

(** An interaction may cite several papers and a paper may be cited by
    several interactions; deleting the first interaction takes its two
    links with it. *)
Example links_many_to_many :
  let d := run [ON_core (V2b.INSERT cited_edge V2b.DEFAULT);
                ON_core (V2b.INSERT cited_edge V2b.DEFAULT);
                ON_source (Source.INSERT (paper "a"));
                ON_source (Source.INSERT (paper "b"));
                INSERT (Some 1) (Some 1); INSERT (Some 1) (Some 2);
                INSERT (Some 2) (Some 1); INSERT (Some 1) (Some 1)] migrated in
  ((fun l => (interaction_id l, source_id l)) <$> rows (links d)
     = [(1, 1); (1, 2); (2, 1)]) /\
  ((fun l => (interaction_id l, source_id l))
     <$> rows (links (run [ON_core (V2b.DELETE 1)] d)) = [(2, 1)]).
Proof. split; reflexivity. Qed.

End LinksTheorems.

(** ** Identity keys: distinct, and below the sequence *)
Section Keyed.
Context {R : Type} (key : R -> Z).
Implicit Types (l : list R) (r : R).

Definition keyed l (n : Z) : Prop :=
  NoDup (key <$> l) /\ forall r, r ∈ l -> key r < n.

Lemma keyed_skip l n : keyed l n -> keyed l (n + 1).
Proof. intros [Hnd Hlt]. split; [done|]. intros r Hr%Hlt. lia. Qed.

Lemma keyed_snoc l n r : keyed l n -> key r = n -> keyed (l ++ [r]) (n + 1).
Proof.
  intros [Hnd Hlt] Hr. split.
  - rewrite fmap_app. simpl. apply NoDup_app. split; [done|].
    split; [|apply NoDup_singleton].
    intros k (x & -> & Hx)%list_elem_of_fmap Heq%list_elem_of_singleton.
    specialize (Hlt x Hx). lia.
  - intros x [Hx%Hlt | ->%list_elem_of_singleton]%elem_of_app; lia.
Qed.

Lemma keyed_replace l n target r :
  keyed l n -> Schema.has_key key target l = true -> key r = target ->
  keyed (Schema.replace key target r l) n.
Proof.
  intros [Hnd Hlt] (y & Hy & Hk)%has_key_true Hr. split.
  - by rewrite fmap_key_replace.
  - intros x [-> | [Hx _]]%elem_of_replace; [|auto].
    rewrite Hr, <- Hk. auto.
Qed.

Lemma keyed_sublist l l' n : l' `sublist_of` l -> keyed l n -> keyed l' n.
Proof.
  intros Hsub [Hnd Hlt]. split.
  - eapply sublist_NoDup; [exact Hnd|]. by apply fmap_sublist.
  - intros x Hx. apply Hlt. by eapply elem_of_sublist.
Qed.

Lemma keyed_others l n target :
  keyed l n -> keyed (Schema.others key target l) n.
Proof.
  intros [Hnd Hlt]. split.
  - eapply sublist_NoDup; [exact Hnd|]. apply fmap_sublist, others_sublist.
  - intros x [Hx _]%elem_of_others. auto.
Qed.

Lemma replace_cases target r l x :
  x ∈ Schema.replace key target r l ->
  x = r \/ x ∈ Schema.others key target l.
Proof.
  intros [-> | [Hx Hne]]%elem_of_replace; [by left|].
  right. by apply elem_of_others.
Qed.

End Keyed.

(** ** The ingredient catalogue and its aliases *)
Module IngredientFacts.
Import Schema SchemaMore.Ingredients.

(** What every reachable database satisfies. *)
Definition wf (d : database) : Prop :=
  let t := ingredients d in
  let u := aliases d in
  keyed id (rows t) (next_id t) /\
  keyed alias_id (rows u) (next_id u) /\
  (forall r r', r ∈ rows t -> r' ∈ rows t -> slug r = slug r' -> id r = id r') /\
  (forall a, a ∈ rows u -> holds id (ingredient_id a) (rows t)) /\
  (forall a a', a ∈ rows u -> a' ∈ rows u ->
     ingredient_id a = ingredient_id a' -> alias a = alias a' ->
     alias_id a = alias_id a').

Lemma ingredient_checked_inr k s n c rest r :
  checked k s n c rest = inr r ->
  id r = k /\ s = Some (slug r) /\ n = Some (name r) /\
  forall x, x ∈ rest -> slug x <> slug r.
Proof.
  unfold checked. destruct s as [s|], n as [n|]; try discriminate.
  destruct (existsb _ rest) eqn:Hex; [discriminate|].
  intros [= <-]. simpl. repeat split; auto.
  intros x Hx%list_elem_of_In Heq.
  assert (existsb (fun r => bool_decide (slug r = s)) rest = true);
    [|congruence].
  apply existsb_exists. exists x. split; [done|]. by apply bool_decide_eq_true.
Qed.

Lemma alias_checked_inr k i a ings rest r :
  checked_alias k i a ings rest = inr r ->
  alias_id r = k /\ i = Some (ingredient_id r) /\ a = Some (alias r) /\
  holds id (ingredient_id r) ings /\
  forall x, x ∈ rest ->
    ~ (ingredient_id x = ingredient_id r /\ alias x = alias r).
Proof.
  unfold checked_alias. destruct i as [i|], a as [a|]; try discriminate.
  destruct (negb (fits_bigint i)); [discriminate|].
  destruct (has_key id i ings) eqn:Hk; [|discriminate]. simpl.
  destruct (existsb _ rest) eqn:Hex; [discriminate|].
  intros [= <-]. simpl. apply has_key_true in Hk. repeat split; auto.
  intros x Hx%list_elem_of_In [Hi Ha].
  assert (existsb (fun r => (ingredient_id r =? i)
                            && bool_decide (alias r = a)) rest = true);
    [|congruence].
  apply existsb_exists. exists x. split; [done|].
  apply andb_true_iff. split; [by apply Z.eqb_eq | by apply bool_decide_eq_true].
Qed.

Lemma slug_apart r (rest : list ingredient) x x' :
  (forall y, y ∈ rest -> slug y <> slug r) ->
  (forall y y', y ∈ rest -> y' ∈ rest -> slug y = slug y' -> id y = id y') ->
  x = r \/ x ∈ rest -> x' = r \/ x' ∈ rest ->
  slug x = slug x' -> id x = id x'.
Proof.
  intros Hu Hrest [-> | Hx] [-> | Hx'] Heq; eauto.
  - by destruct (Hu x' Hx').
  - by destruct (Hu x Hx).
Qed.

Lemma alias_apart r (rest : list ingredient_alias) x x' :
  (forall y, y ∈ rest ->
     ~ (ingredient_id y = ingredient_id r /\ alias y = alias r)) ->
  (forall y y', y ∈ rest -> y' ∈ rest ->
     ingredient_id y = ingredient_id y' -> alias y = alias y' ->
     alias_id y = alias_id y') ->
  x = r \/ x ∈ rest -> x' = r \/ x' ∈ rest ->
  ingredient_id x = ingredient_id x' -> alias x = alias x' ->
  alias_id x = alias_id x'.
Proof.
  intros Hu Hrest [-> | Hx] [-> | Hx'] Hi Ha; eauto.
  - destruct (Hu x' Hx'); auto.
  - destruct (Hu x Hx); auto.
Qed.

Lemma ingredients_wf_empty : wf empty.
Proof.
  unfold wf; simpl.
  split; [split; [apply NoDup_nil_2 | by intros x Hx%elem_of_nil]|].
  split; [split; [apply NoDup_nil_2 | by intros x Hx%elem_of_nil]|].
  split; [by intros x y Hx%elem_of_nil|].
  split; [by intros x Hx%elem_of_nil | by intros x y Hx%elem_of_nil].
Qed.

Lemma ingredients_exec_wf st d : wf d -> wf (fst (exec st d)).
Proof.
  intros (Ht & Hu & Hslug & Hfk & Huq).
  destruct st as [s n c | target s n c | target | i a | target i a | target];
    simpl.
  - destruct (checked _ s n c _) as [e | r] eqn:Hc; unfold wf; simpl.
    { split; [by apply keyed_skip|]. auto. }
    apply ingredient_checked_inr in Hc as (Hid & _ & _ & Hnew).
    split; [by apply keyed_snoc|]. split; [done|]. split; [|split; [|done]].
    + intros x x' [Hx | ->%list_elem_of_singleton]%elem_of_app
        [Hx' | ->%list_elem_of_singleton]%elem_of_app;
        apply (slug_apart r (rows (ingredients d))); auto.
    + intros x Hx. by apply holds_app, Hfk.
  - destruct (has_key id target _) eqn:Hk; [|done].
    destruct (checked target s n c _) as [e | r] eqn:Hc; [done|].
    apply ingredient_checked_inr in Hc as (Hid & _ & _ & Hnew).
    unfold wf; simpl.
    split; [by apply keyed_replace|]. split; [done|]. split; [|split; [|done]].
    + intros x x' Hx%replace_cases Hx'%replace_cases.
      apply (slug_apart r (others id target (rows (ingredients d)))); auto.
      intros y y' [Hy _]%elem_of_others [Hy' _]%elem_of_others. eauto.
    + intros x Hx. apply holds_replace; auto.
  - unfold wf; simpl.
    split; [by apply keyed_others|].
    split; [eapply keyed_sublist; [apply others_sublist | done]|].
    split; [|split].
    + intros x x' [Hx _]%elem_of_others [Hx' _]%elem_of_others. eauto.
    + intros x [Hx Hne]%elem_of_others. apply holds_others; auto.
    + intros x x' [Hx _]%elem_of_others [Hx' _]%elem_of_others. eauto.
  - destruct (checked_alias _ i a _ _) as [e | r] eqn:Hc; unfold wf; simpl.
    { split; [done|]. split; [by apply keyed_skip|]. auto. }
    apply alias_checked_inr in Hc as (Hid & _ & _ & Hi & Hnew).
    split; [done|]. split; [by apply keyed_snoc|]. split; [done|]. split.
    + intros x [Hx | ->%list_elem_of_singleton]%elem_of_app; auto.
    + intros x x' [Hx | ->%list_elem_of_singleton]%elem_of_app
        [Hx' | ->%list_elem_of_singleton]%elem_of_app;
        apply (alias_apart r (rows (aliases d))); auto.
  - destruct (has_key alias_id target _) eqn:Hk; [|done].
    destruct (checked_alias target i a _ _) as [e | r] eqn:Hc; [done|].
    apply alias_checked_inr in Hc as (Hid & _ & _ & Hi & Hnew).
    unfold wf; simpl.
    split; [done|]. split; [by apply keyed_replace|]. split; [done|]. split.
    + intros x [-> | [Hx _]%elem_of_others]%replace_cases; auto.
    + intros x x' Hx%replace_cases Hx'%replace_cases.
      apply (alias_apart r (others alias_id target (rows (aliases d)))); auto.
      intros y y' [Hy _]%elem_of_others [Hy' _]%elem_of_others. eauto.
  - unfold wf; simpl.
    split; [done|]. split; [by apply keyed_others|]. split; [done|]. split.
    + intros x [Hx _]%elem_of_others. auto.
    + intros x x' [Hx _]%elem_of_others [Hx' _]%elem_of_others. eauto.
Qed.

Lemma ingredients_run_wf ss d : wf d -> wf (run ss d).
Proof.
  revert d. induction ss as [|s ss IH]; intros d Hd; [done|].
  apply IH, ingredients_exec_wf, Hd.
Qed.

End IngredientFacts.

Module IngredientTheorems.
Import Schema SchemaMore.Ingredients IngredientFacts.

(** X16: in every database reached from the empty one by statements on
    [ingredient] and [ingredient_alias], no two ingredients share a slug,
    every alias belongs to an ingredient that exists, and no ingredient has
    the same alias twice. *)
Theorem aliases_belong_and_differ (ss : list statement) :
  let d := run ss empty in
  let t := rows (ingredients d) in
  let u := rows (aliases d) in
  (forall i j r r',
     i <> j -> t !! i = Some r -> t !! j = Some r' -> slug r <> slug r') /\
  (forall a, a ∈ u -> exists r, r ∈ t /\ id r = ingredient_id a) /\
  (forall i j a a',
     i <> j -> u !! i = Some a -> u !! j = Some a' ->
     (ingredient_id a, alias a) <> (ingredient_id a', alias a')).
Proof.
  simpl. destruct (ingredients_run_wf ss empty ingredients_wf_empty)
    as ([Hnd _] & [Hnd' _] & Hslug & Hfk & Huq).
  split; [|split; [exact Hfk|]].
  - intros i j r r' Hij Hi Hj Heq.
    apply (keys_differ id _ i j r r' Hnd Hij Hi Hj).
    apply Hslug; eauto using list_elem_of_lookup_2.
  - intros i j a a' Hij Hi Hj [= Hii Haa].
    apply (keys_differ alias_id _ i j a a' Hnd' Hij Hi Hj).
    apply Huq; eauto using list_elem_of_lookup_2.
Qed.

Definition given (s : string) : option text := Some (js s).

(** Two ingredients may carry the same alias, and one ingredient may carry
    aliases that differ only in the case of a letter; a repeated alias is
    rejected; deleting an ingredient takes its aliases with it. *)
Example aliases_by_example :
  let d := run [INSERT (given "vitamin-c") (given "Vitamin C") None;
                INSERT (given "ascorbate") (given "Ascorbate") None;
                INSERT_alias (Some 1) (given "C");
                INSERT_alias (Some 2) (given "C");
                INSERT_alias (Some 1) (given "c");
                INSERT_alias (Some 1) (given "C");
                INSERT_alias (Some 3) (given "C")] empty in
  ((fun a => (ingredient_id a, alias a)) <$> rows (aliases d)
     = [(1, js "C"); (2, js "C"); (1, js "c")]) /\
  ((fun a => (ingredient_id a, alias a))
     <$> rows (aliases (run [DELETE 1] d)) = [(2, js "C")]).
Proof. split; reflexivity. Qed.

End IngredientTheorems.

(** ** The seed of the evidence levels *)
Module SeedTheorems.
Import Schema Schema.V2b SchemaMore.Seed.

Lemma insert_or_skip_holds ls l : holds score (score l) (insert_or_skip ls l).
Proof.
  unfold insert_or_skip. destruct (has_key score (score l) ls) eqn:Hk.
  - by apply has_key_true in Hk.
  - exists l. split; [|done]. apply elem_of_app. right. by left.
Qed.

Lemma insert_or_skip_prefix ls l : ls `prefix_of` insert_or_skip ls l.
Proof.
  unfold insert_or_skip. destruct (has_key _ _ _); [done|].
  by apply prefix_app_r.
Qed.

Lemma insert_or_skip_NoDup ls l :
  NoDup (score <$> ls) -> NoDup (score <$> insert_or_skip ls l).
Proof.
  intros Hnd. unfold insert_or_skip.
  destruct (has_key score (score l) ls) eqn:Hk; [done|].
  rewrite fmap_app. apply NoDup_app. split; [done|].
  split; [|apply NoDup_singleton].
  intros k (x & -> & Hx)%list_elem_of_fmap Heq%list_elem_of_singleton.
  assert (has_key score (score l) ls = true); [|congruence].
  apply has_key_true. eauto.
Qed.

Section Fold.
Implicit Types (ls xs : list evidence_level).

Lemma fold_prefix xs ls : ls `prefix_of` foldl insert_or_skip ls xs.
Proof.
  revert ls. induction xs as [|x xs IH]; intros ls; simpl; [done|].
  etrans; [apply (insert_or_skip_prefix ls x) | apply IH].
Qed.

Lemma fold_holds xs ls x :
  x ∈ xs -> holds score (score x) (foldl insert_or_skip ls xs).
Proof.
  revert ls. induction xs as [|y xs IH]; intros ls Hx; simpl.
  - by apply elem_of_nil in Hx.
  - apply elem_of_cons in Hx as [-> | Hx]; [|by apply IH].
    destruct (insert_or_skip_holds ls y) as (r & Hr & Hk).
    exists r. split; [|done].
    eapply elem_of_prefix; [exact Hr | apply fold_prefix].
Qed.

Lemma fold_NoDup xs ls :
  NoDup (score <$> ls) -> NoDup (score <$> foldl insert_or_skip ls xs).
Proof.
  revert ls. induction xs as [|x xs IH]; intros ls Hnd; simpl; [done|].
  by apply IH, insert_or_skip_NoDup.
Qed.

Lemma fold_skips xs ls :
  (forall x, x ∈ xs -> holds score (score x) ls) ->
  foldl insert_or_skip ls xs = ls.
Proof.
  induction xs as [|x xs IH]; intros H; simpl; [done|].
  unfold insert_or_skip at 2.
  rewrite (proj2 (has_key_true score (score x) ls)) by (apply H; by left).
  apply IH. intros y Hy. apply H. by right.
Qed.

End Fold.

(** X17: the seed statement may be run on any contents of
    [evidence_level] and any number of times.  It keeps the rows it finds,
    in place and with their labels; afterwards each score from 0 to 5 has a
    row; scores that were distinct stay distinct; and a second run changes
    nothing.  On the empty table it stores the six rows of the seed. *)
Theorem seed_levels_rerun (ls : list evidence_level) :
  ls `prefix_of` seed_levels ls /\
  (forall s, 0 <= s <= 5 -> exists l, l ∈ seed_levels ls /\ score l = s) /\
  (NoDup (score <$> ls) -> NoDup (score <$> seed_levels ls)) /\
  seed_levels (seed_levels ls) = seed_levels ls /\
  seed_levels [] = levels migrated.
Proof.
  unfold seed_levels. split; [apply fold_prefix|].
  split; [|split; [apply fold_NoDup|split; [|reflexivity]]].
  - intros s Hs. assert (exists x, x ∈ seed /\ score x = s) as (x & Hx & <-).
    { apply has_key_true.
      assert (s = 5 \/ s = 4 \/ s = 3 \/ s = 2 \/ s = 1 \/ s = 0)
        as [-> | [-> | [-> | [-> | [-> | ->]]]]] by lia; reflexivity. }
    by apply fold_holds.
  - apply fold_skips. intros x Hx. by apply fold_holds.
Qed.

End SeedTheorems.

(** ** Interaction labels under [chk_interaction_itype] *)
Module LabelTheorems.
Import Schema Schema.V2a V2aFacts.

Definition labels_checked (t : table interaction) : Prop :=
  forall r, r ∈ rows t -> chk_interaction_itype (itype r) = true.

Lemma exec_labels s t : labels_checked t -> labels_checked (fst (exec s t)).
Proof.
  intros Ht. destruct s as [v | target v | target]; simpl.
  - destruct (checked _ v _) as [e | r] eqn:Hc; simpl; [done|].
    intros x [Hx | ->%list_elem_of_singleton]%elem_of_app; [by apply Ht|].
    by apply interaction_checked_inr in Hc as (_ & _ & ?).
  - destruct (has_key _ _ _); [|done].
    destruct (checked target v _) as [e | r] eqn:Hc; [done|]. simpl.
    intros x [-> | [Hx _]]%elem_of_replace; [|by apply Ht].
    by apply interaction_checked_inr in Hc as (_ & _ & ?).
  - intros x [Hx _]%elem_of_others. by apply Ht.
Qed.

Lemma run_labels ss t : labels_checked t -> labels_checked (run ss t).
Proof.
  revert t. induction ss as [|s ss IH]; intros t Ht; [done|].
  apply IH, exec_labels, Ht.
Qed.

Lemma uq_interaction_iff r rest :
  uq_interaction r rest = true <->
  (is_Some (itype r) -> forall r', r' ∈ rest -> uq_tuple r' <> uq_tuple r).
Proof.
  unfold uq_interaction, conflicts. rewrite forallb_forall. split.
  - intros H [l Hl] r' Hr'%list_elem_of_In Heq. specialize (H r' Hr').
    rewrite Hl in H. by rewrite bool_decide_eq_true_2 in H.
  - intros H r' Hr'%list_elem_of_In. destruct (itype r) as [l|]; [|done].
    rewrite negb_true_iff, bool_decide_eq_false. intros Heq.
    by apply (H (ltac:(eauto)) r' Hr').
Qed.

(** X18: under the first copy of [interaction], a stored label is null,
    'avoid' or 'benefit' in every table reached from the empty one; and an
    INSERT is accepted exactly when the two types and the two ids are given,
    the ids fit BIGINT, the label is null or one of the two words, and,
    if the label is given, no row holds the same five columns. *)
Theorem interaction_label_checked (ss : list statement) (v : edge_values) :
  let t := run ss empty_table in
  (forall r, r ∈ rows t ->
     itype r = None \/ itype r = Some (js "avoid") \/
     itype r = Some (js "benefit")) /\
  (snd (exec (INSERT v) t) = None <->
   exists at_ ai bt bi,
     v_a_type v = Some at_ /\ v_a_id v = Some ai /\
     v_b_type v = Some bt /\ v_b_id v = Some bi /\
     fits_bigint ai = true /\ fits_bigint bi = true /\
     (v_itype v = None \/ v_itype v = Some (js "avoid") \/
      v_itype v = Some (js "benefit")) /\
     (is_Some (v_itype v) -> forall r, r ∈ rows t ->
        uq_tuple r <> (at_, ai, bt, bi, v_itype v))).
Proof.
  assert (Hchk : forall l, chk_interaction_itype l = true <->
            l = None \/ l = Some (js "avoid") \/ l = Some (js "benefit")).
  { intros [l|]; unfold chk_interaction_itype; [|split; auto].
    rewrite orb_true_iff, !bool_decide_eq_true. split.
    - intros [-> | ->]; auto.
    - intros [? | [[= ->] | [= ->]]]; auto. discriminate. }
  simpl. split.
  - intros r Hr. apply Hchk. revert r Hr. apply run_labels.
    intros r Hr. by apply elem_of_nil in Hr.
  - set (t := run ss empty_table). unfold exec, checked.
    destruct (v_a_type v) as [at_|], (v_a_id v) as [ai|],
      (v_b_type v) as [bt|], (v_b_id v) as [bi|]; simpl;
      try (split; [done | by intros (? & ? & ? & ? & ? & ? & ? & ? & _)]).
    destruct (fits_bigint ai) eqn:Hai, (fits_bigint bi) eqn:Hbi; simpl;
      try (split; [done|];
           intros (? & ? & ? & ? & _ & [= <-] & _ & [= <-] & ? & ? & _);
           congruence).
    destruct (chk_interaction_itype (v_itype v)) eqn:Hl; simpl.
    2:{ split; [done|]. intros (? & ? & ? & ? & _ & _ & _ & _ & _ & _ & H & _).
        apply Hchk in H. congruence. }
    match goal with |- context [uq_interaction ?x (rows t)] =>
      pose proof (uq_interaction_iff x (rows t)) as Hu;
      destruct (uq_interaction x (rows t)) end; simpl.
    + split; [|done]. intros _. exists at_, ai, bt, bi.
      repeat split; auto. { by apply Hchk. }
      by apply Hu.
    + split; [done|].
      intros (? & ? & ? & ? & [= <-] & [= <-] & [= <-] & [= <-] & _ & _ & _ & H).
      by apply Hu in H.
Qed.

End LabelTheorems.

(** ** Evidence levels under their primary key *)
Section Renumber.
Context {R : Type} (key : R -> Z).
Implicit Types (l : list R) (r : R).

Lemma others_absent target l :
  target ∉ key <$> l -> Schema.others key target l = l.
Proof.
  induction l as [|x l IH]; simpl; [done|].
  intros [Hx Hl]%not_elem_of_cons.
  rewrite (proj2 (Z.eqb_neq (key x) target)) by congruence. simpl.
  f_equal. by apply IH.
Qed.

Lemma replace_absent target r l :
  target ∉ key <$> l -> Schema.replace key target r l = l.
Proof.
  induction l as [|x l IH]; simpl; [done|].
  intros [Hx Hl]%not_elem_of_cons.
  rewrite (proj2 (Z.eqb_neq (key x) target)) by congruence.
  f_equal. by apply IH.
Qed.

(** A row may take a new key when no other row holds it. *)
Lemma NoDup_replace target r l :
  NoDup (key <$> l) ->
  key r ∉ key <$> Schema.others key target l ->
  NoDup (key <$> Schema.replace key target r l).
Proof.
  induction l as [|x l IH]; simpl; [done|].
  intros [Hx Hnd]%NoDup_cons Hr.
  destruct (Z.eqb_spec (key x) target) as [Hk | Hk]; simpl in *.
  - rewrite Hk in Hx. rewrite (others_absent target l Hx) in Hr.
    change (NoDup (key <$> r :: Schema.replace key target r l)).
    rewrite (replace_absent target r l Hx), fmap_cons.
    by apply NoDup_cons.
  - apply not_elem_of_cons in Hr as [Hne Hr].
    change (NoDup (key <$> x :: Schema.replace key target r l)).
    rewrite fmap_cons. apply NoDup_cons. split; [|by apply IH].
    intros (y & Hy & [-> | [Hin _]]%elem_of_replace)%list_elem_of_fmap.
    + congruence.
    + apply Hx. apply list_elem_of_fmap. eauto.
Qed.

(** Under distinct keys, a key names one row. *)
Lemma key_names_one l r r' :
  NoDup (key <$> l) -> r ∈ l -> r' ∈ l -> key r = key r' -> r = r'.
Proof.
  intros Hnd [i Hi]%list_elem_of_lookup [j Hj]%list_elem_of_lookup Heq.
  destruct (decide (i = j)) as [-> | Hij]; [congruence|].
  by destruct (keys_differ key l i j r r' Hnd Hij Hi Hj).
Qed.

End Renumber.

Module LevelTheorems.
Import Schema Schema.V2b V2bFacts.

Lemma checked_level_inr s l rest lv :
  checked_level s l rest = inr lv -> score lv ∉ score <$> rest.
Proof.
  unfold checked_level. destruct s as [s|], l as [l|]; try discriminate.
  destruct (negb (fits_smallint s)); [discriminate|].
  destruct (has_key score s rest) eqn:Hk; [discriminate|].
  intros [= <-] (x & Hs & Hx)%list_elem_of_fmap. simpl in Hs.
  assert (has_key score s rest = true); [|congruence].
  apply has_key_true. eauto.
Qed.

Lemma exec_levels_NoDup s d :
  NoDup (score <$> levels d) -> NoDup (score <$> levels (fst (exec s d))).
Proof.
  intros Hnd.
  destruct s as [v ev | target v ev | target | s l | target s l | target];
    simpl.
  - by destruct (checked _ v ev _).
  - destruct (has_key _ _ _); [|done]. by destruct (checked _ v ev _).
  - done.
  - destruct (checked_level s l _) as [e | lv] eqn:Hc; simpl; [done|].
    apply checked_level_inr in Hc.
    rewrite fmap_app. apply NoDup_app. split; [done|].
    split; [|apply NoDup_singleton].
    by intros k Hk ->%list_elem_of_singleton.
  - destruct (has_key score target _); [|done].
    destruct (checked_level s l _) as [e | lv] eqn:Hc; [done|].
    destruct (_ && _); simpl; [done|].
    apply NoDup_replace; [done|]. by apply checked_level_inr in Hc.
  - destruct (is_referenced _ _); [done|]. simpl.
    eapply sublist_NoDup; [exact Hnd|]. apply fmap_sublist, others_sublist.
Qed.

Lemma run_levels_NoDup ss d :
  NoDup (score <$> levels d) -> NoDup (score <$> levels (run ss d)).
Proof.
  revert d. induction ss as [|s ss IH]; intros d Hd; [done|].
  apply IH, exec_levels_NoDup, Hd.
Qed.

(** X19: in every database reached from the migrated one, also by
    statements that add, renumber, relabel or delete evidence levels, no two
    levels share a score, and the evidence of each interaction names exactly
    one level. *)
Theorem evidence_names_one_level (ss : list statement) :
  let d := run ss migrated in
  (forall i j l l',
     i <> j -> levels d !! i = Some l -> levels d !! j = Some l' ->
     score l <> score l') /\
  (forall r, r ∈ rows (interactions d) ->
     exists l, l ∈ levels d /\ score l = evidence r /\
       forall l', l' ∈ levels d -> score l' = evidence r -> l' = l).
Proof.
  simpl. assert (NoDup (score <$> levels (run ss migrated))) as Hnd.
  { apply run_levels_NoDup. apply (bool_decide_unpack _). by vm_compute. }
  split.
  - intros i j l l' Hij Hi Hj.
    exact (keys_differ score _ i j l l' Hnd Hij Hi Hj).
  - intros r Hr.
    destruct (run_in_range ss migrated migrated_in_range r Hr)
      as (_ & l & Hl & Hs).
    exists l. split; [done|]. split; [done|].
    intros l' Hl' Hs'. apply (key_names_one score (levels (run ss migrated)));
      [done..|congruence].
Qed.

Definition rated_edge : edge_values :=
  {| v_a_type := Some INGREDIENT; v_a_id := Some 1;
     v_b_type := Some CONDITION; v_b_id := Some 1;
     v_itype := Some (js "benefit"); v_rationale := None |}.

(** A level in use can be relabelled but neither renumbered nor deleted;
    out of use, it can be renumbered, and its old score is then refused. *)
Example levels_by_example :
  let d := run [INSERT rated_edge (VALUE 3)] migrated in
  snd (exec (UPDATE_level 3 (Some 3) (Some (js "Fair"))) d) = None /\
  snd (exec (UPDATE_level 3 (Some 9) (Some (js "Fair"))) d)
    = Some foreign_key_violation /\
  snd (exec (DELETE_level 3) d) = Some foreign_key_violation /\
  snd (exec (UPDATE_level 2 (Some 9) (Some (js "Weak"))) d) = None /\
  snd (exec (INSERT rated_edge (VALUE 2))
         (run [UPDATE_level 2 (Some 9) (Some (js "Weak"))] d))
    = Some foreign_key_violation.
Proof. repeat split; reflexivity. Qed.

End LevelTheorems.
